(** * Uniswap swap-log ingestor: RPC failover, chunked scan and JSON append

    A shallow embedding of [src/dex/index.js] (the one-pass ingestor, and
    the resumable ingestor with its [RPCManager], the append-to-JSON-array
    protocol and the progress checkpoint) and of [src/dex/fix2.js] (the
    execution-price pass over the output file).

    Conventions.
    - JavaScript strings that the program inspects character by character
      (file contents, JSON text, amounts) are [list ascii]; an [ascii] is a
      UTF-16 code unit below 256.  Names that are only compared (file
      paths, endpoint URLs, error messages) are [string].
    - A JavaScript [Number] is a binary64 value, [spec_float] with
      precision 53 and exponent bound 1024; a [BigInt] is a [Z].
    - The file system is a finite map from paths to contents; the network
      is a script of replies consumed in order; the clock moves when the
      program sleeps. *)

From Stdlib Require Import ZArith List Ascii String Bool Lia.
From Stdlib Require Import Floats.SpecFloat Sorting.Sorted.
From stdpp Require Import gmap strings list fin_maps.
Import ListNotations.

#[local] Open Scope Z_scope.

Abbreviation text := (list ascii).

Definition dquote : ascii := "034"%char.
Definition backslash : ascii := "092"%char.
Definition newline : ascii := "010"%char.

(** A string literal as a sequence of code units. *)
Definition T (s : string) : text := list_ascii_of_string s.

(* ===================================================================== *)
(** * JavaScript string primitives used by the source *)
(* ===================================================================== *)

Module JS.

Definition code (c : ascii) : N := N_of_ascii c.

(** [WhiteSpace] and [LineTerminator] code units below 256: TAB, LF, VT,
    FF, CR, SP, NBSP.  This is the class of [String.prototype.trim] and
    of the regular-expression escape [\s]. *)
Definition is_space (c : ascii) : bool :=
  let n := code c in
  ((9 <=? n)%N && (n <=? 13)%N) || (n =? 32)%N || (n =? 160)%N.

Fixpoint trimStart (s : text) : text :=
  match s with
  | c :: r => if is_space c then trimStart r else s
  | [] => []
  end.

Definition trimEnd (s : text) : text := rev (trimStart (rev s)).

(** [s.trim()] *)
Definition trim (s : text) : text := trimEnd (trimStart s).

(** [s.replace(/\s*\]$/, '')]: the leftmost match of [\s*\]] anchored at
    the end of the input is the final "]" with the whole run of white
    space before it; without a final "]" there is no match. *)
Definition strip_closing_bracket (s : text) : text :=
  match rev s with
  | c :: r => if Ascii.eqb c "]" then rev (trimStart r) else s
  | [] => s
  end.

(** [s.endsWith(c)] for a one-character needle. *)
Definition endsWith (s : text) (c : ascii) : bool :=
  match rev s with
  | d :: _ => Ascii.eqb d c
  | [] => false
  end.

(** [parts.join(sep)] *)
Fixpoint join (sep : text) (parts : list text) : text :=
  match parts with
  | [] => []
  | [p] => p
  | p :: rest => p ++ sep ++ join sep rest
  end.

(** [s.includes(needle)] *)
Fixpoint is_prefix (p s : string) : bool :=
  match p, s with
  | EmptyString, _ => true
  | String a p', String b s' => Ascii.eqb a b && is_prefix p' s'
  | String _ _, EmptyString => false
  end.

Fixpoint includes (s needle : string) : bool :=
  is_prefix needle s ||
  match s with
  | EmptyString => false
  | String _ s' => includes s' needle
  end.

(** Decimal rendering of a non-negative integer, most significant digit
    first ([fuel] bounds the number of digits). *)
Definition digit_char (d : Z) : ascii := ascii_of_N (48 + Z.to_N d).

Fixpoint digits_fuel (fuel : nat) (n : Z) (acc : text) : text :=
  match fuel with
  | O => acc
  | S f =>
      if n <? 10 then digit_char n :: acc
      else digits_fuel f (n / 10) (digit_char (n mod 10) :: acc)
  end.

Definition digits (n : Z) : text :=
  digits_fuel (S (Z.to_nat (Z.log2 n))) n [].

(** [String(n)] for an integer [n] that JavaScript prints in plain
    decimal notation (magnitude below 10^21). *)
Definition dec (n : Z) : text :=
  if n <? 0 then "-"%char :: digits (- n) else digits n.

End JS.

(* ===================================================================== *)
(** * JSON: syntax trees, [JSON.stringify] and [JSON.parse] *)
(* ===================================================================== *)

Module Json.

(** The tree of a JSON text.  A number keeps its literal, and an object
    keeps its members in source order, duplicates included: equality of
    trees is finer than equality of the JavaScript values they denote. *)
Unset Elimination Schemes.
Inductive json :=
| JNull
| JBool (b : bool)
| JNum (lit : text)
| JStr (s : text)
| JArr (elems : list json)
| JObj (members : list (text * json)).
Set Elimination Schemes.

(** ** JSON.stringify(value, null, gap) *)

Definition hex_char (d : N) : ascii :=
  if (d <? 10)%N then ascii_of_N (48 + d) else ascii_of_N (87 + d).

(** QuoteJSONString, one code unit. *)
Definition escape_char (c : ascii) : text :=
  let n := JS.code c in
  if (n =? 34)%N then [backslash; dquote]
  else if (n =? 92)%N then [backslash; backslash]
  else if (n =? 8)%N then T "\b"
  else if (n =? 12)%N then T "\f"
  else if (n =? 10)%N then T "\n"
  else if (n =? 13)%N then T "\r"
  else if (n =? 9)%N then T "\t"
  else if (n <? 32)%N then T "\u00" ++ [hex_char (n / 16); hex_char (n mod 16)]
  else [c].

Definition quote (s : text) : text :=
  dquote :: flat_map escape_char s ++ [dquote].

Definition is_nil {A} (l : list A) : bool :=
  match l with [] => true | _ => false end.

(** SerializeJSONProperty with its [indent] and [gap] state. *)
Fixpoint stringify_at (gap indent : text) (v : json) : text :=
  let indent' := indent ++ gap in
  let wrap (o c : ascii) (partial : list text) : text :=
    if is_nil partial then [o; c]
    else if is_nil gap then o :: JS.join (T ",") partial ++ [c]
    else o :: newline :: indent' ++
         JS.join (","%char :: newline :: indent') partial ++
         newline :: indent ++ [c] in
  match v with
  | JNull => T "null"
  | JBool true => T "true"
  | JBool false => T "false"
  | JNum lit => lit
  | JStr s => quote s
  | JArr elems =>
      wrap "["%char "]"%char (map (stringify_at gap indent') elems)
  | JObj members =>
      wrap "{"%char "}"%char
        (map (fun kv =>
                quote (fst kv) ++ ":"%char ::
                (if is_nil gap then [] else [" "%char]) ++
                stringify_at gap indent' (snd kv)) members)
  end.

(** [JSON.stringify(v)] *)
Definition stringify (v : json) : text := stringify_at [] [] v.
(** [JSON.stringify(v, null, 2)] *)
Definition stringify2 (v : json) : text := stringify_at (T "  ") [] v.

(** ** JSON.parse

    The text is read one code unit at a time by a pushdown automaton:
    a lexer state (inside a string, a number or a keyword, or between
    tokens) and a parser state (what may come next, the container being
    filled and the enclosing ones). *)

Inductive token :=
| TLBracket | TRBracket | TLBrace | TRBrace | TComma | TColon
| TString (s : text) | TNumber (lit : text)
| TTrue | TFalse | TNull.

(** An enclosing container that waits for the value being read. *)
Inductive ctx :=
| CArr (acc : list json)
| CObj (acc : list (text * json)) (key : text).

(** Containers accumulate their content in reverse. *)
Inductive pstate :=
| PValue (up : list ctx)
| PArrOpen (up : list ctx)
| PArrAfter (acc : list json) (up : list ctx)
| PObjOpen (up : list ctx)
| PObjKey (acc : list (text * json)) (up : list ctx)
| PObjColon (acc : list (text * json)) (key : text) (up : list ctx)
| PObjAfter (acc : list (text * json)) (up : list ctx)
| PDone (v : json).

Definition plug (v : json) (up : list ctx) : pstate :=
  match up with
  | [] => PDone v
  | CArr acc :: up' => PArrAfter (v :: acc) up'
  | CObj acc k :: up' => PObjAfter ((k, v) :: acc) up'
  end.

Definition start_value (up : list ctx) (t : token) : option pstate :=
  match t with
  | TLBracket => Some (PArrOpen up)
  | TLBrace => Some (PObjOpen up)
  | TString s => Some (plug (JStr s) up)
  | TNumber lit => Some (plug (JNum lit) up)
  | TTrue => Some (plug (JBool true) up)
  | TFalse => Some (plug (JBool false) up)
  | TNull => Some (plug JNull up)
  | _ => None
  end.

Definition feed (p : pstate) (t : token) : option pstate :=
  match p with
  | PValue up => start_value up t
  | PArrOpen up =>
      match t with
      | TRBracket => Some (plug (JArr []) up)
      | _ => start_value (CArr [] :: up) t
      end
  | PArrAfter acc up =>
      match t with
      | TComma => Some (PValue (CArr acc :: up))
      | TRBracket => Some (plug (JArr (rev acc)) up)
      | _ => None
      end
  | PObjOpen up =>
      match t with
      | TRBrace => Some (plug (JObj []) up)
      | TString k => Some (PObjColon [] k up)
      | _ => None
      end
  | PObjKey acc up =>
      match t with
      | TString k => Some (PObjColon acc k up)
      | _ => None
      end
  | PObjColon acc k up =>
      match t with
      | TColon => Some (PValue (CObj acc k :: up))
      | _ => None
      end
  | PObjAfter acc up =>
      match t with
      | TComma => Some (PObjKey acc up)
      | TRBrace => Some (plug (JObj (rev acc)) up)
      | _ => None
      end
  | PDone _ => None
  end.

(** The number grammar as a DFA: an optional minus sign; a zero, or a
    non-zero digit and more digits; optionally a point and one or more
    digits; optionally e or E, an optional sign and one or more digits. *)
Inductive numstate :=
| NMinus | NZero | NInt | NDot | NFrac | NExp | NExpSign | NExpDigits.

Definition is_digit (c : ascii) : bool :=
  let n := JS.code c in (48 <=? n)%N && (n <=? 57)%N.

Definition is_e (c : ascii) : bool := Ascii.eqb c "e" || Ascii.eqb c "E".
Definition is_sign (c : ascii) : bool := Ascii.eqb c "+" || Ascii.eqb c "-".

Definition num_start (c : ascii) : option numstate :=
  if Ascii.eqb c "-" then Some NMinus
  else if Ascii.eqb c "0" then Some NZero
  else if is_digit c then Some NInt
  else None.

Definition num_next (ns : numstate) (c : ascii) : option numstate :=
  match ns with
  | NMinus =>
      if Ascii.eqb c "0" then Some NZero
      else if is_digit c then Some NInt else None
  | NZero =>
      if Ascii.eqb c "." then Some NDot
      else if is_e c then Some NExp else None
  | NInt =>
      if is_digit c then Some NInt
      else if Ascii.eqb c "." then Some NDot
      else if is_e c then Some NExp else None
  | NDot => if is_digit c then Some NFrac else None
  | NFrac =>
      if is_digit c then Some NFrac
      else if is_e c then Some NExp else None
  | NExp =>
      if is_sign c then Some NExpSign
      else if is_digit c then Some NExpDigits else None
  | NExpSign => if is_digit c then Some NExpDigits else None
  | NExpDigits => if is_digit c then Some NExpDigits else None
  end.

Definition num_final (ns : numstate) : bool :=
  match ns with
  | NZero | NInt | NFrac | NExpDigits => true
  | _ => false
  end.

Inductive strmode :=
| SNormal
| SEscape
| SHex (k : nat) (v : N).

Inductive keyword := KTrue | KFalse | KNull.

(** The letters of a keyword after its first one, and its token. *)
Definition kw_tail (k : keyword) : text :=
  match k with
  | KTrue => T "rue"
  | KFalse => T "alse"
  | KNull => T "ull"
  end.

Definition kw_token (k : keyword) : token :=
  match k with
  | KTrue => TTrue
  | KFalse => TFalse
  | KNull => TNull
  end.

(** [LKw k i]: inside keyword [k], the letter at index [i] of its tail
    comes next.  The accumulators of [LStr] and [LNum] are reversed. *)
Inductive lexstate :=
| LIdle
| LStr (acc : text) (m : strmode)
| LNum (ns : numstate) (acc : text)
| LKw (k : keyword) (i : nat).

Definition state : Type := lexstate * pstate.

(** JSON white space: TAB, LF, CR, SP. *)
Definition is_ws (c : ascii) : bool :=
  let n := JS.code c in
  (n =? 9)%N || (n =? 10)%N || (n =? 13)%N || (n =? 32)%N.

Definition punct (c : ascii) : option token :=
  if Ascii.eqb c "[" then Some TLBracket
  else if Ascii.eqb c "]" then Some TRBracket
  else if Ascii.eqb c "{" then Some TLBrace
  else if Ascii.eqb c "}" then Some TRBrace
  else if Ascii.eqb c "," then Some TComma
  else if Ascii.eqb c ":" then Some TColon
  else None.

Definition kw_start (c : ascii) : option keyword :=
  if Ascii.eqb c "t" then Some KTrue
  else if Ascii.eqb c "f" then Some KFalse
  else if Ascii.eqb c "n" then Some KNull
  else None.

Definition emit (p : pstate) (t : token) : option state :=
  match feed p t with
  | Some p' => Some (LIdle, p')
  | None => None
  end.

(** A code unit read between tokens. *)
Definition idle_step (p : pstate) (c : ascii) : option state :=
  if is_ws c then Some (LIdle, p)
  else match punct c with
  | Some t => emit p t
  | None =>
      if Ascii.eqb c dquote then Some (LStr [] SNormal, p)
      else match num_start c with
      | Some ns => Some (LNum ns [c], p)
      | None =>
          match kw_start c with
          | Some k => Some (LKw k 0, p)
          | None => None
          end
      end
  end.

Definition hex_val (c : ascii) : option N :=
  let n := JS.code c in
  if (48 <=? n)%N && (n <=? 57)%N then Some (n - 48)%N
  else if (97 <=? n)%N && (n <=? 102)%N then Some (n - 87)%N
  else if (65 <=? n)%N && (n <=? 70)%N then Some (n - 55)%N
  else None.

(** The code unit an escape letter stands for. *)
Definition unescape (c : ascii) : option ascii :=
  if Ascii.eqb c dquote then Some dquote
  else if Ascii.eqb c backslash then Some backslash
  else if Ascii.eqb c "/" then Some "/"%char
  else if Ascii.eqb c "b" then Some "008"%char
  else if Ascii.eqb c "f" then Some "012"%char
  else if Ascii.eqb c "n" then Some "010"%char
  else if Ascii.eqb c "r" then Some "013"%char
  else if Ascii.eqb c "t" then Some "009"%char
  else None.

(** A code unit read inside a string literal; [acc] is reversed.  An
    escape [\uXXXX] of a code unit above 255 is outside the modelled
    alphabet and is refused. *)
Definition string_step (acc : text) (m : strmode) (p : pstate) (c : ascii)
  : option state :=
  match m with
  | SNormal =>
      if Ascii.eqb c dquote then emit p (TString (rev acc))
      else if Ascii.eqb c backslash then Some (LStr acc SEscape, p)
      else if (JS.code c <? 32)%N then None
      else Some (LStr (c :: acc) SNormal, p)
  | SEscape =>
      if Ascii.eqb c "u" then Some (LStr acc (SHex 0 0%N), p)
      else match unescape c with
      | Some d => Some (LStr (d :: acc) SNormal, p)
      | None => None
      end
  | SHex k v =>
      match hex_val c with
      | Some d =>
          let v' := (16 * v + d)%N in
          if (k <? 3)%nat then Some (LStr acc (SHex (S k) v'), p)
          else if (v' <? 256)%N
               then Some (LStr (ascii_of_N v' :: acc) SNormal, p)
               else None
      | None => None
      end
  end.

(** The token that is pending when the text stops or a delimiter
    arrives: only a complete number can be. *)
Definition flush (st : state) : option pstate :=
  match st with
  | (LIdle, p) => Some p
  | (LNum ns acc, p) =>
      if num_final ns then feed p (TNumber (rev acc)) else None
  | _ => None
  end.

Definition step (st : state) (c : ascii) : option state :=
  match st with
  | (LIdle, p) => idle_step p c
  | (LStr acc m, p) => string_step acc m p c
  | (LNum ns acc, p) =>
      match num_next ns c with
      | Some ns' => Some (LNum ns' (c :: acc), p)
      | None =>
          match flush st with
          | Some p' => idle_step p' c
          | None => None
          end
      end
  | (LKw k i, p) =>
      match nth_error (kw_tail k) i with
      | Some x =>
          if Ascii.eqb c x then
            if (S i <? length (kw_tail k))%nat then Some (LKw k (S i), p)
            else emit p (kw_token k)
          else None
      | None => None
      end
  end.

Fixpoint run (s : text) (st : state) : option state :=
  match s with
  | [] => Some st
  | c :: r =>
      match step st c with
      | Some st' => run r st'
      | None => None
      end
  end.

Definition finish (st : state) : option json :=
  match flush st with
  | Some (PDone v) => Some v
  | _ => None
  end.

Definition init : state := (LIdle, PValue []).

(** ** Well-formed trees: every number literal follows the grammar *)

Fixpoint num_scan (ns : numstate) (r : text) : option numstate :=
  match r with
  | [] => Some ns
  | c :: r' =>
      match num_next ns c with
      | Some ns' => num_scan ns' r'
      | None => None
      end
  end.

Definition valid_number (lit : text) : bool :=
  match lit with
  | c :: r =>
      match num_start c with
      | Some ns =>
          match num_scan ns r with
          | Some ns' => num_final ns'
          | None => false
          end
      | None => false
      end
  | [] => false
  end.

Fixpoint wf (v : json) : bool :=
  match v with
  | JNum lit => valid_number lit
  | JArr elems => forallb wf elems
  | JObj members => forallb (fun kv => wf (snd kv)) members
  | _ => true
  end.

(** [JSON.parse(s)]; [None] stands for the [SyntaxError]. *)
Definition parse (s : text) : option json :=
  match run s init with
  | Some st => finish st
  | None => None
  end.

End Json.

(* ===================================================================== *)
(** * Numbers: binary64 values and their conversions *)
(* ===================================================================== *)

Module Num.

Definition prec : Z := 53.
Definition emax : Z := 1024.

Definition zero : spec_float := S754_zero false.
(** The literal [1e0]. *)
Definition one : spec_float := S754_finite false 4503599627370496 (-52).

(** Round to nearest, ties to even: [q] is the quotient rounded down,
    [r] what was cut off and [half] half a unit in the last place. *)
Definition round_even (q r half : Z) : Z :=
  if (half <? r) || ((r =? half) && Z.odd q) then q + 1 else q.

(** [Number(n)] for a BigInt [n]: the binary64 value nearest to [n],
    with a mantissa of 53 bits. *)
Definition of_BigInt (n : Z) : spec_float :=
  if n =? 0 then S754_zero false
  else
    let s := n <? 0 in
    let a := Z.abs n in
    let d := Z.log2 a + 1 in
    if d <=? 53 then
      S754_finite s (Z.to_pos (Z.shiftl a (53 - d))) (d - 53)
    else
      let sh := d - 53 in
      let q := round_even (Z.shiftr a sh) (a mod 2 ^ sh) (2 ^ (sh - 1)) in
      let m := if q =? 2 ^ 53 then 2 ^ 52 else q in
      let e := if q =? 2 ^ 53 then sh + 1 else sh in
      if emax - prec <? e then S754_infinity s
      else S754_finite s (Z.to_pos m) e.

(** [x / y] *)
Definition div (x y : spec_float) : spec_float := SFdiv prec emax x y.

(** [Math.abs(x)] *)
Definition abs (x : spec_float) : spec_float := SFabs x.

(** [x === y] on numbers. *)
Definition strict_eq (x y : spec_float) : bool := SFeqb x y.

(** The binary64 value nearest to [a / b], for [0 <= a] and [0 < b]. *)
Definition of_ratio (neg : bool) (a b : Z) : spec_float :=
  if a =? 0 then S754_zero neg
  else
    let '(q, e, l) := SFdiv_core_binary prec emax a 0 b 0 in
    binary_round_aux prec emax neg q e l.

(** The binary64 value nearest to [m * 10 ^ e], for [0 <= m]. *)
Definition of_decimal (neg : bool) (m e : Z) : spec_float :=
  if 0 <=? e then of_ratio neg (m * 10 ^ e) 1
  else of_ratio neg m (10 ^ (- e)).

(** A run of decimal digits: its value on top of [acc], its length and
    the rest of the text. *)
Fixpoint take_digits (s : text) (acc count : Z) : Z * Z * text :=
  match s with
  | c :: r =>
      if Json.is_digit c
      then take_digits r (10 * acc + (Z.of_N (JS.code c) - 48)) (count + 1)
      else (acc, count, s)
  | [] => (acc, count, s)
  end.

Definition take_sign (s : text) : bool * text :=
  match s with
  | c :: r =>
      if Ascii.eqb c "-" then (true, r)
      else if Ascii.eqb c "+" then (false, r)
      else (false, s)
  | [] => (false, s)
  end.

Fixpoint starts_with (p s : text) : bool :=
  match p, s with
  | [], _ => true
  | a :: p', b :: s' => Ascii.eqb a b && starts_with p' s'
  | _ :: _, [] => false
  end.

(** The exponent part [e] or [E], an optional sign and digits; it is
    read only when complete. *)
Definition take_exponent (s : text) : Z :=
  match s with
  | c :: r =>
      if Json.is_e c then
        let '(neg, r') := take_sign r in
        let '(v, n, _) := take_digits r' 0 0 in
        if n =? 0 then 0 else if neg then - v else v
      else 0
  | [] => 0
  end.

(** [parseFloat(s)]: leading white space is skipped and the longest
    prefix that is a decimal literal is read; [NaN] without one. *)
Definition parseFloat (s : text) : spec_float :=
  let '(neg, s1) := take_sign (JS.trimStart s) in
  if starts_with (T "Infinity") s1 then S754_infinity neg
  else
    let '(ip, ni, s2) := take_digits s1 0 0 in
    let '(m, nf, s3) :=
      match s2 with
      | c :: r => if Ascii.eqb c "." then take_digits r ip 0 else (ip, 0, s2)
      | [] => (ip, 0, s2)
      end in
    if ni + nf =? 0 then S754_nan
    else of_decimal neg m (take_exponent s3 - nf).

(** A finite value without fractional part. *)
Definition is_whole (x : spec_float) : bool :=
  match x with
  | S754_zero _ => true
  | S754_finite _ m e => (0 <=? e) || (Zpos m mod 2 ^ (- e) =? 0)
  | _ => false
  end.

(** The integer a whole value stands for. *)
Definition to_Z (x : spec_float) : Z :=
  match x with
  | S754_finite s m e =>
      let a := if 0 <=? e then Zpos m * 2 ^ e else Zpos m / 2 ^ (- e) in
      if s then - a else a
  | _ => 0
  end.

Definition is_zero (x : spec_float) : bool :=
  match x with S754_zero _ => true | _ => false end.

End Num.

(* ===================================================================== *)
(** * Prices *)
(* ===================================================================== *)

Module Price.

(** [sqrtPriceX96ToPrice] of [index.js].  [None] is the [RangeError] of
    a BigInt power with a negative exponent. *)
Definition sqrtPriceX96ToPrice (sqrtPriceX96 decimals0 decimals1 : Z)
  : option spec_float :=
  let sqrt := sqrtPriceX96 in
  let Q96 := 2 ^ 96 in
  if (decimals0 <? 0) || (decimals1 <? 0) then None
  else
    let ratio := Z.quot (sqrt * sqrt * 10 ^ decimals0)
                        (Q96 * Q96 * 10 ^ decimals1) in
    Some (Num.div (Num.of_BigInt ratio) Num.one).

(** [calculateExecutionPrice] of [fix2.js]; [None] is [null]. *)
Definition calculateExecutionPrice (amount0 amount1 : text)
    (decimals0 decimals1 : Z) : option spec_float :=
  let abs_amount0 := Num.abs (Num.parseFloat amount0) in
  let abs_amount1 := Num.abs (Num.parseFloat amount1) in
  if Num.strict_eq abs_amount0 Num.zero || Num.strict_eq abs_amount1 Num.zero
  then None
  else
    let executionPrice := Num.div abs_amount1 abs_amount0 in
    Some executionPrice.

End Price.
(* ===================================================================== *)
(** * The chain as the program sees it *)
(* ===================================================================== *)

Module Chain.

(** The arguments of a decoded [Swap] event. *)
Record SwapArgs := mkSwapArgs {
  sender : text;
  recipient : text;
  amount0 : Z;
  amount1 : Z;
  sqrtPriceX96 : Z;
  tick : Z
}.

(** A log as [getLogs] returns it, with what [parseLog] makes of it
    ([None]: no event of the ABI matches and [parseLog] returns null). *)
Record Log := mkLog {
  blockNumber : Z;
  transactionHash : text;
  parsed : option SwapArgs
}.

(** What an endpoint answers to one request. *)
Inductive ReplyBody :=
| Failure (msg : string)
| BlockNumber (n : Z)
| Logs (logs : list Log)
| Block (timestamp : option Z).

(** A reply and the time in milliseconds it took to arrive. *)
Record Reply := mkReply { elapsed : Z; body : ReplyBody }.

(** The environment of a run: the clock read by [Date.now()], the
    replies the network will give, in order, and the sleeps done so far,
    latest first. *)
Record World := mkWorld {
  clock : Z;
  network : list Reply;
  slept : list Z
}.

(** [await new Promise(res => setTimeout(res, ms))] *)
Definition sleep (ms : Z) (w : World) : World :=
  {| clock := clock w + ms; network := network w; slept := ms :: slept w |}.

(** One request; when the script is used up the network is dead. *)
Definition request (w : World) : ReplyBody * World :=
  match network w with
  | r :: rest =>
      (body r,
       {| clock := clock w + elapsed r; network := rest; slept := slept w |})
  | [] => (Failure "network unreachable", w)
  end.

(** [provider.getBlockNumber()] *)
Definition getBlockNumber (w : World) : (string + Z) * World :=
  match request w with
  | (BlockNumber n, w') => (inr n, w')
  | (Failure msg, w') => (inl msg, w')
  | (_, w') => (inl "malformed response"%string, w')
  end.

(** [provider.getLogs(filter)] *)
Definition getLogs (w : World) : (string + list Log) * World :=
  match request w with
  | (Logs logs, w') => (inr logs, w')
  | (Failure msg, w') => (inl msg, w')
  | (_, w') => (inl "malformed response"%string, w')
  end.

(** [provider.getBlock(n)]; the block may be null. *)
Definition getBlock (w : World) : (string + option Z) * World :=
  match request w with
  | (Block b, w') => (inr b, w')
  | (Failure msg, w') => (inl msg, w')
  | (_, w') => (inl "malformed response"%string, w')
  end.

End Chain.

(* ===================================================================== *)
(** * The endpoint selector ([RPCManager]) *)
(* ===================================================================== *)

Module Rpc.
Import Chain.

(** [provider] is the endpoint [this.provider] is bound to, [None] for
    null. *)
Record RPCManager := mkRPCManager {
  rpcUrls : list string;
  currentIndex : nat;
  failedRpcs : gset string;
  provider : option string;
  lastFailResetTime : Z;
  failResetInterval : Z
}.

(** [new RPCManager(rpcUrls)] at time [now]. *)
Definition create (urls : list string) (now : Z) : RPCManager :=
  {| rpcUrls := urls; currentIndex := 0; failedRpcs := ∅;
     provider := None; lastFailResetTime := now;
     failResetInterval := 10 * 60 * 1000 |}.

Definition ALL_FAILED : string := "All RPCs failed! Waiting before retry...".

(** [moveToNextRpc()].  With an empty list JavaScript computes NaN and
    never reads the index again. *)
Definition moveToNextRpc (m : RPCManager) : RPCManager :=
  {| rpcUrls := rpcUrls m;
     currentIndex := (currentIndex m + 1) mod length (rpcUrls m);
     failedRpcs := failedRpcs m; provider := provider m;
     lastFailResetTime := lastFailResetTime m;
     failResetInterval := failResetInterval m |}.

(** [this.failedRpcs.add(url)] *)
Definition markFailed (url : string) (m : RPCManager) : RPCManager :=
  {| rpcUrls := rpcUrls m; currentIndex := currentIndex m;
     failedRpcs := {[ url ]} ∪ failedRpcs m; provider := provider m;
     lastFailResetTime := lastFailResetTime m;
     failResetInterval := failResetInterval m |}.

(** [this.provider = new ethers.JsonRpcProvider(rpcUrl, this.network)],
    done only when the cached provider is bound elsewhere. *)
Definition connect (url : string) (m : RPCManager) : RPCManager :=
  {| rpcUrls := rpcUrls m; currentIndex := currentIndex m;
     failedRpcs := failedRpcs m; provider := Some url;
     lastFailResetTime := lastFailResetTime m;
     failResetInterval := failResetInterval m |}.

(** The periodic reset at the head of [getWorkingProvider]. *)
Definition resetFailed (now : Z) (m : RPCManager) : RPCManager :=
  if failResetInterval m <? now - lastFailResetTime m then
    {| rpcUrls := rpcUrls m; currentIndex := currentIndex m;
       failedRpcs := ∅; provider := provider m;
       lastFailResetTime := now;
       failResetInterval := failResetInterval m |}
  else m.

(** The [while] loop of [getWorkingProvider] with [k] iterations left.
    The result is the endpoint of the returned provider, or the message
    of the error thrown.  An index outside the list does not arise: the
    constructor starts at 0 and [moveToNextRpc] stays below the length. *)
Fixpoint probe_loop (k : nat) (m : RPCManager) (w : World)
  : (string + string) * RPCManager * World :=
  match k with
  | O => (inl ALL_FAILED, m, w)
  | S k' =>
      match rpcUrls m !! currentIndex m with
      | Some rpcUrl =>
          if bool_decide (rpcUrl ∈ failedRpcs m) then
            probe_loop k' (moveToNextRpc m) w
          else
            let m1 := connect rpcUrl m in
            match getBlockNumber w with
            | (inr _, w') => (inr rpcUrl, m1, w')
            | (inl _, w') =>
                probe_loop k' (moveToNextRpc (markFailed rpcUrl m1)) w'
            end
      | None => (inl "endpoint undefined"%string, m, w)
      end
  end.

(** [getWorkingProvider()] *)
Definition getWorkingProvider (m : RPCManager) (w : World)
  : (string + string) * RPCManager * World :=
  let m0 := resetFailed (clock w) m in
  probe_loop (length (rpcUrls m0)) m0 w.

(** How a call of [executeWithRetry] ends; [OutOfFuel] is a run longer
    than the fuel given to the model. *)
Inductive outcome (A : Type) :=
| Returned (v : A)
| ReturnedUndefined
| Threw (msg : string)
| OutOfFuel.
Arguments Returned {A} v.
Arguments ReturnedUndefined {A}.
Arguments Threw {A} msg.
Arguments OutOfFuel {A}.

Section ExecuteWithRetry.
Context {A : Type}.
(** The callback: it is given the endpoint of the provider and returns
    a value or throws an error with a message. *)
Variable operation : string -> World -> (string + A) * World.

(** The [try] block. *)
Definition attempt_once (m : RPCManager) (w : World)
  : (string + A) * RPCManager * World :=
  match getWorkingProvider m w with
  | (inr url, m', w') =>
      let '(r, w'') := operation url w' in (r, m', w'')
  | (inl err, m', w') => (inl err, m', w')
  end.

(** The statements of the [catch] block after the test on the last
    attempt: mark the endpoint of the cached provider, move on. *)
Definition giveUpOnCurrent (m : RPCManager) : RPCManager :=
  moveToNextRpc
    (match provider m with
     | Some url => markFailed url m
     | None => m
     end).

(** The [for] loop from [attempt] on, with [k] bounding the number of
    iterations; [restart] is the recursive call. *)
Fixpoint attempts
    (restart : RPCManager -> World -> outcome A * RPCManager * World)
    (maxRetries : nat) (k : nat) (attempt : nat)
    (m : RPCManager) (w : World) : outcome A * RPCManager * World :=
  match k with
  | O => (ReturnedUndefined, m, w)
  | S k' =>
      if (maxRetries <? attempt)%nat then (ReturnedUndefined, m, w)
      else
        match attempt_once m w with
        | (inr v, m', w') => (Returned v, m', w')
        | (inl err, m', w') =>
            if (attempt =? maxRetries)%nat then
              if JS.includes err "All RPCs failed"
              then restart m' (sleep 30000 w')
              else (Threw err, m', w')
            else
              attempts restart maxRetries k' (S attempt)
                (giveUpOnCurrent m')
                (sleep (2000 * Z.of_nat attempt) w')
        end
  end.

(** [executeWithRetry(operation, maxRetries)] *)
Fixpoint executeWithRetry (fuel : nat) (maxRetries : nat)
    (m : RPCManager) (w : World) : outcome A * RPCManager * World :=
  match fuel with
  | O => (OutOfFuel, m, w)
  | S fuel' =>
      attempts (executeWithRetry fuel' maxRetries)
               maxRetries maxRetries 1 m w
  end.

End ExecuteWithRetry.

End Rpc.
(* ===================================================================== *)
(** * The file system *)
(* ===================================================================== *)

(** A disk is a finite map from paths to file contents.  Each call of the
    [fs] module is one atomic step on it; [None] stands for the exception
    [ENOENT]. *)
Module Fs.

Definition existsSync (path : string) (disk : gmap string text) : bool :=
  match disk !! path with Some _ => true | None => false end.

Definition readFileSync (path : string) (disk : gmap string text)
  : option text := disk !! path.

Definition writeFileSync (path : string) (data : text)
    (disk : gmap string text) : gmap string text :=
  <[path := data]> disk.

Definition renameSync (oldPath newPath : string) (disk : gmap string text)
  : option (gmap string text) :=
  match disk !! oldPath with
  | Some data => Some (<[newPath := data]> (delete oldPath disk))
  | None => None
  end.

Definition unlinkSync (path : string) (disk : gmap string text)
  : option (gmap string text) :=
  match disk !! path with
  | Some _ => Some (delete path disk)
  | None => None
  end.

Definition copyFileSync (src dest : string) (disk : gmap string text)
  : option (gmap string text) :=
  match disk !! src with
  | Some data => Some (<[dest := data]> disk)
  | None => None
  end.

End Fs.

(* ===================================================================== *)
(** * The append protocol of the ingestor ([appendSwapsToFile]) *)
(* ===================================================================== *)

Module Append.
Import Json.

Definition OUTPUT_FILE : string := "uniswap_wbtc_usdc_swaps.json".
Definition tempFile : string := String.append OUTPUT_FILE ".temp".

Fixpoint text_eqb (a b : text) : bool :=
  match a, b with
  | [], [] => true
  | c :: a', d :: b' => Ascii.eqb c d && text_eqb a' b'
  | _, _ => false
  end.

(** [newSwaps.map(swap => '  ' + JSON.stringify(swap)).join(',\n')] *)
Definition rendered (newSwaps : list json) : text :=
  JS.join (","%char :: [newline])
          (map (fun swap => T "  " ++ stringify swap) newSwaps).

(** [newDataString], from [existingData] with its closing bracket
    already removed. *)
Definition newDataString (existingData : text) (newSwaps : list json) : text :=
  if JS.endsWith (JS.trim existingData) "["
  then rendered newSwaps
  else ","%char :: newline :: rendered newSwaps.

(** What the protocol writes to the temporary file when the output file
    holds [raw]. *)
Definition temp_contents (raw : text) (newSwaps : list json) : text :=
  let existingData := JS.strip_closing_bracket (JS.trim raw) in
  existingData ++ newDataString existingData newSwaps ++ [newline; "]"%char].

(** The body of the [try] block: [Some true] when it returns, [None]
    when it throws, with the disk as it is at that moment. *)
Definition append_try (newSwaps : list json) (disk : gmap string text)
  : option bool * gmap string text :=
  if negb (Fs.existsSync OUTPUT_FILE disk) then
    (Some true,
     Fs.writeFileSync OUTPUT_FILE (stringify2 (JArr newSwaps)) disk)
  else
    match Fs.readFileSync OUTPUT_FILE disk with
    | None => (None, disk)
    | Some raw =>
        let existingData := JS.trim raw in
        if is_nil existingData || text_eqb existingData (T "[]") then
          (Some true,
           Fs.writeFileSync OUTPUT_FILE (stringify2 (JArr newSwaps)) disk)
        else
          let disk1 :=
            Fs.writeFileSync tempFile (temp_contents raw newSwaps) disk in
          match Fs.readFileSync tempFile disk1 with
          | None => (None, disk1)
          | Some testData =>
              match parse testData with
              | None => (None, disk1)
              | Some _ =>
                  match Fs.renameSync tempFile OUTPUT_FILE disk1 with
                  | Some disk2 => (Some true, disk2)
                  | None => (None, disk1)
                  end
              end
          end
    end.

(** [appendSwapsToFile(newSwaps)]: the returned flag and the disk it
    leaves.  The [catch] block removes the temporary file if there is
    one and returns [false]. *)
Definition appendSwapsToFile (newSwaps : list json)
    (disk : gmap string text) : bool * gmap string text :=
  if is_nil newSwaps then (true, disk)
  else
    match append_try newSwaps disk with
    | (Some ok, disk') => (ok, disk')
    | (None, disk') =>
        (false,
         if Fs.existsSync tempFile disk'
         then match Fs.unlinkSync tempFile disk' with
              | Some disk'' => disk''
              | None => disk'
              end
         else disk')
    end.

(** The disks that a call passes through: the disk after each of its
    calls that change a file, in order. *)
Definition append_steps (newSwaps : list json) (disk : gmap string text)
  : list (gmap string text) :=
  if is_nil newSwaps then []
  else if negb (Fs.existsSync OUTPUT_FILE disk) then
    [ Fs.writeFileSync OUTPUT_FILE (stringify2 (JArr newSwaps)) disk ]
  else
    match Fs.readFileSync OUTPUT_FILE disk with
    | None => []
    | Some raw =>
        let existingData := JS.trim raw in
        if is_nil existingData || text_eqb existingData (T "[]") then
          [ Fs.writeFileSync OUTPUT_FILE (stringify2 (JArr newSwaps)) disk ]
        else
          let disk1 :=
            Fs.writeFileSync tempFile (temp_contents raw newSwaps) disk in
          disk1 ::
          match parse (temp_contents raw newSwaps) with
          | Some _ =>
              match Fs.renameSync tempFile OUTPUT_FILE disk1 with
              | Some disk2 => [ disk2 ]
              | None => []
              end
          | None =>
              match Fs.unlinkSync tempFile disk1 with
              | Some disk2 => [ disk2 ]
              | None => []
              end
          end
    end.

End Append.
(* ===================================================================== *)
(** * The ingestor ([main] of [index.js]) *)
(* ===================================================================== *)

Module Ingest.
Import Json Chain Rpc Append.

Definition PROGRESS_FILE : string := "uniswap_fetch_progress.json".

(** The constants of the CONFIG section. *)
Record Config := mkConfig {
  RPC_URL : list string;
  POOL_decimals0 : Z;
  POOL_decimals1 : Z;
  START_BLOCK : Z;
  END_BLOCK : Z;
  CHUNK_SIZE : Z
}.

(** The configuration of the source. *)
Definition source_config : Config :=
  {| RPC_URL := [ "https://mainnet.infura.io/v3/56556dffb0ac4198bc99d7459f7db0ba";
                  "https://ethereum-rpc.publicnode.com" ]%string;
     POOL_decimals0 := 8; POOL_decimals1 := 6;
     START_BLOCK := 20187849; END_BLOCK := 21525889;
     CHUNK_SIZE := 50000 |}.

(** What a run leaves on the console, as far as the properties below
    need it, with the calls of [saveProgress]. *)
Inductive Event :=
| Processing (fromBlock toBlock : Z)
| ParseError (blockNumber : Z)
| Appended (fromBlock toBlock : Z) (count : nat)
| AppendFailed (fromBlock toBlock : Z)
| FetchError (fromBlock toBlock : Z) (msg : string)
| SavedProgress (lastProcessedBlock totalSwaps : Z)
| Completed
| CleanedUp.

(** The state of a run; [events] has the latest event first. *)
Record State := mkState {
  disk : gmap string text;
  manager : RPCManager;
  world : World;
  events : list Event
}.

Definition log (e : Event) (st : State) : State :=
  {| disk := disk st; manager := manager st; world := world st;
     events := e :: events st |}.

Definition with_disk (d : gmap string text) (st : State) : State :=
  {| disk := d; manager := manager st; world := world st;
     events := events st |}.

Definition with_rpc (m : RPCManager) (w : World) (st : State) : State :=
  {| disk := disk st; manager := m; world := w; events := events st |}.

(** How [main] ends: it returns, an exception escapes it, or the model
    runs out of fuel. *)
Inductive Exit := Finished | Crashed (msg : string) | NoFuel.

(** The number of matches of the regular expression [},] in a text. *)
Fixpoint count_matches (s : text) : nat :=
  match s with
  | c :: r =>
      match r with
      | d :: _ =>
          if Ascii.eqb c "}" && Ascii.eqb d "," then S (count_matches r)
          else count_matches r
      | [] => 0%nat
      end
  | [] => 0%nat
  end.

(** [getExistingSwapCount()] *)
Definition getExistingSwapCount (d : gmap string text) : Z :=
  if Fs.existsSync OUTPUT_FILE d then
    match Fs.readFileSync OUTPUT_FILE d with
    | Some raw =>
        let data := JS.trim raw in
        if is_nil data || text_eqb data (T "[]") then 0
        else
          let matches := count_matches data in
          if (matches =? 0)%nat then 1 else Z.of_nat matches + 1
    | None => 0
    end
  else 0.

(** The member of an object that a property access reads: the last one
    with the key. *)
Fixpoint get_member (key : text) (members : list (text * json))
  : option json :=
  match members with
  | [] => None
  | (k, v) :: rest =>
      match get_member key rest with
      | Some v' => Some v'
      | None => if text_eqb k key then Some v else None
      end
  end.

(** JSON.stringify of a Number: null for NaN and the infinities, and
    plain decimal for a whole number up to 2^53.  (Above 2^53 JavaScript
    prints the shortest digits that read back as the same Number, padded
    with zeros, from 10^21 on with an exponent, and it prints a fraction
    by its shortest digits.  The numbers stored here are the whole prices
    of [sqrtPriceX96ToPrice]; the model prints the integer part in full,
    which above 2^53 is another literal of the same Number.  The results
    below use of this text only that it is a number literal.) *)
Definition json_of_number (x : spec_float) : json :=
  match x with
  | S754_nan | S754_infinity _ => JNull
  | _ => JNum (JS.dec (Num.to_Z x))
  end.

Section Main.
(** [ethers.formatUnits(value, decimals)] and
    [new Date(ms).toISOString()] belong to the libraries. *)
Variable formatUnits : Z -> Z -> text.
Variable toISOString : Z -> text.
Variable cfg : Config.

(** [loadProgress()]: the parsed checkpoint, or the default. *)
Definition loadProgress (d : gmap string text) : json :=
  let fresh :=
    JObj [ (T "lastProcessedBlock", JNum (JS.dec (START_BLOCK cfg - 1)));
           (T "totalSwaps", JNum (T "0")) ] in
  if Fs.existsSync PROGRESS_FILE d then
    match Fs.readFileSync PROGRESS_FILE d with
    | Some data =>
        match parse data with
        | Some progress => progress
        | None => fresh
        end
    | None => fresh
    end
  else fresh.

(** [saveProgress(lastProcessedBlock, totalSwaps)]; a failed write is
    only reported. *)
Definition saveProgress (lastProcessedBlock totalSwaps : Z) (st : State)
  : State :=
  let progress :=
    JObj [ (T "lastProcessedBlock", JNum (JS.dec lastProcessedBlock));
           (T "totalSwaps", JNum (JS.dec totalSwaps));
           (T "timestamp", JStr (toISOString (clock (world st))));
           (T "startBlock", JNum (JS.dec (START_BLOCK cfg)));
           (T "endBlock", JNum (JS.dec (END_BLOCK cfg))) ] in
  log (SavedProgress lastProcessedBlock totalSwaps)
    (with_disk
       (Fs.writeFileSync PROGRESS_FILE (stringify2 progress) (disk st)) st).

(** [progress.lastProcessedBlock] as the addition reads it: the
    property access throws on null; a missing member is undefined and
    gives NaN; null and booleans are converted to 0 and 1.  Only a
    whole number is a checkpoint: a fraction or an infinity, and the
    strings, arrays and objects that the addition would concatenate,
    are outside the model and count as NaN. *)
Inductive Checkpoint :=
| CheckpointThrows
| CheckpointNaN
| CheckpointAt (lastProcessedBlock : Z).

Definition checkpoint_of (progress : json) : Checkpoint :=
  match progress with
  | JNull => CheckpointThrows
  | JObj members =>
      match get_member (T "lastProcessedBlock") members with
      | Some (JNum lit) =>
          let x := Num.parseFloat lit in
          if Num.is_whole x then CheckpointAt (Num.to_Z x)
          else CheckpointNaN
      | Some JNull | Some (JBool false) => CheckpointAt 0
      | Some (JBool true) => CheckpointAt 1
      | _ => CheckpointNaN
      end
  | _ => CheckpointNaN
  end.

(** [Math.max(progress.lastProcessedBlock + 1, START_BLOCK)] *)
Definition startFromBlock (lastProcessedBlock : Z) : Z :=
  Z.max (lastProcessedBlock + 1) (START_BLOCK cfg).

(** The upper end of the chunk that starts at [fromBlock]. *)
Definition toBlockOf (fromBlock : Z) : Z :=
  Z.min (fromBlock + CHUNK_SIZE cfg - 1) (END_BLOCK cfg).

(** The chunks the header of the [for] loop runs through. *)
Fixpoint chunks (fuel : nat) (fromBlock : Z) : list (Z * Z) :=
  match fuel with
  | O => []
  | S fuel' =>
      if END_BLOCK cfg <? fromBlock then []
      else (fromBlock, toBlockOf fromBlock)
             :: chunks fuel' (fromBlock + CHUNK_SIZE cfg)
  end.

(** The callback that fetches the logs of a chunk. *)
Definition fetchLogs (_ : string) (w : World)
  : (string + list Log) * World := getLogs w.

(** The callback that turns a log into a swap record. *)
Definition decodeLog (l : Log) (_ : string) (w : World)
  : (string + json) * World :=
  let '(r, w') := getBlock w in
  match r with
  | inl msg => (inl msg, w')
  | inr block =>
      match parsed l with
      | None =>
          (inl "Cannot read properties of null (reading 'args')"%string, w')
      | Some args =>
          match Price.sqrtPriceX96ToPrice (sqrtPriceX96 args)
                  (POOL_decimals0 cfg) (POOL_decimals1 cfg) with
          | None =>
              (inl "Exponent must be non-negative"%string, w')
          | Some price =>
              match block with
              | None =>
                  (inl "Cannot read properties of null (reading 'timestamp')"%string,
                   w')
              | Some timestamp =>
                  (inr (JObj
                     [ (T "timestamp", JNum (JS.dec timestamp));
                       (T "datetime", JStr (toISOString (timestamp * 1000)));
                       (T "blockNumber", JNum (JS.dec (blockNumber l)));
                       (T "txHash", JStr (transactionHash l));
                       (T "sender", JStr (sender args));
                       (T "recipient", JStr (recipient args));
                       (T "amount0",
                        JStr (formatUnits (amount0 args) (POOL_decimals0 cfg)));
                       (T "amount1",
                        JStr (formatUnits (amount1 args) (POOL_decimals1 cfg)));
                       (T "price", json_of_number price);
                       (T "tick", JStr (JS.dec (tick args))) ]),
                   w')
              end
          end
      end
  end.

(** The loop over the logs of a chunk: the records decoded so far, in
    order; [None] when the model runs out of fuel. *)
Fixpoint decodeAll (fuel : nat) (logs : list Log) (chunkSwaps : list json)
    (st : State) : option (list json) * State :=
  match logs with
  | [] => (Some chunkSwaps, st)
  | l :: rest =>
      match executeWithRetry (decodeLog l) fuel 3 (manager st) (world st) with
      | (Returned swapData, m, w) =>
          decodeAll fuel rest (chunkSwaps ++ [swapData]) (with_rpc m w st)
      | (ReturnedUndefined, m, w) =>
          (* not reached: three attempts never fall out of the loop *)
          decodeAll fuel rest (chunkSwaps ++ [JNull]) (with_rpc m w st)
      | (Threw _, m, w) =>
          decodeAll fuel rest chunkSwaps
            (log (ParseError (blockNumber l)) (with_rpc m w st))
      | (OutOfFuel, m, w) => (None, with_rpc m w st)
      end
  end.

(** The [catch] block of the loop body. *)
Definition onFetchError (fromBlock : Z) (msg : string)
    (existingSwapCount totalNewSwaps : Z) (st : State) : State :=
  let st1 := log (FetchError fromBlock (toBlockOf fromBlock) msg) st in
  let st2 := saveProgress (fromBlock - 1)
               (existingSwapCount + totalNewSwaps) st1 in
  with_rpc (manager st2) (sleep 5000 (world st2)) st2.

(** The [for] loop of [main] from [fromBlock] on. *)
Fixpoint scan (fuel : nat) (existingSwapCount : Z) (fromBlock : Z)
    (totalNewSwaps : Z) (st : State) : Exit * State :=
  match fuel with
  | O => (NoFuel, st)
  | S fuel' =>
      if END_BLOCK cfg <? fromBlock then (Finished, st)
      else
        let toBlock := toBlockOf fromBlock in
        let st0 := log (Processing fromBlock toBlock) st in
        match executeWithRetry fetchLogs fuel' 3
                (manager st0) (world st0) with
        | (Returned logs, m, w) =>
            match decodeAll fuel' logs [] (with_rpc m w st0) with
            | (Some chunkSwaps, st1) =>
                match appendSwapsToFile chunkSwaps (disk st1) with
                | (true, d) =>
                    let total := totalNewSwaps
                                 + Z.of_nat (length chunkSwaps) in
                    let st2 := saveProgress toBlock
                                 (existingSwapCount + total)
                                 (with_disk d st1) in
                    let st3 := log (Appended fromBlock toBlock
                                      (length chunkSwaps)) st2 in
                    scan fuel' existingSwapCount
                      (fromBlock + CHUNK_SIZE cfg) total
                      (with_rpc (manager st3) (sleep 100 (world st3)) st3)
                | (false, d) =>
                    (Finished,
                     log (AppendFailed fromBlock toBlock) (with_disk d st1))
                end
            | (None, st1) => (NoFuel, st1)
            end
        | (ReturnedUndefined, m, w) =>
            scan fuel' existingSwapCount (fromBlock + CHUNK_SIZE cfg)
              totalNewSwaps
              (onFetchError fromBlock
                 "Cannot read properties of undefined (reading 'length')"
                 existingSwapCount totalNewSwaps (with_rpc m w st0))
        | (Threw msg, m, w) =>
            scan fuel' existingSwapCount (fromBlock + CHUNK_SIZE cfg)
              totalNewSwaps
              (onFetchError fromBlock msg existingSwapCount totalNewSwaps
                 (with_rpc m w st0))
        | (OutOfFuel, m, w) => (NoFuel, with_rpc m w st0)
        end
  end.

(** What follows the loop: the closing messages and the removal of the
    checkpoint file. *)
Definition cleanUp (st : State) : State :=
  let st1 := log Completed st in
  if Fs.existsSync PROGRESS_FILE (disk st1) then
    match Fs.unlinkSync PROGRESS_FILE (disk st1) with
    | Some d => log CleanedUp (with_disk d st1)
    | None => st1
    end
  else st1.

(** [main()] on a disk and a network. *)
Definition main (fuel : nat) (d : gmap string text) (w : World)
  : Exit * State :=
  let st := {| disk := d; manager := create (RPC_URL cfg) (clock w);
               world := w; events := [] |} in
  let progress := loadProgress d in
  let existingSwapCount := getExistingSwapCount d in
  match checkpoint_of progress with
  | CheckpointThrows =>
      (Crashed "Cannot read properties of null (reading 'lastProcessedBlock')",
       st)
  | CheckpointNaN => (Finished, cleanUp st)
  | CheckpointAt lastProcessedBlock =>
      match scan fuel existingSwapCount
              (startFromBlock lastProcessedBlock) 0 st with
      | (Finished, st') => (Finished, cleanUp st')
      | (e, st') => (e, st')
      end
  end.

End Main.

End Ingest.
(* ===================================================================== *)
(** * The one-pass ingestor (the first [main] of [index.js]) *)
(* ===================================================================== *)

(** The first program of [index.js] scans the range once, with one
    endpoint and without retries, keeps the records in memory and writes
    the output file at the end. *)
Module Simple.
Import Json Chain Append Ingest.

(** The constants of its CONFIG section. *)
Definition simple_config : Config :=
  {| RPC_URL := [ "https://ethereum-rpc.publicnode.com"%string ];
     POOL_decimals0 := 8; POOL_decimals1 := 6;
     START_BLOCK := 12376729; END_BLOCK := 12376729 + 10000;
     CHUNK_SIZE := 1000 |}.

Section Main.
Variable formatUnits : Z -> Z -> text.
Variable toISOString : Z -> text.
Variable cfg : Config.

(** The body of the inner [try]: the record of a log, built as in the
    resumable program; the provider is fixed and its endpoint plays no
    part. *)
Definition decode (l : Log) (w : World) : (string + json) * World :=
  decodeLog formatUnits toISOString cfg l EmptyString w.

(** The loop over the logs of a chunk: a log that cannot be decoded is
    reported and skipped. *)
Fixpoint decodeLogs (logs : list Log) (swaps : list json) (w : World)
  : list json * World :=
  match logs with
  | [] => (swaps, w)
  | l :: rest =>
      match decode l w with
      | (inr swap, w') => decodeLogs rest (swaps ++ [swap]) w'
      | (inl _, w') => decodeLogs rest swaps w'
      end
  end.

(** The [for] loop over the chunks from [fromBlock] on: the records and
    the number of logs so far.  A chunk whose logs cannot be fetched is
    reported and the loop goes on.  [None]: the model is out of fuel. *)
Fixpoint collect (fuel : nat) (fromBlock : Z) (swaps : list json)
    (totalLogs : Z) (w : World) : option (list json * Z * World) :=
  match fuel with
  | O => None
  | S fuel' =>
      if END_BLOCK cfg <? fromBlock then Some (swaps, totalLogs, w)
      else
        match getLogs w with
        | (inr logs, w1) =>
            let '(swaps', w2) := decodeLogs logs swaps w1 in
            collect fuel' (fromBlock + CHUNK_SIZE cfg) swaps'
              (totalLogs + Z.of_nat (length logs)) (sleep 100 w2)
        | (inl _, w1) =>
            collect fuel' (fromBlock + CHUNK_SIZE cfg) swaps totalLogs w1
        end
  end.

(** What a run leaves: the disk, the world, the records and the number
    of logs seen. *)
Record Outcome := mkOutcome {
  out_disk : gmap string text;
  out_world : World;
  out_swaps : list json;
  out_totalLogs : Z
}.

(** [main()] *)
Definition main (fuel : nat) (d : gmap string text) (w : World)
  : option Outcome :=
  match collect fuel (START_BLOCK cfg) [] 0 w with
  | Some (swaps, totalLogs, w') =>
      Some {| out_disk :=
                if (0 <? length swaps)%nat
                then Fs.writeFileSync OUTPUT_FILE
                       (stringify2 (JArr swaps)) d
                else d;
              out_world := w'; out_swaps := swaps;
              out_totalLogs := totalLogs |}
  | None => None
  end.

End Main.

End Simple.
(* ===================================================================== *)
(** * The correction pass ([fix2.js]) *)
(* ===================================================================== *)

Module Fix2.
Import Json Append.

Definition INPUT_FILE : string := "uniswap_wbtc_usdc_swaps.json".
Definition CORRECTED_FILE : string :=
  "uniswap_wbtc_usdc_swaps_corrected.json".

(** ** Values in memory

    What [JSON.parse] returns, as the program handles it: a number is a
    binary64 value, and an object has each key once, in the order in
    which its properties are enumerated. *)
Unset Elimination Schemes.
Inductive value :=
| VNull
| VBool (b : bool)
| VNum (x : spec_float)
| VStr (s : text)
| VArr (elems : list value)
| VObj (members : list (text * value)).
Set Elimination Schemes.

(** [o[k]] on own properties: [None] is undefined. *)
Fixpoint get_own {A} (k : text) (ms : list (text * A)) : option A :=
  match ms with
  | [] => None
  | (k', v) :: rest => if text_eqb k' k then Some v else get_own k rest
  end.

(** [o[k] = v]: a key that is there keeps its place, a new one goes
    last. *)
Fixpoint set_own {A} (k : text) (v : A) (ms : list (text * A))
  : list (text * A) :=
  match ms with
  | [] => [(k, v)]
  | (k', v') :: rest =>
      if text_eqb k' k then (k', v) :: rest
      else (k', v') :: set_own k v rest
  end.

(** [delete o[k]] *)
Definition delete_own {A} (k : text) (ms : list (text * A))
  : list (text * A) :=
  List.filter (fun kv => negb (text_eqb (fst kv) k)) ms.

(** An array index as a property key: the canonical decimal form of an
    integer from 0 to 2^32 - 2. *)
Definition array_index (k : text) : option Z :=
  match k with
  | [] => None
  | c :: r =>
      if forallb is_digit k && (negb (Ascii.eqb c "0") || is_nil r) then
        let '(n, _, _) := Num.take_digits k 0 0 in
        if n <=? 4294967294 then Some n else None
      else None
  end.

Fixpoint insert_index {A} (n : Z) (kv : text * A)
    (l : list (Z * (text * A))) : list (Z * (text * A)) :=
  match l with
  | [] => [(n, kv)]
  | (m, kv') :: rest =>
      if n <? m then (n, kv) :: l else (m, kv') :: insert_index n kv rest
  end.

(** OrdinaryOwnPropertyKeys: the array indices in ascending order, then
    the other keys in the order of their creation. *)
Definition enumerate {A} (ms : list (text * A)) : list (text * A) :=
  map snd
    (fold_right (fun kv acc =>
                   match array_index (fst kv) with
                   | Some n => insert_index n kv acc
                   | None => acc
                   end) [] ms)
  ++ List.filter (fun kv => match array_index (fst kv) with
                       | Some _ => false
                       | None => true
                       end) ms.

(** The members of an object literal of a JSON text, defined one after
    the other: of two members with the same key the later gives the
    value and the earlier the place. *)
Definition define_all {A} (ms : list (text * A)) : list (text * A) :=
  fold_left (fun o kv => set_own (fst kv) (snd kv) o) ms [].

(** The value of a JSON text.  The number of a literal is the binary64
    value nearest to it, as [parseFloat] reads it. *)
Fixpoint of_json (j : json) : value :=
  match j with
  | JNull => VNull
  | JBool b => VBool b
  | JNum lit => VNum (Num.parseFloat lit)
  | JStr s => VStr s
  | JArr elems => VArr (map of_json elems)
  | JObj members =>
      VObj (enumerate
              (define_all (map (fun kv => (fst kv, of_json (snd kv)))
                               members)))
  end.

Section Engine.
(** [Number.prototype.toString] of the engine: the shortest decimal form
    that reads back as the same number. *)
Variable number_text : spec_float -> text.

(** What [JSON.stringify] prints for a number. *)
Definition json_of_Number (x : spec_float) : json :=
  match x with
  | S754_nan | S754_infinity _ => JNull
  | _ => JNum (number_text x)
  end.

(** The tree that [JSON.stringify] prints for a value. *)
Fixpoint to_json (v : value) : json :=
  match v with
  | VNull => JNull
  | VBool b => JBool b
  | VNum x => json_of_Number x
  | VStr s => JStr s
  | VArr elems => JArr (map to_json elems)
  | VObj members => JObj (map (fun kv => (fst kv, to_json (snd kv))) members)
  end.

(** [String(v)].  An object of a JSON text has no method of its own: it
    is printed by [Object.prototype.toString], unless a member named
    toString hides that method, and then the conversion throws.  An
    array joins its elements with commas, null as the empty string. *)
Fixpoint to_text (v : value) : string + text :=
  match v with
  | VNull => inr (T "null")
  | VBool true => inr (T "true")
  | VBool false => inr (T "false")
  | VNum x => inr (number_text x)
  | VStr s => inr s
  | VArr elems =>
      let parts :=
        (fix join_all (l : list value) : string + list text :=
           match l with
           | [] => inr []
           | e :: rest =>
               match (match e with VNull => inr [] | _ => to_text e end) with
               | inl err => inl err
               | inr s =>
                   match join_all rest with
                   | inl err => inl err
                   | inr ss => inr (s :: ss)
                   end
               end
           end) elems in
      match parts with
      | inl err => inl err
      | inr ss => inr (JS.join (T ",") ss)
      end
  | VObj members =>
      match get_own (T "toString") members with
      | Some _ => inl "Cannot convert object to primitive value"%string
      | None => inr (T "[object Object]")
      end
  end.

(** [String(x)] for the value of a property access; [None] is
    undefined. *)
Definition text_of (x : option value) : string + text :=
  match x with
  | None => inr (T "undefined")
  | Some v => to_text v
  end.

(** [swap[k]] for a key that no prototype defines: undefined on an array
    and on a primitive, an exception on null. *)
Definition get (swap : value) (k : text) : string + option value :=
  match swap with
  | VNull => inl "Cannot read properties of null"%string
  | VObj members => inr (get_own k members)
  | _ => inr None
  end.

(** [swap[k] = v] in a module, that is in strict mode, for a key that is
    not an index: an exception on a primitive; on an array the property
    is kept beside the elements, where [JSON.stringify] does not look. *)
Definition set (swap : value) (k : text) (v : value) : string + value :=
  match swap with
  | VObj members => inr (VObj (set_own k v members))
  | VArr elems => inr (VArr elems)
  | _ => inl "Cannot create property"%string
  end.

(** [delete swap[k]] on an object or an array, for such a key. *)
Definition delete (swap : value) (k : text) : value :=
  match swap with
  | VObj members => VObj (delete_own k members)
  | _ => swap
  end.

(** The body of the loop of [main] for one element of the array; the
    messages it prints convert [swap.blockNumber] and the amounts to
    strings, which can throw. *)
Definition updateSwap (swap : value) : string + value :=
  match get swap (T "amount0") with
  | inl err => inl err
  | inr amount0 =>
      match get swap (T "amount1") with
      | inl err => inl err
      | inr amount1 =>
          match text_of amount0 with
          | inl err => inl err
          | inr s0 =>
              match text_of amount1 with
              | inl err => inl err
              | inr s1 =>
                  match Price.calculateExecutionPrice s0 s1 8 6 with
                  | Some executionPrice =>
                      match set swap (T "executionPrice")
                              (VNum executionPrice) with
                      | inl err => inl err
                      | inr swap' => inr (delete swap' (T "price"))
                      end
                  | None =>
                      match set swap (T "executionPrice") VNull with
                      | inl err => inl err
                      | inr swap' =>
                          match get swap' (T "blockNumber") with
                          | inl err => inl err
                          | inr blockNumber =>
                              match text_of blockNumber with
                              | inl err => inl err
                              | inr _ => inr (delete swap' (T "price"))
                              end
                          end
                      end
                  end
              end
          end
      end
  end.

(** The loop over the array; it stops at the first exception. *)
Fixpoint updateAll (swaps : list value) : string + list value :=
  match swaps with
  | [] => inr []
  | swap :: rest =>
      match updateSwap swap with
      | inl err => inl err
      | inr swap' =>
          match updateAll rest with
          | inl err => inl err
          | inr rest' => inr (swap' :: rest')
          end
      end
  end.

(** [main()]: the disk it leaves.  Every exception is caught and
    reported, and what follows the write of the corrected file only
    prints.  A file that holds something else than an array: null
    throws at [swaps.length]; a boolean, a number and an object without
    a length have no element and are written back; the elements of a
    string are its characters, primitives each, and the string itself
    is what is written.  [None]: the file holds an object with a member
    named length, whose conversion to a number is outside the model. *)
Definition main (d : gmap string text) : option (gmap string text) :=
  match Fs.readFileSync INPUT_FILE d with
  | None => Some d
  | Some rawData =>
      match parse rawData with
      | None => Some d
      | Some j =>
          let write (v : value) :=
            Fs.writeFileSync CORRECTED_FILE (stringify2 (to_json v)) d in
          match of_json j with
          | VArr swaps =>
              match updateAll swaps with
              | inr swaps' => Some (write (VArr swaps'))
              | inl _ => Some d
              end
          | VNull => Some d
          | VStr s =>
              match updateAll (map (fun c => VStr [c]) s) with
              | inr _ => Some (write (VStr s))
              | inl _ => Some d
              end
          | VObj members =>
              match get_own (T "length") members with
              | None => Some (write (VObj members))
              | Some _ => None
              end
          | v => Some (write v)
          end
      end
  end.

End Engine.

(** ** The variant for raw amounts *)

Section FromRaw.
Context {A : Type}.
(** [BigInt(x)]: the integer, or the exception for an argument that does
    not denote one; and [Math.pow]. *)
Variable BigInt : A -> string + Z.
Variable Math_pow : spec_float -> spec_float -> spec_float.

(** [Math.abs(n)] for a BigInt [n]: the argument is converted by
    ToNumber, which throws a TypeError for a BigInt. *)
Definition Math_abs_BigInt (n : Z) : string + spec_float :=
  inl "Cannot convert a BigInt value to a number"%string.

(** [calculateExecutionPriceFromRaw]; [inl] is an exception.  The
    comparisons [=== 0n] of a number with a BigInt are false. *)
Definition calculateExecutionPriceFromRaw (rawAmount0 rawAmount1 : A)
    (decimals0 decimals1 : spec_float) : string + option spec_float :=
  match BigInt rawAmount0 with
  | inl err => inl err
  | inr n0 =>
      match Math_abs_BigInt n0 with
      | inl err => inl err
      | inr abs_raw0 =>
          match BigInt rawAmount1 with
          | inl err => inl err
          | inr n1 =>
              match Math_abs_BigInt n1 with
              | inl err => inl err
              | inr abs_raw1 =>
                  let ten := Num.of_BigInt 10 in
                  let normalized_amount0 :=
                    Num.div abs_raw0 (Math_pow ten decimals0) in
                  let normalized_amount1 :=
                    Num.div abs_raw1 (Math_pow ten decimals1) in
                  let executionPrice :=
                    Num.div normalized_amount1 normalized_amount0 in
                  inr (Some executionPrice)
              end
          end
      end
  end.

End FromRaw.

End Fix2.
(* ===================================================================== *)
(** * Facts about the string primitives *)
(* ===================================================================== *)

Module JSFacts.
Import JS.

(** The last code unit of a text, if any, is not white space. *)
Definition tight_end (s : text) : Prop :=
  forall a c, s = a ++ [c] -> is_space c = false.

(** The first code unit of a text, if any, is not white space. *)
Definition tight_start (s : text) : Prop :=
  match s with c :: _ => is_space c = false | [] => True end.

Lemma trimStart_split (s : text) :
  exists w, s = w ++ trimStart s /\ forallb is_space w = true.
Proof.
  induction s as [ | c s (w & Hs & Hw) ]; simpl.
  - by exists [].
  - destruct (is_space c) eqn:Hc.
    + exists (c :: w). simpl. rewrite Hc, Hw. by rewrite <- Hs.
    + by exists [].
Qed.

Lemma trimStart_tight (s : text) : tight_start (trimStart s).
Proof.
  induction s as [ | c s IH ]; simpl; [ done | ].
  destruct (is_space c) eqn:Hc; [ done | ]. simpl. done.
Qed.

Lemma trimStart_id (s : text) : tight_start s -> trimStart s = s.
Proof. destruct s as [ | c s ]; simpl; [ done | ]. by intros ->. Qed.

Lemma forallb_rev {A} (f : A -> bool) (l : list A) :
  forallb f (rev l) = forallb f l.
Proof.
  induction l as [ | x l IH ]; simpl; [ done | ].
  rewrite forallb_app, IH. simpl. rewrite andb_true_r. apply andb_comm.
Qed.

Lemma trimEnd_split (s : text) :
  exists w, s = trimEnd s ++ w /\ forallb is_space w = true.
Proof.
  unfold trimEnd. destruct (trimStart_split (rev s)) as (w & Hs & Hw).
  exists (rev w). split; [ | by rewrite forallb_rev ].
  rewrite <- rev_app_distr, <- Hs. symmetry. apply rev_involutive.
Qed.

Lemma tight_start_rev (s : text) : tight_start (rev s) -> tight_end s.
Proof.
  intros H a c ->. rewrite rev_app_distr in H. exact H.
Qed.

Lemma trimEnd_tight (s : text) : tight_end (trimEnd s).
Proof.
  apply tight_start_rev. unfold trimEnd. rewrite rev_involutive.
  apply trimStart_tight.
Qed.

Lemma trimEnd_id (s : text) : tight_end s -> trimEnd s = s.
Proof.
  intros H. unfold trimEnd. rewrite trimStart_id; [ apply rev_involutive | ].
  destruct (rev s) as [ | c r ] eqn:Hr; [ done | ]. simpl.
  apply (H (rev r) c). rewrite <- (rev_involutive s), Hr. done.
Qed.

(** Removing trailing white space keeps the first code unit. *)
Lemma trimEnd_tight_start (s : text) : tight_start s -> tight_start (trimEnd s).
Proof.
  intros H. destruct (trimEnd_split s) as (w & Hs & Hw).
  destruct (trimEnd s) as [ | c r ]; [ done | ].
  rewrite Hs in H. exact H.
Qed.

(** [s.trim()] with the white space it removed. *)
Lemma trim_split (s : text) :
  exists w1 w2,
    s = w1 ++ trim s ++ w2 /\
    forallb is_space w1 = true /\ forallb is_space w2 = true /\
    tight_start (trim s) /\ tight_end (trim s).
Proof.
  destruct (trimStart_split s) as (w1 & Hs & Hw1).
  destruct (trimEnd_split (trimStart s)) as (w2 & Hs2 & Hw2).
  exists w1, w2. unfold trim. rewrite <- Hs2.
  repeat split; try done.
  - apply trimEnd_tight_start, trimStart_tight.
  - apply trimEnd_tight.
Qed.

Lemma trim_id (s : text) : tight_start s -> tight_end s -> trim s = s.
Proof. intros H1 H2. unfold trim. rewrite (trimStart_id _ H1). by apply trimEnd_id. Qed.

(** [s.replace(/\s*\]$/, '')] on a text that ends with "]". *)
Lemma strip_closing_bracket_split (s : text) :
  exists w,
    s ++ ["]"%char] = strip_closing_bracket (s ++ ["]"%char]) ++ w ++ ["]"%char] /\
    forallb is_space w = true /\
    tight_end (strip_closing_bracket (s ++ ["]"%char])).
Proof.
  unfold strip_closing_bracket. rewrite rev_app_distr. simpl.
  destruct (trimEnd_split s) as (w & Hs & Hw). exists w.
  change (rev (trimStart (rev s))) with (trimEnd s).
  split; [ by rewrite app_assoc, <- Hs | ]. split; [ done | apply trimEnd_tight ].
Qed.

Lemma endsWith_snoc (s : text) (c d : ascii) :
  endsWith (s ++ [c]) d = Ascii.eqb c d.
Proof. unfold endsWith. by rewrite rev_app_distr. Qed.

Lemma endsWith_inv (s : text) (d : ascii) :
  endsWith s d = true -> exists a, s = a ++ [d].
Proof.
  unfold endsWith. destruct (rev s) as [ | c r ] eqn:Hr; [ done | ].
  intros ->%Ascii.eqb_eq. exists (rev r).
  rewrite <- (rev_involutive s), Hr. done.
Qed.

Lemma join_cons2 (sep x y : text) (l : list text) :
  join sep (x :: y :: l) = x ++ sep ++ join sep (y :: l).
Proof. reflexivity. Qed.

(** A common prefix of the joined parts moves into the separator. *)
Lemma join_prefix {A} (sep pre : text) (f : A -> text) (x : A) (l : list A) :
  join sep (map (fun y => pre ++ f y) (x :: l)) =
  pre ++ join (sep ++ pre) (map f (x :: l)).
Proof.
  revert x. induction l as [ | y l IH ]; intros x; [ done | ].
  specialize (IH y). cbn [map] in *.
  rewrite !join_cons2, IH. by rewrite <- !app_assoc.
Qed.

End JSFacts.
(* ===================================================================== *)
(** * Facts about the JSON automaton *)
(* ===================================================================== *)

Module JsonFacts.
Import Json.

(** Induction on JSON trees, through the elements and members. *)
Lemma json_ind (P : json -> Prop) :
  P JNull ->
  (forall b, P (JBool b)) ->
  (forall lit, P (JNum lit)) ->
  (forall s, P (JStr s)) ->
  (forall elems, Forall P elems -> P (JArr elems)) ->
  (forall members, Forall (fun kv => P (snd kv)) members -> P (JObj members)) ->
  forall v, P v.
Proof.
  intros Hnull Hbool Hnum Hstr Harr Hobj.
  fix IH 1. intros [ | b | lit | s | elems | members ].
  - exact Hnull.
  - apply Hbool.
  - apply Hnum.
  - apply Hstr.
  - apply Harr. induction elems as [ | v elems IHl ]; constructor; auto.
  - apply Hobj. induction members as [ | [k v] members IHl ]; constructor; auto.
Qed.

(** ** Code units *)

Lemma eqb_code (c d : ascii) : Ascii.eqb c d = (JS.code c =? JS.code d)%N.
Proof.
  unfold JS.code. destruct (Ascii.eqb_spec c d) as [-> | Hne].
  - symmetry. apply N.eqb_refl.
  - symmetry. apply N.eqb_neq. intros Heq. apply Hne.
    rewrite <- (ascii_N_embedding c), <- (ascii_N_embedding d). by rewrite Heq.
Qed.

Lemma ws_is_space (c : ascii) : is_ws c = true -> JS.is_space c = true.
Proof.
  unfold is_ws, JS.is_space. intros H.
  repeat (apply orb_prop in H as [H | H]); apply N.eqb_eq in H; rewrite H; reflexivity.
Qed.

(** ** Running the automaton *)

Lemma run_app (a b : text) (st : state) :
  run (a ++ b) st =
  match run a st with Some st' => run b st' | None => None end.
Proof.
  revert st. induction a as [ | c a IH ]; intros st; simpl; [ done | ].
  destruct (step st c); [ apply IH | done ].
Qed.

Lemma run_snoc (a : text) (c : ascii) (st : state) :
  run (a ++ [c]) st =
  match run a st with Some st' => step st' c | None => None end.
Proof.
  rewrite run_app. destruct (run a st) as [st' | ]; [ | done ].
  simpl. by destruct (step st' c).
Qed.

Lemma idle_ws (p : pstate) (c : ascii) :
  is_ws c = true -> idle_step p c = Some (LIdle, p).
Proof. intros H. unfold idle_step. by rewrite H. Qed.

Lemma run_ws (w : text) (p : pstate) :
  forallb is_ws w = true -> run w (LIdle, p) = Some (LIdle, p).
Proof.
  induction w as [ | c w IH ]; simpl; [ done | ].
  intros [Hc Hw]%andb_prop. rewrite (idle_ws _ _ Hc). auto.
Qed.

(** A delimiter ends a pending number: white space and punctuation. *)
Definition is_delim (c : ascii) : bool :=
  is_ws c || match punct c with Some _ => true | None => false end.

Lemma delim_not_num (ns : numstate) (c : ascii) :
  is_delim c = true -> num_next ns c = None.
Proof.
  destruct c as [[] [] [] [] [] [] [] []]; try discriminate;
    intros _; by destruct ns.
Qed.

Lemma step_delim (st : state) (p : pstate) (c : ascii) :
  flush st = Some p -> is_delim c = true -> step st c = idle_step p c.
Proof.
  destruct st as [[ | acc m | ns acc | k i ] q]; simpl; try discriminate.
  - by intros [= ->].
  - intros Hf Hc. rewrite (delim_not_num _ _ Hc). by rewrite Hf.
Qed.

Lemma run_ws_settled (w : text) (st : state) (p : pstate) :
  forallb is_ws w = true -> flush st = Some p ->
  exists st', run w st = Some st' /\ flush st' = Some p.
Proof.
  destruct w as [ | c w ]; simpl.
  - intros _ Hf. by exists st.
  - intros [Hc Hw]%andb_prop Hf.
    rewrite (step_delim _ _ _ Hf); [ | unfold is_delim; by rewrite Hc ].
    rewrite (idle_ws _ _ Hc), (run_ws _ _ Hw). by exists (LIdle, p).
Qed.

(** ** Tokens read back from their rendering *)

Lemma run_escape_char (c : ascii) (acc : text) (p : pstate) :
  run (escape_char c) (LStr acc SNormal, p) = Some (LStr (c :: acc) SNormal, p).
Proof. destruct c as [[] [] [] [] [] [] [] []]; reflexivity. Qed.

Lemma run_escaped (s acc : text) (p : pstate) :
  run (flat_map escape_char s ++ [dquote]) (LStr acc SNormal, p) =
  emit p (TString (rev acc ++ s)).
Proof.
  revert acc. induction s as [ | c s IH ]; intros acc.
  - rewrite app_nil_r. simpl. by destruct (emit p (TString (rev acc))).
  - simpl flat_map. rewrite <- app_assoc, run_app, run_escape_char, IH.
    simpl. by rewrite <- app_assoc.
Qed.

Lemma run_quote (s : text) (p : pstate) :
  run (quote s) (LIdle, p) = emit p (TString s).
Proof. unfold quote. simpl. apply (run_escaped s [] p). Qed.

Lemma num_start_idle (c : ascii) (ns : numstate) (p : pstate) :
  num_start c = Some ns -> idle_step p c = Some (LNum ns [c], p).
Proof.
  destruct c as [[] [] [] [] [] [] [] []]; intros H;
    first [ discriminate H | injection H as <-; reflexivity ].
Qed.

Lemma run_num_scan (r : text) (ns ns' : numstate) (acc : text) (p : pstate) :
  num_scan ns r = Some ns' ->
  run r (LNum ns acc, p) = Some (LNum ns' (rev r ++ acc), p).
Proof.
  revert ns acc. induction r as [ | c r IH ]; intros ns acc; simpl.
  - by intros [= ->].
  - destruct (num_next ns c) as [ns1 | ]; [ | done ].
    intros H. rewrite (IH _ _ H). by rewrite <- app_assoc.
Qed.

Lemma run_number (lit : text) (p : pstate) :
  valid_number lit = true ->
  exists st, run lit (LIdle, p) = Some st /\ flush st = feed p (TNumber lit).
Proof.
  destruct lit as [ | c r ]; [ done | ]. unfold valid_number.
  destruct (num_start c) as [ns | ] eqn:Hs; [ | done ].
  destruct (num_scan ns r) as [ns' | ] eqn:Hr; [ | done ].
  intros Hfin. exists (LNum ns' (rev r ++ [c]), p). split.
  - simpl. rewrite (num_start_idle _ _ _ Hs). by apply run_num_scan.
  - simpl. rewrite Hfin, rev_app_distr, rev_involutive. done.
Qed.

Lemma run_keyword (k : keyword) (c : ascii) (p : pstate) :
  kw_start c = Some k -> run (c :: kw_tail k) (LIdle, p) = emit p (kw_token k).
Proof.
  intros Hc.
  assert (Hi : idle_step p c = Some (LKw k 0, p)).
  { revert Hc. destruct c as [[] [] [] [] [] [] [] []]; intros H;
      first [ discriminate H | injection H as <-; reflexivity ]. }
  simpl run. rewrite Hi.
  destruct k; simpl; by destruct (emit p _).
Qed.

(** ** Values read back from [JSON.stringify] *)

(** The parser states in which a value may start, with the enclosing
    containers the value is delivered to. *)
Inductive accepts : pstate -> list ctx -> Prop :=
| accepts_value up : accepts (PValue up) up
| accepts_open up : accepts (PArrOpen up) (CArr [] :: up).

Lemma accepts_feed (p : pstate) (up : list ctx) (t : token) :
  accepts p up -> t <> TRBracket -> feed p t = start_value up t.
Proof. intros [] Ht; [ done | ]. by destruct t. Qed.

(** The run ends between tokens, or inside a complete number, with the
    parser in state [p] once that number is delivered. *)
Definition settles (r : option state) (p : pstate) : Prop :=
  exists st, r = Some st /\ flush st = Some p.

Lemma settles_idle (p : pstate) : settles (Some (LIdle, p)) p.
Proof. by exists (LIdle, p). Qed.

Lemma settles_app (a b : text) (st : state) (p q : pstate) :
  settles (run a st) p ->
  (forall st', flush st' = Some p -> settles (run b st') q) ->
  settles (run (a ++ b) st) q.
Proof. intros (st' & Ha & Hf) Hb. rewrite run_app, Ha. auto. Qed.

Lemma settles_delim (c : ascii) (b : text) (st : state) (p p' q : pstate) :
  flush st = Some p -> is_delim c = true ->
  idle_step p c = Some (LIdle, p') ->
  settles (run b (LIdle, p')) q ->
  settles (run (c :: b) st) q.
Proof. intros Hf Hc Hi Hb. simpl. by rewrite (step_delim _ _ _ Hf Hc), Hi. Qed.

Lemma settles_ws (w b : text) (st : state) (p q : pstate) :
  forallb is_ws w = true -> flush st = Some p ->
  (forall st', flush st' = Some p -> settles (run b st') q) ->
  settles (run (w ++ b) st) q.
Proof.
  intros Hw Hf Hb. destruct (run_ws_settled _ _ _ Hw Hf) as (st' & Hr & Hf').
  rewrite run_app, Hr. auto.
Qed.

Lemma idle_punct (c : ascii) (t : token) (p : pstate) :
  punct c = Some t -> idle_step p c = emit p t.
Proof.
  destruct c as [[] [] [] [] [] [] [] []]; intros H;
    first [ discriminate H | injection H as <-; reflexivity ].
Qed.

Lemma punct_delim (c : ascii) (t : token) : punct c = Some t -> is_delim c = true.
Proof. intros H. unfold is_delim. rewrite H. apply orb_true_r. Qed.

(** A punctuation mark read in a settled state. *)
Lemma settles_punct (c : ascii) (t : token) (b : text) (st : state)
    (p p' q : pstate) :
  flush st = Some p -> punct c = Some t -> feed p t = Some p' ->
  settles (run b (LIdle, p')) q ->
  settles (run (c :: b) st) q.
Proof.
  intros Hf Hc Hfeed Hb.
  apply (settles_delim c b st p p' q Hf (punct_delim _ _ Hc)); [ | done ].
  rewrite (idle_punct _ _ _ Hc). unfold emit. by rewrite Hfeed.
Qed.

Definition reads_back (v : json) : Prop :=
  forall gap indent p up,
    forallb is_ws gap = true -> forallb is_ws indent = true ->
    accepts p up ->
    settles (run (stringify_at gap indent v) (LIdle, p)) (plug v up).

(** The white space [JSON.stringify] puts before an item or a closing
    bracket at a given indentation. *)
Definition line_break (gap indent : text) : text :=
  if is_nil gap then [] else newline :: indent.

Lemma line_break_ws (gap indent : text) :
  forallb is_ws indent = true -> forallb is_ws (line_break gap indent) = true.
Proof. intros H. unfold line_break. by destruct gap. Qed.

Lemma stringify_arr (gap indent : text) (v : json) (l : list json) :
  stringify_at gap indent (JArr (v :: l)) =
  "["%char :: line_break gap (indent ++ gap) ++
    JS.join (","%char :: line_break gap (indent ++ gap))
      (map (stringify_at gap (indent ++ gap)) (v :: l)) ++
    line_break gap indent ++ ["]"%char].
Proof. destruct gap; reflexivity. Qed.

Definition member_text (gap indent : text) (kv : text * json) : text :=
  quote (fst kv) ++ ":"%char ::
  (if is_nil gap then [] else [" "%char]) ++ stringify_at gap indent (snd kv).

Lemma stringify_obj (gap indent : text) (kv : text * json)
    (l : list (text * json)) :
  stringify_at gap indent (JObj (kv :: l)) =
  "{"%char :: line_break gap (indent ++ gap) ++
    JS.join (","%char :: line_break gap (indent ++ gap))
      (map (member_text gap (indent ++ gap)) (kv :: l)) ++
    line_break gap indent ++ ["}"%char].
Proof. destruct gap; reflexivity. Qed.

Lemma run_join_elems (gap indent w : text) :
  forallb is_ws w = true ->
  forallb is_ws gap = true -> forallb is_ws indent = true ->
  forall (l : list json) (v : json) acc up p,
    Forall reads_back (v :: l) ->
    accepts p (CArr acc :: up) ->
    settles (run (JS.join (","%char :: w)
                    (map (stringify_at gap indent) (v :: l))) (LIdle, p))
            (PArrAfter (rev l ++ v :: acc) up).
Proof.
  intros Hw Hgap Hind. induction l as [ | v2 l IH ]; intros v acc up p Hall Hp.
  - apply Forall_inv in Hall.
    exact (Hall gap indent p (CArr acc :: up) Hgap Hind Hp).
  - pose proof (Forall_inv Hall) as Hv. apply Forall_inv_tail in Hall.
    change (map (stringify_at gap indent) (v :: v2 :: l))
      with (stringify_at gap indent v :: map (stringify_at gap indent) (v2 :: l)).
    change (JS.join ?sep (?x :: map ?f (v2 :: l)))
      with (x ++ sep ++ JS.join sep (map f (v2 :: l))).
    eapply settles_app;
      [ exact (Hv gap indent p (CArr acc :: up) Hgap Hind Hp) | ].
    intros st' Hf.
    change ((","%char :: w) ++ ?b) with (","%char :: (w ++ b)).
    apply (settles_punct ","%char TComma _ st' _
             (PValue (CArr (v :: acc) :: up)) _ Hf eq_refl eq_refl).
    rewrite run_app, (run_ws _ _ Hw).
    replace (rev (v2 :: l) ++ v :: acc) with (rev l ++ v2 :: v :: acc)
      by (simpl; by rewrite <- app_assoc).
    apply IH; [ done | constructor ].
Qed.

(** The parser states in which a member key may start. *)
Inductive keyable : pstate -> list (text * json) -> list ctx -> Prop :=
| keyable_open up : keyable (PObjOpen up) [] up
| keyable_key acc up : keyable (PObjKey acc up) acc up.

Lemma run_member (gap indent : text) (kv : text * json) acc up p :
  forallb is_ws gap = true -> forallb is_ws indent = true ->
  reads_back (snd kv) -> keyable p acc up ->
  settles (run (member_text gap indent kv) (LIdle, p))
          (PObjAfter (kv :: acc) up).
Proof.
  intros Hgap Hind Hv Hp. destruct kv as [k v]. unfold member_text.
  cbn [fst snd] in *. rewrite run_app, run_quote.
  replace (emit p (TString k)) with (Some (LIdle, PObjColon acc k up))
    by (by destruct Hp).
  cbv beta iota.
  apply (settles_punct ":"%char TColon _ (LIdle, PObjColon acc k up) _
           (PValue (CObj acc k :: up)) _ eq_refl eq_refl eq_refl).
  rewrite run_app, run_ws by (by destruct gap).
  apply (Hv gap indent _ (CObj acc k :: up) Hgap Hind). constructor.
Qed.

Lemma run_join_members (gap indent w : text) :
  forallb is_ws w = true ->
  forallb is_ws gap = true -> forallb is_ws indent = true ->
  forall (l : list (text * json)) (kv : text * json) acc up p,
    Forall (fun kv => reads_back (snd kv)) (kv :: l) ->
    keyable p acc up ->
    settles (run (JS.join (","%char :: w)
                    (map (member_text gap indent) (kv :: l))) (LIdle, p))
            (PObjAfter (rev l ++ kv :: acc) up).
Proof.
  intros Hw Hgap Hind. induction l as [ | kv2 l IH ]; intros kv acc up p Hall Hp.
  - apply Forall_inv in Hall. simpl. by apply run_member.
  - pose proof (Forall_inv Hall) as Hv. apply Forall_inv_tail in Hall.
    change (map (member_text gap indent) (kv :: kv2 :: l))
      with (member_text gap indent kv :: map (member_text gap indent) (kv2 :: l)).
    change (JS.join ?sep (?x :: map ?f (kv2 :: l)))
      with (x ++ sep ++ JS.join sep (map f (kv2 :: l))).
    eapply settles_app; [ by apply run_member | ].
    intros st' Hf.
    change ((","%char :: w) ++ ?b) with (","%char :: (w ++ b)).
    apply (settles_punct ","%char TComma _ st' _
             (PObjKey (kv :: acc) up) _ Hf eq_refl eq_refl).
    rewrite run_app, (run_ws _ _ Hw).
    replace (rev (kv2 :: l) ++ kv :: acc) with (rev l ++ kv2 :: kv :: acc)
      by (simpl; by rewrite <- app_assoc).
    apply IH; [ done | constructor ].
Qed.

Lemma forallb_Forall_imp {A} (f : A -> bool) (P : A -> Prop) (l : list A) :
  Forall (fun x => f x = true -> P x) l -> forallb f l = true -> Forall P l.
Proof.
  induction 1 as [ | x l Hx _ IH ]; simpl; [ constructor | ].
  intros [Hfx Hl]%andb_prop. constructor; auto.
Qed.

(** Every well-formed tree is read back from its rendering, at any
    indentation and inside any enclosing containers. *)
Lemma wf_reads_back (v : json) : wf v = true -> reads_back v.
Proof.
  induction v as [ | b | lit | s | elems IH | members IH ] using json_ind;
    intros Hwf gap indent p up Hgap Hind Hp.
  - change (stringify_at gap indent JNull) with ("n"%char :: kw_tail KNull).
    rewrite (run_keyword KNull) by done. unfold emit.
    rewrite (accepts_feed _ _ _ Hp) by done. apply settles_idle.
  - destruct b.
    + change (stringify_at gap indent (JBool true))
        with ("t"%char :: kw_tail KTrue).
      rewrite (run_keyword KTrue) by done. unfold emit.
      rewrite (accepts_feed _ _ _ Hp) by done. apply settles_idle.
    + change (stringify_at gap indent (JBool false))
        with ("f"%char :: kw_tail KFalse).
      rewrite (run_keyword KFalse) by done. unfold emit.
      rewrite (accepts_feed _ _ _ Hp) by done. apply settles_idle.
  - simpl stringify_at. destruct (run_number lit p Hwf) as (st & Hr & Hf).
    exists st. split; [ done | ]. rewrite Hf.
    by rewrite (accepts_feed _ _ _ Hp).
  - simpl stringify_at. rewrite run_quote. unfold emit.
    rewrite (accepts_feed _ _ (TString s) Hp) by done. apply settles_idle.
  - simpl in Hwf. pose proof (forallb_Forall_imp _ _ _ IH Hwf) as Hall.
    assert (Hopen : feed p TLBracket = Some (PArrOpen up))
      by (by rewrite (accepts_feed _ _ TLBracket Hp)).
    destruct elems as [ | v l ].
    + change (stringify_at gap indent (JArr []))
        with ["["%char; "]"%char].
      apply (settles_punct "["%char TLBracket _ (LIdle, p) p (PArrOpen up) _
               eq_refl eq_refl Hopen).
      apply (settles_punct "]"%char TRBracket _ (LIdle, PArrOpen up) _
               (plug (JArr []) up) _ eq_refl eq_refl eq_refl).
      apply settles_idle.
    + rewrite stringify_arr.
      apply (settles_punct "["%char TLBracket _ (LIdle, p) p (PArrOpen up) _
               eq_refl eq_refl Hopen).
      assert (Hind' : forallb is_ws (indent ++ gap) = true)
        by (rewrite forallb_app; by rewrite Hind, Hgap).
      rewrite run_app, run_ws by (by apply line_break_ws).
      eapply settles_app.
      * apply (run_join_elems gap (indent ++ gap) _
                 (line_break_ws gap _ Hind') Hgap Hind' l v [] up);
          [ done | constructor ].
      * intros st' Hf. eapply settles_ws;
          [ by apply line_break_ws | exact Hf | ].
        intros st'' Hf'.
        apply (settles_punct "]"%char TRBracket _ st'' _
                 (plug (JArr (v :: l)) up) _ Hf' eq_refl);
          [ | apply settles_idle ].
        simpl. by rewrite rev_app_distr, rev_involutive.
  - simpl in Hwf. pose proof (forallb_Forall_imp _ _ _ IH Hwf) as Hall.
    assert (Hopen : feed p TLBrace = Some (PObjOpen up))
      by (by rewrite (accepts_feed _ _ TLBrace Hp)).
    destruct members as [ | kv l ].
    + change (stringify_at gap indent (JObj []))
        with ["{"%char; "}"%char].
      apply (settles_punct "{"%char TLBrace _ (LIdle, p) p (PObjOpen up) _
               eq_refl eq_refl Hopen).
      apply (settles_punct "}"%char TRBrace _ (LIdle, PObjOpen up) _
               (plug (JObj []) up) _ eq_refl eq_refl eq_refl).
      apply settles_idle.
    + rewrite stringify_obj.
      apply (settles_punct "{"%char TLBrace _ (LIdle, p) p (PObjOpen up) _
               eq_refl eq_refl Hopen).
      assert (Hind' : forallb is_ws (indent ++ gap) = true)
        by (rewrite forallb_app; by rewrite Hind, Hgap).
      rewrite run_app, run_ws by (by apply line_break_ws).
      eapply settles_app.
      * apply (run_join_members gap (indent ++ gap) _
                 (line_break_ws gap _ Hind') Hgap Hind' l kv [] up);
          [ done | constructor ].
      * intros st' Hf. eapply settles_ws;
          [ by apply line_break_ws | exact Hf | ].
        intros st'' Hf'.
        apply (settles_punct "}"%char TRBrace _ st'' _
                 (plug (JObj (kv :: l)) up) _ Hf' eq_refl);
          [ | apply settles_idle ].
        simpl. by rewrite rev_app_distr, rev_involutive.
Qed.

(** [JSON.parse(JSON.stringify(v, null, gap))] is [v]. *)
Lemma parse_stringify_at (gap : text) (v : json) :
  forallb is_ws gap = true -> wf v = true ->
  parse (stringify_at gap [] v) = Some v.
Proof.
  intros Hgap Hwf.
  destruct (wf_reads_back v Hwf gap [] (PValue []) [] Hgap eq_refl
              (accepts_value [])) as (st & Hr & Hf).
  unfold parse, init. rewrite Hr. unfold finish. by rewrite Hf.
Qed.

End JsonFacts.
(* ===================================================================== *)
(** * What a successful parse says about the text *)
(* ===================================================================== *)

Module JsonInv.
Import Json JsonFacts JSFacts.

Definition in_string (st : state) : Prop :=
  match fst st with LStr _ _ => True | _ => False end.

Lemma step_in_string (st st' : state) (c : ascii) :
  in_string st -> c <> dquote -> step st c = Some st' -> in_string st'.
Proof.
  destruct st as [[ | acc m | ns acc | k i ] p]; try done.
  intros _ Hc%Ascii.eqb_neq. simpl. unfold string_step.
  destruct m as [ | | n v ].
  - rewrite Hc. destruct (Ascii.eqb c backslash); [ by intros [= <-] | ].
    destruct (JS.code c <? 32)%N; [ done | by intros [= <-] ].
  - destruct (Ascii.eqb c "u"); [ by intros [= <-] | ].
    destruct (unescape c); [ by intros [= <-] | done ].
  - destruct (hex_val c); [ | done ].
    destruct (n <? 3)%nat; [ by intros [= <-] | ].
    destruct (_ <? 256)%N; [ by intros [= <-] | done ].
Qed.

Lemma run_in_string (s : text) (st st' : state) :
  in_string st -> Forall (fun c => c <> dquote) s ->
  run s st = Some st' -> in_string st'.
Proof.
  revert st. induction s as [ | c s IH ]; intros st Hst Hs; simpl.
  - by intros [= <-].
  - destruct (step st c) as [st1 | ] eqn:H1; [ | done ].
    apply IH; [ | by apply Forall_inv_tail in Hs ].
    apply (step_in_string st st1 c Hst); [ by apply Forall_inv in Hs | done ].
Qed.

Lemma flush_in_string (st : state) : in_string st -> flush st = None.
Proof. by destruct st as [[ | acc m | ns acc | k i ] p]. Qed.

(** White space of either kind and punctuation: no token runs across. *)
Definition is_break (c : ascii) : bool := JS.is_space c || is_delim c.

Lemma break_not_dquote (c : ascii) : is_break c = true -> c <> dquote.
Proof. by intros H ->. Qed.

Lemma spaces_not_dquote (w : text) :
  forallb JS.is_space w = true -> Forall (fun c => c <> dquote) w.
Proof.
  induction w as [ | c w IH ]; simpl; [ constructor | ].
  intros [Hc Hw]%andb_prop. constructor; [ | auto ].
  apply break_not_dquote. unfold is_break. by rewrite Hc.
Qed.

Lemma break_not_num (ns : numstate) (c : ascii) :
  is_break c = true -> num_next ns c = None.
Proof.
  destruct c as [[] [] [] [] [] [] [] []]; try discriminate;
    intros _; by destruct ns.
Qed.

Lemma break_not_kw (k : keyword) (i : nat) (x : ascii) :
  nth_error (kw_tail k) i = Some x -> is_break x = false.
Proof.
  destruct k; do 5 (try destruct i as [ | i ]); simpl;
    intros H; first [ discriminate H | by injection H as <- ].
Qed.

Lemma step_break_inv (st st' : state) (c : ascii) :
  ~ in_string st -> is_break c = true -> step st c = Some st' ->
  exists p, flush st = Some p /\ idle_step p c = Some st'.
Proof.
  destruct st as [[ | acc m | ns acc | k i ] p]; intros Hst Hc.
  - intros H. by exists p.
  - by destruct Hst.
  - simpl. rewrite (break_not_num _ _ Hc).
    destruct (if num_final ns then _ else _) as [p' | ]; [ | done ].
    intros H. by exists p'.
  - simpl. destruct (nth_error (kw_tail k) i) as [x | ] eqn:Hx; [ | done ].
    destruct (Ascii.eqb_spec c x) as [-> | ]; [ | done ].
    by rewrite (break_not_kw _ _ _ Hx) in Hc.
Qed.

Lemma idle_space (p : pstate) (c : ascii) (st' : state) :
  JS.is_space c = true -> idle_step p c = Some st' -> st' = (LIdle, p).
Proof.
  destruct c as [[] [] [] [] [] [] [] []]; intros Hs H;
    try discriminate Hs; try discriminate H; by injection H as <-.
Qed.

Lemma run_spaces_idle (w : text) (p : pstate) (st' : state) :
  forallb JS.is_space w = true -> run w (LIdle, p) = Some st' ->
  st' = (LIdle, p).
Proof.
  induction w as [ | c w IH ]; simpl.
  - by intros _ [= <-].
  - intros [Hc Hw]%andb_prop.
    destruct (idle_step p c) as [st1 | ] eqn:H1; [ | done ].
    rewrite (idle_space _ _ _ Hc H1). auto.
Qed.

Lemma run_spaces_flush (w : text) (st st' : state) (q : pstate) :
  forallb JS.is_space w = true -> ~ in_string st ->
  run w st = Some st' -> flush st' = Some q -> flush st = Some q.
Proof.
  destruct w as [ | c w ]; simpl.
  - by intros _ _ [= <-].
  - intros [Hc Hw]%andb_prop Hst.
    destruct (step st c) as [st1 | ] eqn:H1; [ | done ].
    destruct (step_break_inv st st1 c Hst) as (p & Hf & Hi);
      [ unfold is_break; by rewrite Hc | done | ].
    rewrite (idle_space _ _ _ Hc Hi). intros Hr.
    rewrite (run_spaces_idle _ _ _ Hw Hr). simpl. by intros [= <-].
Qed.

(** ** Which token produced a parser state *)

Lemma feed_done_arr (p : pstate) (t : token) (xs : list json) :
  feed p t = Some (PDone (JArr xs)) ->
  t = TRBracket /\
  ((p = PArrOpen [] /\ xs = []) \/
   (exists acc, p = PArrAfter acc [] /\ xs = rev acc)).
Proof.
  destruct p as [ up | up | acc up | up | acc up | acc k up | acc up | v ];
    destruct t; simpl; try discriminate;
    destruct up as [ | [] up ]; simpl; intros [= <-]; eauto.
Qed.

Lemma feed_open (p : pstate) (t : token) (up : list ctx) :
  feed p t = Some (PArrOpen up) -> t = TLBracket.
Proof.
  destruct p as [ up0 | up0 | acc up0 | up0 | acc up0 | acc k up0 | acc up0 | v ];
    destruct t; simpl; try discriminate; try done;
    destruct up0 as [ | [] up0 ]; simpl; discriminate.
Qed.

Lemma feed_lbracket (p p' : pstate) :
  feed p TLBracket = Some p' -> exists up, p' = PArrOpen up.
Proof.
  destruct p as [ up | up | acc up | up | acc up | acc k up | acc up | v ];
    simpl; try discriminate; intros [= <-]; eauto.
Qed.

Lemma punct_inv (c : ascii) (t : token) :
  punct c = Some t ->
  (t = TRBracket -> c = "]"%char) /\ (t = TLBracket -> c = "["%char).
Proof.
  destruct c as [[] [] [] [] [] [] [] []]; intros H;
    first [ discriminate H | injection H as <-; by split ].
Qed.

Lemma idle_step_idle_inv (p q : pstate) (c : ascii) :
  idle_step p c = Some (LIdle, q) -> is_ws c = false ->
  exists t, punct c = Some t /\ feed p t = Some q.
Proof.
  unfold idle_step. intros H Hws. rewrite Hws in H.
  destruct (punct c) as [t | ].
  - exists t. split; [ done | ]. unfold emit in H.
    destruct (feed p t); [ by injection H as -> | done ].
  - destruct (Ascii.eqb c dquote); [ done | ].
    destruct (num_start c); [ done | ]. by destruct (kw_start c).
Qed.

(** A step that ends between tokens on a code unit that is not white
    space delivered a token: a punctuation mark read in a settled state,
    or the string or keyword that the code unit completes. *)
Lemma step_idle_inv (st : state) (c : ascii) (q : pstate) :
  step st c = Some (LIdle, q) -> is_ws c = false ->
  exists p t, feed p t = Some q /\
    ((flush st = Some p /\ punct c = Some t) \/
     (exists s, t = TString s) \/ (exists k, t = kw_token k)).
Proof.
  destruct st as [[ | acc m | ns acc | k i ] p]; simpl; intros H Hws.
  - destruct (idle_step_idle_inv _ _ _ H Hws) as (t & Hp & Hf).
    exists p, t. eauto.
  - unfold string_step in H. destruct m as [ | | n v ].
    + destruct (Ascii.eqb c dquote).
      * unfold emit in H. destruct (feed p _) as [q' | ] eqn:Hf; [ | done ].
        injection H as <-. exists p, (TString (rev acc)). eauto.
      * destruct (Ascii.eqb c backslash); [ done | ].
        by destruct (JS.code c <? 32)%N.
    + destruct (Ascii.eqb c "u"); [ done | ]. by destruct (unescape c).
    + destruct (hex_val c); [ | done ].
      destruct (n <? 3)%nat; [ done | ]. by destruct (_ <? 256)%N.
  - destruct (num_next ns c); [ done | ].
    destruct (if num_final ns then _ else _) as [p' | ] eqn:Hf; [ | done ].
    destruct (idle_step_idle_inv _ _ _ H Hws) as (t & Hp & Hfeed).
    exists p', t. eauto.
  - destruct (nth_error (kw_tail k) i); [ | done ].
    destruct (Ascii.eqb c a); [ | done ].
    destruct (S i <? length (kw_tail k))%nat; [ done | ].
    unfold emit in H. destruct (feed p _) as [q' | ] eqn:Hf; [ | done ].
    injection H as <-. exists p, (kw_token k). eauto.
Qed.

(** A step on a code unit that is not white space and that leaves the
    whole text parsed as an array: the code unit is the closing bracket
    of that array. *)
Lemma step_done_arr (st : state) (c : ascii) (xs : list json) :
  step st c = Some (LIdle, PDone (JArr xs)) -> is_ws c = false ->
  c = "]"%char /\
  exists p, flush st = Some p /\ feed p TRBracket = Some (PDone (JArr xs)).
Proof.
  intros H Hws.
  destruct (step_idle_inv _ _ _ H Hws) as (p & t & Hf & Hsrc).
  destruct (feed_done_arr _ _ _ Hf) as [-> _].
  destruct Hsrc as [[Hfl Hp] | [[s Hs] | [k Hk]]];
    [ | done | by destruct k ].
  split; [ by apply (punct_inv _ _ Hp) | eauto ].
Qed.

(** A step on a code unit that is not white space and that leaves an
    array just opened: the code unit is the opening bracket. *)
Lemma step_open (st : state) (c : ascii) (up : list ctx) :
  step st c = Some (LIdle, PArrOpen up) -> is_ws c = false -> c = "["%char.
Proof.
  intros H Hws.
  destruct (step_idle_inv _ _ _ H Hws) as (p & t & Hf & Hsrc).
  pose proof (feed_open _ _ _ Hf) as ->.
  destruct Hsrc as [[Hfl Hp] | [[s Hs] | [k Hk]]];
    [ | done | by destruct k ].
  by apply (punct_inv _ _ Hp).
Qed.

End JsonInv.
(* ===================================================================== *)
(** * Decimal renderings are number literals *)
(* ===================================================================== *)

Module DecFacts.
Import JS Json.

Lemma digit_char_code (d : Z) :
  0 <= d < 10 -> code (digit_char d) = (48 + Z.to_N d)%N.
Proof.
  intros Hd. unfold code, digit_char. apply N_ascii_embedding. lia.
Qed.

Lemma digit_char_digit (d : Z) : 0 <= d < 10 -> is_digit (digit_char d) = true.
Proof.
  intros Hd. unfold is_digit. rewrite digit_char_code by done.
  apply andb_true_intro. split; apply N.leb_le; lia.
Qed.

Lemma digit_char_zero (d : Z) :
  0 <= d < 10 -> Ascii.eqb (digit_char d) "0" = (d =? 0).
Proof.
  intros Hd. rewrite JsonFacts.eqb_code, digit_char_code by done.
  change (code "0") with 48%N.
  destruct (Z.eqb_spec d 0) as [-> | Hne]; [ done | ].
  apply N.eqb_neq. lia.
Qed.

Lemma digit_char_minus (d : Z) :
  0 <= d < 10 -> Ascii.eqb (digit_char d) "-" = false.
Proof.
  intros Hd. rewrite JsonFacts.eqb_code, digit_char_code by done.
  change (code "-") with 45%N. apply N.eqb_neq. lia.
Qed.

(** The digits of [n] in front of [acc]: a first digit, which is zero
    only when [n] is, and more digits. *)
Lemma digits_fuel_shape (fuel : nat) (n : Z) (acc : text) :
  0 <= n < 10 ^ Z.of_nat fuel -> (0 < fuel)%nat ->
  exists (d : Z) (ds : text),
    digits_fuel fuel n acc = digit_char d :: ds ++ acc /\
    0 <= d < 10 /\ (d = 0 -> n = 0 /\ ds = []) /\
    forallb is_digit ds = true.
Proof.
  revert n acc. induction fuel as [ | fuel IH ]; intros n acc Hn Hfuel;
    [ lia | ].
  simpl. destruct (Z.ltb_spec n 10) as [Hsmall | Hbig].
  - exists n, []. split; [ done | ]. split; [ lia | ]. split; [ | done ].
    by intros ->.
  - assert (Hpow : 10 ^ Z.of_nat (S fuel) = 10 * 10 ^ Z.of_nat fuel)
      by (rewrite Nat2Z.inj_succ, Z.pow_succ_r; lia).
    assert (Hfuel' : (0 < fuel)%nat).
    { destruct fuel; [ | lia ]. simpl in Hn. lia. }
    destruct (IH (n / 10) (digit_char (n mod 10) :: acc))
      as (d & ds & Heq & Hd & Hzero & Hds); [ | done | ].
    { split; [ apply Z.div_pos; lia | ].
      apply Z.div_lt_upper_bound; lia. }
    exists d, (ds ++ [digit_char (n mod 10)]).
    rewrite Heq, <- app_assoc.
    split; [ done | ]. split; [ done | ]. split.
    + intros Hd0. destruct (Hzero Hd0) as [Hdiv _].
      assert (1 <= n / 10) by (apply Z.div_le_lower_bound; lia).
      lia.
    + rewrite forallb_app, Hds. simpl.
      rewrite digit_char_digit; [ done | ]. apply Z.mod_pos_bound. lia.
Qed.

Lemma digits_shape (n : Z) :
  0 <= n ->
  exists (d : Z) (ds : text),
    digits n = digit_char d :: ds /\
    0 <= d < 10 /\ (d = 0 -> ds = []) /\ forallb is_digit ds = true.
Proof.
  intros Hn. unfold digits.
  destruct (digits_fuel_shape (S (Z.to_nat (Z.log2 n))) n [])
    as (d & ds & Heq & Hd & Hzero & Hds); [ | lia | ].
  - split; [ done | ].
    destruct (Z.eq_dec n 0) as [-> | Hnz]; [ done | ].
    pose proof (Z.log2_nonneg n) as Hlog.
    rewrite Nat2Z.inj_succ, Z2Nat.id by done.
    apply Z.lt_le_trans with (2 ^ Z.succ (Z.log2 n)).
    + apply Z.log2_spec. lia.
    + apply Z.pow_le_mono_l. lia.
  - exists d, ds. rewrite Heq, app_nil_r.
    split; [ done | ]. split; [ done | ]. split; [ | done ].
    intros Hd0. by destruct (Hzero Hd0).
Qed.

(** A run of digits keeps the automaton of the integer part where it is. *)
Lemma num_scan_digits (ds : text) :
  forallb is_digit ds = true -> num_scan NInt ds = Some NInt.
Proof.
  induction ds as [ | c ds IH ]; simpl; [ done | ].
  intros [Hc Hds]%andb_prop. rewrite Hc. auto.
Qed.

Lemma digits_scan (n : Z) :
  0 <= n ->
  match digits n with
  | c :: r =>
      exists ns', num_next NMinus c = Some ns' /\ num_start c = Some ns' /\
                  exists ns'', num_scan ns' r = Some ns'' /\
                               num_final ns'' = true
  | [] => False
  end.
Proof.
  intros Hn.
  destruct (digits_shape n Hn) as (d & ds & -> & Hd & Hzero & Hds).
  pose proof (digit_char_digit d Hd) as Hdig.
  pose proof (digit_char_zero d Hd) as Hz.
  pose proof (digit_char_minus d Hd) as Hminus.
  unfold num_next, num_start. rewrite Hminus, Hz, Hdig.
  destruct (Z.eqb_spec d 0) as [Hd0 | Hd0].
  - exists NZero. split; [ done | ]. split; [ done | ].
    rewrite (Hzero Hd0). by exists NZero.
  - exists NInt. split; [ done | ]. split; [ done | ].
    exists NInt. by rewrite num_scan_digits.
Qed.

(** [String(n)] for an integer is a JSON number. *)
Lemma dec_valid (n : Z) : valid_number (dec n) = true.
Proof.
  unfold dec. destruct (Z.ltb_spec n 0) as [Hneg | Hpos].
  - assert (H := digits_scan (- n) ltac:(lia)).
    destruct (digits (- n)) as [ | c r ]; [ done | ].
    destruct H as (ns' & Hnext & _ & ns'' & Hscan & Hfin).
    unfold valid_number. change (num_start "-") with (Some NMinus).
    cbn [num_scan]. by rewrite Hnext, Hscan.
  - assert (H := digits_scan n Hpos).
    destruct (digits n) as [ | c r ]; [ done | ].
    destruct H as (ns' & _ & Hstart & ns'' & Hscan & Hfin).
    unfold valid_number. by rewrite Hstart, Hscan.
Qed.

End DecFacts.
(* ===================================================================== *)
(** * The append protocol on a file that holds a JSON array *)
(* ===================================================================== *)

Module AppendFacts.
Import Json JsonFacts JSFacts JsonInv Append.

Lemma not_space_not_ws (c : ascii) : JS.is_space c = false -> is_ws c = false.
Proof.
  intros H. destruct (is_ws c) eqn:Hws; [ | done ].
  by rewrite (ws_is_space _ Hws) in H.
Qed.

Lemma snoc_cases {A} (l : list A) : l = [] \/ exists a c, l = a ++ [c].
Proof. induction l using rev_ind; eauto. Qed.

Lemma parse_settles (s : text) (v : json) :
  settles (run s init) (PDone v) -> parse s = Some v.
Proof. intros (st & Hr & Hf). unfold parse, finish. by rewrite Hr, Hf. Qed.

Lemma flush_done_arr (st : state) (xs : list json) :
  flush st = Some (PDone (JArr xs)) -> st = (LIdle, PDone (JArr xs)).
Proof.
  destruct st as [[ | acc m | ns acc | k i ] p]; simpl; try done.
  - by intros [= ->].
  - destruct (num_final ns); [ | done ].
    by intros [? _]%feed_done_arr.
Qed.

Lemma flush_open (st : state) (up : list ctx) :
  flush st = Some (PArrOpen up) -> st = (LIdle, PArrOpen up).
Proof.
  destruct st as [[ | acc m | ns acc | k i ] p]; simpl; try done.
  - by intros [= ->].
  - destruct (num_final ns); [ | done ]. by intros ?%feed_open.
Qed.

(** A text that parses to an array is, once trimmed, a body and the
    closing bracket; after the body the automaton is settled in a state
    that the bracket completes. *)
Lemma parsed_array_shape (raw : text) (xs : list json) :
  parse raw = Some (JArr xs) ->
  exists body st p,
    JS.trim raw = body ++ ["]"%char] /\ tight_start (JS.trim raw) /\
    run body init = Some st /\ flush st = Some p /\
    feed p TRBracket = Some (PDone (JArr xs)).
Proof.
  intros Hparse.
  destruct (trim_split raw) as (w1 & w2 & Hraw & Hw1 & Hw2 & Hts & Hte).
  unfold parse in Hparse.
  destruct (run raw init) as [stF | ] eqn:Hrun; [ | done ].
  rewrite Hraw, run_app in Hrun.
  destruct (run w1 init) as [st1 | ] eqn:H1; [ | done ].
  apply run_spaces_idle in H1; [ | done ]. subst st1.
  rewrite run_app in Hrun. fold init in Hrun.
  destruct (run (JS.trim raw) init) as [stE | ] eqn:HE; [ | done ].
  assert (Hfl : flush stF = Some (PDone (JArr xs))).
  { unfold finish in Hparse.
    destruct (flush stF) as [[] | ]; try done. by injection Hparse as ->. }
  assert (HnsE : ~ in_string stE).
  { intros Hin.
    pose proof (run_in_string _ _ _ Hin (spaces_not_dquote _ Hw2) Hrun) as Hin'.
    by rewrite (flush_in_string _ Hin') in Hfl. }
  pose proof (run_spaces_flush _ _ _ _ Hw2 HnsE Hrun Hfl) as HflE.
  apply flush_done_arr in HflE. subst stE.
  destruct (snoc_cases (JS.trim raw)) as [Hnil | (body & c & Hsnoc)].
  - rewrite Hnil in HE. done.
  - rewrite Hsnoc in HE. rewrite run_snoc in HE.
    destruct (run body init) as [st0 | ] eqn:Hbody; [ | done ].
    pose proof (not_space_not_ws _ (Hte body c Hsnoc)) as Hws.
    destruct (step_done_arr _ _ _ HE Hws) as (-> & p & Hf & Hfeed).
    exists body, st0, p. by rewrite <- Hsnoc.
Qed.

(** The state after the text from which the closing bracket and the
    white space before it were removed. *)
Lemma stripped_state (body : text) (st : state) (p : pstate) :
  run body init = Some st -> flush st = Some p ->
  exists st',
    run (JS.strip_closing_bracket (body ++ ["]"%char])) init = Some st' /\
    flush st' = Some p /\ ~ in_string st' /\
    tight_end (JS.strip_closing_bracket (body ++ ["]"%char])) /\
    exists w, body = JS.strip_closing_bracket (body ++ ["]"%char]) ++ w.
Proof.
  intros Hrun Hf.
  destruct (strip_closing_bracket_split body) as (w & Hsplit & Hw & Hte).
  set (S := JS.strip_closing_bracket (body ++ ["]"%char])) in *.
  rewrite app_assoc in Hsplit. apply app_inj_tail in Hsplit as [Hbody _].
  rewrite Hbody, run_app in Hrun.
  destruct (run S init) as [st' | ] eqn:HS; [ | done ].
  assert (Hns : ~ in_string st').
  { intros Hin.
    pose proof (run_in_string _ _ _ Hin (spaces_not_dquote _ Hw) Hrun) as Hin'.
    by rewrite (flush_in_string _ Hin') in Hf. }
  exists st'. repeat split; try done.
  - by apply (run_spaces_flush w st' st p).
  - by exists w.
Qed.

(** The new records, each on its line, and the closing bracket, read
    where an element of the array may start. *)
Lemma run_rendered (v : json) (l : list json) acc (p : pstate) :
  forallb wf (v :: l) = true -> accepts p [CArr acc] ->
  settles (run (rendered (v :: l) ++ [newline; "]"%char]) (LIdle, p))
          (PDone (JArr (rev acc ++ v :: l))).
Proof.
  intros Hwf Hp. unfold rendered.
  rewrite (join_prefix _ (T "  ") stringify v l).
  rewrite <- app_assoc, run_app, run_ws by done.
  apply (settles_app _ _ _ (PArrAfter (rev l ++ v :: acc) [])).
  - apply (run_join_elems [] [] (newline :: T "  ")
             eq_refl eq_refl eq_refl l v acc [] p);
      [ | done ].
    apply (forallb_Forall_imp wf); [ | done ].
    clear. induction (v :: l); constructor; auto using wf_reads_back.
  - intros st Hf.
    apply (settles_ws [newline] _ st _ _ eq_refl Hf). intros st' Hf'.
    apply (settles_punct "]"%char TRBracket _ st' _
             (PDone (JArr (rev acc ++ v :: l))) _ Hf' eq_refl);
      [ | apply settles_idle ].
    simpl. rewrite rev_app_distr, rev_involutive. simpl.
    by rewrite <- app_assoc.
Qed.

Lemma text_eqb_eq (a b : text) : text_eqb a b = true <-> a = b.
Proof.
  revert b. induction a as [ | c a IH ]; intros [ | d b ]; simpl; try done.
  rewrite andb_true_iff, Ascii.eqb_eq, IH. split; [ by intros [-> ->] | ].
  by intros [= -> ->].
Qed.

(** A file that parses to an array and trims to "[]" holds no record. *)
Lemma parsed_empty_array (raw : text) (xs : list json) :
  parse raw = Some (JArr xs) -> JS.trim raw = T "[]" -> xs = [].
Proof.
  intros Hparse Htrim.
  destruct (parsed_array_shape raw xs Hparse) as
    (body & st & p & Hshape & _ & Hrun & Hf & Hfeed).
  rewrite Htrim in Hshape.
  change (T "[]") with (["["%char] ++ ["]"%char]) in Hshape.
  apply app_inj_tail in Hshape as [<- _].
  injection Hrun as <-. injection Hf as <-. by injection Hfeed as <-.
Qed.

(** The text written to the temporary file parses to the prior elements
    followed by the new ones. *)
Lemma temp_contents_parse (raw : text) (xs news : list json) :
  parse raw = Some (JArr xs) ->
  news <> [] -> forallb wf news = true ->
  parse (temp_contents raw news) = Some (JArr (xs ++ news)).
Proof.
  intros Hparse Hne Hwf. destruct news as [ | v l ]; [ done | ].
  destruct (parsed_array_shape raw xs Hparse) as
    (body & st & p & Hshape & Hts & Hrun & Hf & Hfeed).
  destruct (stripped_state body st p Hrun Hf) as
    (st' & HS & Hf' & Hns & Hte & w & Hbody).
  unfold temp_contents. rewrite Hshape.
  set (S := JS.strip_closing_bracket (body ++ ["]"%char])) in *.
  assert (HtsS : tight_start S).
  { rewrite Hshape, Hbody in Hts. by destruct S. }
  unfold newDataString. rewrite (trim_id S HtsS Hte).
  apply parse_settles. rewrite run_app, HS.
  destruct (feed_done_arr _ _ _ Hfeed) as [_ [[-> ->] | (acc & -> & ->)]].
  - apply flush_open in Hf'. subst st'.
    assert (Hends : JS.endsWith S "[" = true).
    { destruct (snoc_cases S) as [Hnil | (a & c & Hsnoc)].
      - by rewrite Hnil in HS.
      - rewrite Hsnoc, run_snoc in HS.
        destruct (run a init) as [sta | ]; [ | done ].
        rewrite Hsnoc, endsWith_snoc.
        apply Ascii.eqb_eq, (step_open _ _ _ HS).
        apply not_space_not_ws, (Hte a c Hsnoc). }
    rewrite Hends. apply (run_rendered v l [] _ Hwf). constructor.
  - assert (Hends : JS.endsWith S "[" = false).
    { destruct (JS.endsWith S "[") eqn:He; [ | done ].
      destruct (endsWith_inv _ _ He) as (a & Ha).
      rewrite Ha, run_snoc in HS.
      destruct (run a init) as [sta | ] eqn:Hra; [ | done ].
      assert (Hnsa : ~ in_string sta).
      { intros Hin. apply Hns. by apply (step_in_string sta st' "["%char). }
      destruct (step_break_inv sta st' "["%char Hnsa eq_refl HS)
        as (pa & Hfa & Hi).
      rewrite (idle_punct _ TLBracket) in Hi by done. unfold emit in Hi.
      destruct (feed pa TLBracket) as [p1 | ] eqn:Hp1; [ | done ].
      injection Hi as <-. destruct (feed_lbracket _ _ Hp1) as (up & ->).
      done. }
    rewrite Hends.
    change ((","%char :: newline :: ?r) ++ ?b)
      with (","%char :: ([newline] ++ (r ++ b))).
    apply (settles_punct ","%char TComma _ st' _ (PValue [CArr acc]) _
             Hf' eq_refl eq_refl).
    rewrite run_app, run_ws by done.
    apply (run_rendered v l acc _ Hwf). constructor.
Qed.

End AppendFacts.
(* ===================================================================== *)
(** * Facts about numbers and prices *)
(* ===================================================================== *)

Module NumFacts.
Import Num.

Lemma digits2_size (p : positive) : digits2_pos p = Pos.size p.
Proof. induction p as [ p IH | p IH | ]; simpl; by rewrite ?IH. Qed.

Lemma digits2_log2 (p : positive) : Zpos (digits2_pos p) = Z.log2 (Zpos p) + 1.
Proof. rewrite digits2_size. destruct p; simpl; lia. Qed.

(** A mantissa of exactly 53 bits. *)
Lemma digits2_53 (m : Z) :
  2 ^ 52 <= m < 2 ^ 53 -> digits2_pos (Z.to_pos m) = 53%positive.
Proof.
  intros Hm. assert (0 < m) by lia.
  apply Pos2Z.inj. rewrite digits2_log2, Z2Pos.id by done.
  rewrite (Z.log2_unique m 52); [ done | lia | ].
  change (Z.succ 52) with 53. lia.
Qed.

Lemma div_eucl_div_mod (a b : Z) : Z.div_eucl a b = (a / b, a mod b).
Proof. unfold Z.div, Z.modulo. by destruct (Z.div_eucl a b). Qed.

(** Division by [1e0] returns a normal number unchanged. *)
Lemma div_one (s : bool) (m : positive) (e : Z) :
  digits2_pos m = 53%positive -> -1074 < e <= 971 ->
  div (S754_finite s m e) one = S754_finite s m e.
Proof.
  intros Hd He. unfold div, one, SFdiv, SFdiv_core_binary.
  change (Zdigits2 (Zpos 4503599627370496)) with 53.
  change (Zdigits2 (Zpos m)) with (Zpos (digits2_pos m)). rewrite Hd.
  replace (fexp prec emax (53 + e - (53 + -52))) with (e - 1)
    by (unfold fexp, emin, prec, emax; lia).
  replace (Z.min (e - 1) (e - -52)) with (e - 1) by lia.
  replace (e - -52 - (e - 1)) with 53 by lia.
  cbv iota. rewrite Z.shiftl_mul_pow2 by done.
  rewrite div_eucl_div_mod.
  replace (Zpos m * 2 ^ 53) with (Zpos m~0 * 4503599627370496) by lia.
  rewrite Z.div_mul, Z.mod_mul by done.
  change (new_location 4503599627370496 0) with loc_Exact.
  cbv beta iota. unfold binary_round_aux.
  assert (Hshift : shr_fexp prec emax (Zpos m~0) (e - 1) loc_Exact =
                   ({| shr_m := Zpos m; shr_r := false; shr_s := false |}, e)).
  { unfold shr_fexp.
    change (Zdigits2 (Zpos m~0)) with (Zpos (Pos.succ (digits2_pos m))).
    rewrite Hd.
    replace (fexp prec emax (Zpos (Pos.succ 53) + (e - 1)) - (e - 1)) with 1
      by (unfold fexp, emin, prec, emax; lia).
    simpl. f_equal. lia. }
  rewrite Hshift. cbn [shr_m loc_of_shr_record round_nearest_even].
  assert (Hkeep : shr_fexp prec emax (Zpos m) e loc_Exact =
                  ({| shr_m := Zpos m; shr_r := false; shr_s := false |}, e)).
  { unfold shr_fexp.
    change (Zdigits2 (Zpos m)) with (Zpos (digits2_pos m)). rewrite Hd.
    replace (fexp prec emax (53 + e) - e) with 0
      by (unfold fexp, emin, prec, emax; lia).
    reflexivity. }
  rewrite Hkeep. cbn [shr_m].
  replace (e <=? emax - prec) with true by (unfold emax, prec; lia).
  by destruct s.
Qed.

(** [Number(n)] is a normal binary64 value without fractional part, as
    long as [n] is not zero and below 2^1023 in magnitude. *)
Lemma of_BigInt_shape (n : Z) :
  n <> 0 -> Z.abs n < 2 ^ 1023 ->
  exists m e,
    of_BigInt n = S754_finite (n <? 0) m e /\
    digits2_pos m = 53%positive /\ -53 < e <= 971 /\
    is_whole (S754_finite (n <? 0) m e) = true.
Proof.
  intros Hn Hbound. unfold of_BigInt.
  destruct (Z.eqb_spec n 0) as [ | _ ]; [ done | ].
  set (a := Z.abs n) in *. assert (Ha : 0 < a) by lia.
  pose proof (Z.log2_nonneg a) as Hlog.
  assert (Hlog' : Z.log2 a < 1023) by (by apply Z.log2_lt_pow2).
  set (d := Z.log2 a + 1) in *.
  destruct (Z.leb_spec d 53) as [Hd | Hd].
  - exists (Z.to_pos (Z.shiftl a (53 - d))), (d - 53).
    assert (Hm : 2 ^ 52 <= Z.shiftl a (53 - d) < 2 ^ 53).
    { assert (Hl : Z.log2 (Z.shiftl a (53 - d)) = 52)
        by (rewrite Z.log2_shiftl by lia; lia).
      assert (Hpos : 0 < Z.shiftl a (53 - d))
        by (rewrite Z.shiftl_mul_pow2 by lia; apply Z.mul_pos_pos; lia).
      pose proof (Z.log2_spec _ Hpos) as Hspec. rewrite Hl in Hspec.
      exact Hspec. }
    repeat split; try lia; [ by apply digits2_53 | ].
    unfold is_whole. rewrite Z2Pos.id by lia.
    rewrite Z.shiftl_mul_pow2 by lia.
    replace (- (d - 53)) with (53 - d) by lia.
    rewrite Z.mod_mul by lia. apply orb_true_r.
  - set (sh := d - 53).
    set (q := round_even (Z.shiftr a sh) (a mod 2 ^ sh) (2 ^ (sh - 1))).
    assert (Hq0 : 2 ^ 52 <= Z.shiftr a sh < 2 ^ 53).
    { assert (Hl : Z.log2 (Z.shiftr a sh) = 52)
        by (rewrite Z.log2_shiftr by lia; lia).
      assert (Hpos : 0 < Z.shiftr a sh).
      { destruct (Z.shiftr a sh) eqn:Hz; [ done | lia | done ]. }
      pose proof (Z.log2_spec _ Hpos) as Hspec. rewrite Hl in Hspec.
      exact Hspec. }
    assert (Hq : 2 ^ 52 <= q <= 2 ^ 53).
    { unfold q, round_even. destruct (_ || _); lia. }
    destruct (Z.eqb_spec q (2 ^ 53)) as [Heq | Hne].
    + replace (emax - prec <? sh + 1) with false
        by (unfold emax, prec, sh; lia).
      exists (Z.to_pos (2 ^ 52)), (sh + 1).
      repeat split; unfold sh; try lia.
      unfold is_whole. replace (0 <=? d - 53 + 1) with true by lia. done.
    + replace (emax - prec <? sh) with false
        by (unfold emax, prec, sh; lia).
      exists (Z.to_pos q), sh.
      repeat split; unfold sh; try lia; [ apply digits2_53; lia | ].
      unfold is_whole. replace (0 <=? d - 53) with true by lia. done.
Qed.

(** Below 2^53 the conversion is exact. *)
Lemma of_BigInt_exact (n : Z) : Z.abs n < 2 ^ 53 -> to_Z (of_BigInt n) = n.
Proof.
  intros Hbound. unfold of_BigInt.
  destruct (Z.eqb_spec n 0) as [-> | Hn]; [ done | ].
  set (a := Z.abs n) in *. assert (Ha : 0 < a) by lia.
  pose proof (Z.log2_nonneg a) as Hlog.
  assert (Hlog' : Z.log2 a < 53) by (by apply Z.log2_lt_pow2).
  replace (Z.log2 a + 1 <=? 53) with true by lia.
  unfold to_Z. set (k := 53 - (Z.log2 a + 1)).
  assert (Hpos : 0 < Z.shiftl a k)
    by (rewrite Z.shiftl_mul_pow2 by lia; apply Z.mul_pos_pos; lia).
  rewrite Z2Pos.id by done. rewrite Z.shiftl_mul_pow2 by lia.
  replace (- (Z.log2 a + 1 - 53)) with k by lia.
  assert (Hval : (if 0 <=? Z.log2 a + 1 - 53
                  then a * 2 ^ k * 2 ^ (Z.log2 a + 1 - 53)
                  else a * 2 ^ k / 2 ^ k) = a).
  { destruct (Z.leb_spec 0 (Z.log2 a + 1 - 53)).
    - replace k with 0 by lia.
      replace (Z.log2 a + 1 - 53) with 0 by lia. lia.
    - apply Z.div_mul. lia. }
  rewrite Hval. unfold a. destruct (Z.ltb_spec n 0); lia.
Qed.

(** Agreement of [Number(n)] with the rounding of the Standard Library's
    binary64 specification on sample points: small values, ties in both
    directions, a carry into the next binade and the overflow point. *)
Example of_BigInt_samples :
  forallb (fun n =>
             match of_BigInt n, binary_normalize prec emax n 0 false with
             | S754_finite s m e, S754_finite s' m' e' =>
                 Bool.eqb s s' && Pos.eqb m m' && Z.eqb e e'
             | S754_zero _, S754_zero _ => true
             | S754_infinity s, S754_infinity s' => Bool.eqb s s'
             | _, _ => false
             end)
    [0; 1; 2; 3; 60000; -3; 2 ^ 53; 2 ^ 53 + 1; 2 ^ 53 + 2; 2 ^ 53 + 3;
     2 ^ 54 - 1; 2 ^ 54 + 2; 2 ^ 54 + 6; 2 ^ 80 + 12345; 3 ^ 200;
     - 3 ^ 300; 10 ^ 21; 10 ^ 40; 2 ^ 1024 - 2 ^ 970 - 1;
     2 ^ 1024 - 2 ^ 970; 2 ^ 1024] = true.
Proof. vm_compute. reflexivity. Qed.

End NumFacts.
(* ===================================================================== *)
(** * What [executeWithRetry] hands back *)
(* ===================================================================== *)

Module RetryFacts.
Import Chain Rpc.

Section Returned.
Context {A : Type}.
Variable operation : string -> World -> (string + A) * World.
Variable P : A -> Prop.
Hypothesis operation_post :
  forall url w v w', operation url w = (inr v, w') -> P v.

Lemma attempt_once_returned (m : RPCManager) (w : World) v m' w' :
  attempt_once operation m w = (inr v, m', w') -> P v.
Proof.
  unfold attempt_once.
  destruct (getWorkingProvider m w) as [[[err | url] m1] w1]; [ done | ].
  destruct (operation url w1) as [r w2] eqn:Hop.
  intros [= -> <- <-]. eauto.
Qed.

Lemma attempts_returned restart maxRetries k :
  (forall m w v m' w', restart m w = (Returned v, m', w') -> P v) ->
  forall attempt m w v m' w',
    attempts operation restart maxRetries k attempt m w = (Returned v, m', w') ->
    P v.
Proof.
  intros Hrestart. induction k as [ | k IH ]; intros attempt m w v m' w';
    simpl; [ done | ].
  destruct (maxRetries <? attempt)%nat; [ done | ].
  destruct (attempt_once operation m w) as [[[err | v1] m1] w1] eqn:Hone.
  - destruct (attempt =? maxRetries)%nat.
    + destruct (JS.includes err "All RPCs failed"); [ | done ].
      apply Hrestart.
    + apply IH.
  - intros [= <- <- <-]. eapply attempt_once_returned, Hone.
Qed.

(** A value that comes out of the retry loop was returned by the
    callback. *)
Lemma executeWithRetry_returned fuel maxRetries m w v m' w' :
  executeWithRetry operation fuel maxRetries m w = (Returned v, m', w') ->
  P v.
Proof.
  revert m w v m' w'. induction fuel as [ | fuel IH ]; intros m w v m' w';
    simpl; [ done | ].
  by apply attempts_returned.
Qed.

Lemma attempts_defined restart maxRetries k :
  (forall m w, fst (fst (restart m w)) <> ReturnedUndefined) ->
  forall attempt m w,
    (attempt + k = S maxRetries)%nat -> (0 < k)%nat ->
    fst (fst (attempts operation restart maxRetries k attempt m w))
      <> ReturnedUndefined.
Proof.
  intros Hrestart. induction k as [ | k IH ]; intros attempt m w Hsum Hk;
    [ lia | ].
  simpl. rewrite (proj2 (Nat.ltb_ge maxRetries attempt)) by lia.
  destruct (attempt_once operation m w) as [[[err | v1] m1] w1]; [ | done ].
  destruct (Nat.eqb_spec attempt maxRetries) as [Hlast | Hmore].
  - destruct (JS.includes err "All RPCs failed"); [ apply Hrestart | done ].
  - apply IH; lia.
Qed.

(** With at least one attempt allowed the loop is always left by a
    [return] or a [throw]: the call never evaluates to [undefined]. *)
Lemma executeWithRetry_defined fuel maxRetries m w :
  (0 < maxRetries)%nat ->
  fst (fst (executeWithRetry operation fuel maxRetries m w))
    <> ReturnedUndefined.
Proof.
  intros Hmax. revert m w. induction fuel as [ | fuel IH ]; intros m w;
    simpl; [ done | ].
  apply attempts_defined; [ done | lia | done ].
Qed.

End Returned.

End RetryFacts.

(* ===================================================================== *)
(** * The records of a chunk *)
(* ===================================================================== *)

Module IngestFacts.
Import Chain Rpc Json Ingest.

Lemma json_of_number_wf (x : spec_float) : wf (json_of_number x) = true.
Proof. destruct x; simpl; try done; apply DecFacts.dec_valid. Qed.

Section Records.
Variable formatUnits : Z -> Z -> text.
Variable toISOString : Z -> text.
Variable cfg : Config.

(** The record built from a log is a JSON value that [JSON.stringify]
    prints and [JSON.parse] reads back. *)
Lemma decodeLog_wf (l : Log) (url : string) (w : World) v w' :
  decodeLog formatUnits toISOString cfg l url w = (inr v, w') ->
  wf v = true.
Proof.
  unfold decodeLog. destruct (getBlock w) as [[msg | block] w1]; [ done | ].
  destruct (parsed l) as [args | ]; [ | done ].
  destruct (Price.sqrtPriceX96ToPrice _ _ _) as [price | ]; [ | done ].
  destruct block as [timestamp | ]; [ | done ].
  intros [= <- <-]. cbn [wf forallb snd].
  by rewrite !DecFacts.dec_valid, json_of_number_wf.
Qed.

Lemma decodeAll_wf (fuel : nat) (logs : list Log) :
  forall chunkSwaps st swaps st',
    forallb wf chunkSwaps = true ->
    decodeAll formatUnits toISOString cfg fuel logs chunkSwaps st
      = (Some swaps, st') ->
    forallb wf swaps = true.
Proof.
  induction logs as [ | l rest IH ]; intros chunkSwaps st swaps st' Hacc;
    simpl.
  - by intros [= <- <-].
  - destruct (executeWithRetry _ fuel 3 (manager st) (world st))
      as [[[v | | msg | ] m1] w1] eqn:Hrun; try done.
    + apply IH. rewrite forallb_app, Hacc. simpl.
      rewrite (RetryFacts.executeWithRetry_returned
                 (decodeLog formatUnits toISOString cfg l)
                 (fun v => wf v = true)
                 (decodeLog_wf l) _ _ _ _ _ _ _ Hrun).
      done.
    + apply IH. by rewrite forallb_app, Hacc.
    + by apply IH.
Qed.

End Records.

End IngestFacts.
(* ===================================================================== *)
(** * Properties of [appendSwapsToFile] *)
(* ===================================================================== *)

Module AppendSpec.
Import Json JsonFacts JSFacts JsonInv Append AppendFacts.

Lemma temp_not_output : tempFile <> OUTPUT_FILE.
Proof. done. Qed.

(** Successive calls of [appendSwapsToFile], one per chunk, as the loop
    of [main] makes them; the calls stop at the first failure. *)
Fixpoint appendChunks (chunks : list (list json)) (d : gmap string text)
  : bool * gmap string text :=
  match chunks with
  | [] => (true, d)
  | c :: rest =>
      match appendSwapsToFile c d with
      | (true, d') => appendChunks rest d'
      | (false, d') => (false, d')
      end
  end.

(** One append to a file that holds an array. *)
Lemma appendSwapsToFile_parse (news xs : list json) (raw : text)
    (d : gmap string text) :
  d !! OUTPUT_FILE = Some raw -> parse raw = Some (JArr xs) ->
  forallb wf news = true ->
  exists d' raw',
    appendSwapsToFile news d = (true, d') /\
    d' !! OUTPUT_FILE = Some raw' /\
    parse raw' = Some (JArr (xs ++ news)).
Proof.
  intros Hd Hparse Hwf. unfold appendSwapsToFile.
  destruct news as [ | v l ].
  { exists d, raw. by rewrite app_nil_r. }
  cbn [is_nil]. unfold append_try, Fs.existsSync, Fs.readFileSync.
  rewrite Hd. cbn [negb].
  destruct (parsed_array_shape raw xs Hparse) as
    (body & st & p & Hshape & _).
  destruct (JS.trim raw) as [ | c0 r0 ] eqn:Htrim;
    [ by destruct body | ].
  cbn [is_nil orb]. rewrite <- Htrim.
  destruct (text_eqb (JS.trim raw) (T "[]")) eqn:Heq.
  - apply text_eqb_eq in Heq.
    rewrite (parsed_empty_array raw xs Hparse Heq).
    eexists _, _. split; [ reflexivity | ]. unfold Fs.writeFileSync.
    split; [ apply lookup_insert_eq | ].
    by apply (parse_stringify_at (T "  ") (JArr (v :: l))).
  - unfold Fs.writeFileSync, Fs.renameSync. rewrite lookup_insert_eq.
    rewrite (temp_contents_parse raw xs (v :: l) Hparse) by done.
    eexists _, _. split; [ reflexivity | ].
    split; [ apply lookup_insert_eq | ].
    by apply temp_contents_parse.
Qed.

(** ** C5 *)

(** C5. For every output file that holds a JSON array of records [olds]
    and every sequence of chunks of well-formed records, appending the
    chunks one after the other succeeds each time and leaves a file that
    parses to exactly [olds] followed by all the records of the chunks,
    in order: this is so for one chunk, and for any way of splitting the
    new records into successive chunks. *)
Theorem append_chunks_then_parse (chunks : list (list json))
    (olds : list json) (raw : text) (d : gmap string text) :
  d !! OUTPUT_FILE = Some raw ->
  parse raw = Some (JArr olds) ->
  Forall (fun c => forallb wf c = true) chunks ->
  exists d' raw',
    appendChunks chunks d = (true, d') /\
    d' !! OUTPUT_FILE = Some raw' /\
    parse raw' = Some (JArr (olds ++ concat chunks)).
Proof.
  revert olds raw d.
  induction chunks as [ | c rest IH ]; intros olds raw d Hd Hparse Hwf.
  - exists d, raw. simpl. by rewrite app_nil_r.
  - pose proof (Forall_inv Hwf) as Hc. apply Forall_inv_tail in Hwf.
    destruct (appendSwapsToFile_parse c olds raw d Hd Hparse Hc)
      as (d1 & raw1 & Happ & Hd1 & Hparse1).
    destruct (IH (olds ++ c) raw1 d1 Hd1 Hparse1 Hwf)
      as (d' & raw' & Hall & Hd' & Hparse').
    exists d', raw'. simpl. rewrite Happ.
    split; [ done | ]. split; [ done | ]. by rewrite app_assoc.
Qed.

Definition record1 : json :=
  JObj [ (T "blockNumber", JNum (T "101")); (T "txHash", JStr (T "0xab")) ].
Definition record2 : json :=
  JObj [ (T "blockNumber", JNum (T "102")); (T "txHash", JStr (T "0xcd")) ].
Definition record3 : json :=
  JObj [ (T "blockNumber", JNum (T "160")); (T "txHash", JStr (T "0xef")) ].

Lemma append_chunks_then_parse_witness :
  exists d' raw',
    appendChunks [ [record2]; [record3; record1] ]
      (<[OUTPUT_FILE := stringify2 (JArr [record1])]> ∅) = (true, d') /\
    d' !! OUTPUT_FILE = Some raw' /\
    parse raw' = Some (JArr [record1; record2; record3; record1]).
Proof.
  apply (append_chunks_then_parse [ [record2]; [record3; record1] ]
           [record1] (stringify2 (JArr [record1]))).
  - apply lookup_insert_eq.
  - vm_compute. reflexivity.
  - repeat constructor.
Defined.

(** ** C4 *)

(** What the [catch] block leaves when the validation fails. *)
Lemma appendSwapsToFile_invalid (news : list json) (raw : text)
    (d : gmap string text) :
  d !! OUTPUT_FILE = Some raw ->
  news <> [] ->
  is_nil (JS.trim raw) || text_eqb (JS.trim raw) (T "[]") = false ->
  parse (temp_contents raw news) = None ->
  appendSwapsToFile news d = (false, delete tempFile d).
Proof.
  intros Hd Hne Hblank Hparse. unfold appendSwapsToFile.
  destruct news as [ | v l ]; [ done | ]. cbn [is_nil].
  unfold append_try, Fs.existsSync, Fs.readFileSync, Fs.writeFileSync.
  rewrite Hd. cbn [negb]. rewrite Hblank.
  rewrite lookup_insert_eq, Hparse.
  unfold Fs.unlinkSync. rewrite lookup_insert_eq.
  by rewrite delete_insert_eq.
Qed.

(** The two states in which a call can leave the output file. *)
Lemma appendSwapsToFile_two_states (news : list json)
    (d : gmap string text) :
  forallb wf news = true ->
  snd (appendSwapsToFile news d) !! OUTPUT_FILE = d !! OUTPUT_FILE \/
  (fst (appendSwapsToFile news d) = true /\
   exists raw' v,
     snd (appendSwapsToFile news d) !! OUTPUT_FILE = Some raw' /\
     parse raw' = Some v).
Proof.
  intros Hwf. unfold appendSwapsToFile.
  destruct news as [ | v l ]; [ by left | ]. cbn [is_nil].
  assert (Hfresh : parse (stringify2 (JArr (v :: l))) = Some (JArr (v :: l)))
    by (by apply (parse_stringify_at (T "  ") (JArr (v :: l)))).
  unfold append_try, Fs.existsSync, Fs.readFileSync, Fs.writeFileSync.
  destruct (d !! OUTPUT_FILE) as [raw | ] eqn:Hd; cbn [negb].
  - destruct (is_nil (JS.trim raw) || text_eqb (JS.trim raw) (T "[]")).
    + right. cbn [fst snd]. split; [ done | ].
      eexists _, _. split; [ apply lookup_insert_eq | exact Hfresh ].
    + rewrite lookup_insert_eq.
      destruct (parse (temp_contents raw (v :: l))) as [parsed | ] eqn:Hp.
      * unfold Fs.renameSync. rewrite lookup_insert_eq.
        right. cbn [fst snd]. split; [ done | ].
        eexists _, _. split; [ apply lookup_insert_eq | exact Hp ].
      * unfold Fs.unlinkSync. rewrite lookup_insert_eq.
        left. cbn [snd]. rewrite delete_insert_eq.
        rewrite lookup_delete_ne by apply temp_not_output. done.
  - right. cbn [fst snd]. split; [ done | ].
    eexists _, _. split; [ apply lookup_insert_eq | exact Hfresh ].
Qed.

(** The call ends on the last disk of [append_steps]. *)
Lemma append_steps_last (news : list json) (d : gmap string text) :
  default d (last (append_steps news d)) = snd (appendSwapsToFile news d).
Proof.
  unfold append_steps, appendSwapsToFile.
  destruct (is_nil news); [ done | ].
  unfold append_try, Fs.existsSync, Fs.readFileSync, Fs.writeFileSync.
  destruct (d !! OUTPUT_FILE) as [raw | ] eqn:Hd; cbn [negb]; [ | done ].
  destruct (is_nil (JS.trim raw) || text_eqb (JS.trim raw) (T "[]"));
    [ done | ].
  rewrite lookup_insert_eq.
  destruct (parse (temp_contents raw news)) as [parsed | ].
  - unfold Fs.renameSync. by rewrite lookup_insert_eq.
  - unfold Fs.unlinkSync. by rewrite lookup_insert_eq.
Qed.

(** Between any two of its file operations the call has the output file
    in one of the two states. *)
Lemma append_steps_two_states (news : list json) (d : gmap string text) :
  forallb wf news = true ->
  Forall (fun s : gmap string text =>
            s !! OUTPUT_FILE = d !! OUTPUT_FILE \/
            exists raw' v, s !! OUTPUT_FILE = Some raw' /\ parse raw' = Some v)
         (append_steps news d).
Proof.
  intros Hwf. unfold append_steps.
  destruct news as [ | v l ]; [ by constructor | ]. cbn [is_nil].
  assert (Hfresh : parse (stringify2 (JArr (v :: l))) = Some (JArr (v :: l)))
    by (by apply (parse_stringify_at (T "  ") (JArr (v :: l)))).
  unfold Fs.existsSync, Fs.readFileSync, Fs.writeFileSync.
  destruct (d !! OUTPUT_FILE) as [raw | ] eqn:Hd; cbn [negb].
  - destruct (is_nil (JS.trim raw) || text_eqb (JS.trim raw) (T "[]")).
    + apply Forall_singleton. right.
      eexists _, _. split; [ apply lookup_insert_eq | exact Hfresh ].
    + constructor.
      { left. rewrite lookup_insert_ne by apply temp_not_output. done. }
      destruct (parse (temp_contents raw (v :: l))) as [parsed | ] eqn:Hp.
      * unfold Fs.renameSync. rewrite lookup_insert_eq.
        apply Forall_singleton. right.
        eexists _, _. split; [ apply lookup_insert_eq | exact Hp ].
      * unfold Fs.unlinkSync. rewrite lookup_insert_eq.
        apply Forall_singleton. left. rewrite delete_insert_eq.
        rewrite lookup_delete_ne by apply temp_not_output. done.
  - apply Forall_singleton. right.
    eexists _, _. split; [ apply lookup_insert_eq | exact Hfresh ].
Qed.

(** C4. When the output file exists and is not blank or the empty
    array, so that the protocol goes through the temporary file, and the
    text written there does not parse, [appendSwapsToFile] returns
    [false], the temporary file is gone and the disk is otherwise as it
    was: the output file keeps its content.  And whatever the disk and
    the chunk, the call leaves the output file either as it was or, with
    the result [true], holding a text that parses; the same two states
    are the only ones of the output file between the file operations of
    the call, the last of which leaves the disk that the call returns. *)
Theorem appendSwapsToFile_safe :
  (forall (news : list json) (raw : text) (d : gmap string text),
      d !! OUTPUT_FILE = Some raw ->
      news <> [] ->
      is_nil (JS.trim raw) || text_eqb (JS.trim raw) (T "[]") = false ->
      parse (temp_contents raw news) = None ->
      appendSwapsToFile news d = (false, delete tempFile d) /\
      delete tempFile d !! tempFile = None /\
      delete tempFile d !! OUTPUT_FILE = Some raw) /\
  (forall (news : list json) (d : gmap string text),
      forallb wf news = true ->
      snd (appendSwapsToFile news d) !! OUTPUT_FILE = d !! OUTPUT_FILE \/
      (fst (appendSwapsToFile news d) = true /\
       exists raw' v,
         snd (appendSwapsToFile news d) !! OUTPUT_FILE = Some raw' /\
         parse raw' = Some v)) /\
  (forall (news : list json) (d : gmap string text),
      forallb wf news = true ->
      default d (last (append_steps news d))
        = snd (appendSwapsToFile news d) /\
      Forall (fun s : gmap string text =>
                s !! OUTPUT_FILE = d !! OUTPUT_FILE \/
                exists raw' v,
                  s !! OUTPUT_FILE = Some raw' /\ parse raw' = Some v)
             (append_steps news d)).
Proof.
  split; [ | split ].
  - intros news raw d Hd Hne Hblank Hparse.
    split; [ by apply (appendSwapsToFile_invalid news raw) | ].
    split; [ apply lookup_delete_eq | ].
    rewrite lookup_delete_ne by apply temp_not_output. done.
  - apply appendSwapsToFile_two_states.
  - intros news d Hwf.
    split; [ apply append_steps_last | by apply append_steps_two_states ].
Qed.

Lemma appendSwapsToFile_safe_witness :
  appendSwapsToFile [record1] (<[OUTPUT_FILE := T "[ {"]> ∅) =
    (false, delete tempFile (<[OUTPUT_FILE := T "[ {"]> ∅)) /\
  delete tempFile (<[OUTPUT_FILE := T "[ {"]> (∅ : gmap string text))
    !! tempFile = None /\
  delete tempFile (<[OUTPUT_FILE := T "[ {"]> (∅ : gmap string text))
    !! OUTPUT_FILE = Some (T "[ {").
Proof.
  apply (proj1 appendSwapsToFile_safe [record1] (T "[ {")).
  - apply lookup_insert_eq.
  - done.
  - reflexivity.
  - vm_compute. reflexivity.
Defined.

End AppendSpec.
(* ===================================================================== *)
(** * Properties of the price functions *)
(* ===================================================================== *)

Module PriceSpec.
Import Num NumFacts Price.

(** ** C10 *)

(** C10. For every [sqrtPriceX96] of the event's type [uint160] and
    every pair of token precisions (a [uint8] for the first),
    [sqrtPriceX96ToPrice] returns [Number(ratio)], where [ratio] is the
    true price [sqrtPriceX96^2 * 10^decimals0 / (2^192 * 10^decimals1)]
    rounded down to an integer by the BigInt division; the result is a
    finite whole number, and it is [ratio] itself as long as [ratio] is
    below 2^53. *)
Theorem sqrtPriceX96ToPrice_whole (sqrtPriceX96 decimals0 decimals1 : Z) :
  0 <= sqrtPriceX96 < 2 ^ 160 ->
  0 <= decimals0 <= 255 ->
  0 <= decimals1 ->
  let ratio := (sqrtPriceX96 * sqrtPriceX96 * 10 ^ decimals0)
               / (2 ^ 96 * 2 ^ 96 * 10 ^ decimals1) in
  sqrtPriceX96ToPrice sqrtPriceX96 decimals0 decimals1
    = Some (of_BigInt ratio) /\
  is_whole (of_BigInt ratio) = true /\
  (ratio < 2 ^ 53 -> to_Z (of_BigInt ratio) = ratio).
Proof.
  intros Hs Hd0 Hd1 ratio.
  set (num := sqrtPriceX96 * sqrtPriceX96 * 10 ^ decimals0) in *.
  set (den := 2 ^ 96 * 2 ^ 96 * 10 ^ decimals1) in *.
  assert (Hp0 : 0 < 10 ^ decimals0) by (apply Z.pow_pos_nonneg; lia).
  assert (Hp1 : 0 < 10 ^ decimals1) by (apply Z.pow_pos_nonneg; lia).
  assert (Hden : 2 ^ 192 <= den).
  { unfold den. change (2 ^ 96 * 2 ^ 96) with (2 ^ 192).
    assert (0 < 2 ^ 192) by done. nia. }
  assert (Hnum : 0 <= num) by (unfold num; nia).
  assert (Hnum' : num < 2 ^ 192 * 2 ^ 1023).
  { assert (Hsq : sqrtPriceX96 * sqrtPriceX96 < 2 ^ 160 * 2 ^ 160) by nia.
    assert (Hpow : 10 ^ decimals0 <= 10 ^ 255)
      by (apply Z.pow_le_mono_r; lia).
    assert (Hconst : 2 ^ 160 * 2 ^ 160 * 10 ^ 255 <= 2 ^ 192 * 2 ^ 1023)
      by (apply Z.leb_le; vm_compute; reflexivity).
    unfold num.
    apply Z.lt_le_trans with (2 ^ 160 * 2 ^ 160 * 10 ^ 255); [ | done ].
    apply Z.le_lt_trans with (sqrtPriceX96 * sqrtPriceX96 * 10 ^ 255).
    - apply Z.mul_le_mono_nonneg_l; [ nia | done ].
    - apply Z.mul_lt_mono_pos_r; [ done | exact Hsq ]. }
  assert (H192 : 0 < 2 ^ 192) by done.
  assert (Hr0 : 0 <= ratio) by (apply Z.div_pos; lia).
  assert (Hr1 : ratio < 2 ^ 1023).
  { apply Z.div_lt_upper_bound; [ lia | ].
    apply Z.lt_le_trans with (2 ^ 192 * 2 ^ 1023); [ done | ].
    apply Z.mul_le_mono_nonneg_r; [ done | exact Hden ]. }
  assert (Hcall : sqrtPriceX96ToPrice sqrtPriceX96 decimals0 decimals1
                  = Some (div (of_BigInt ratio) one)).
  { unfold sqrtPriceX96ToPrice.
    replace (decimals0 <? 0) with false by lia.
    replace (decimals1 <? 0) with false by lia.
    cbn [orb]. fold num den. rewrite Z.quot_div_nonneg by lia. done. }
  rewrite Hcall.
  destruct (Z.eq_dec ratio 0) as [Hz | Hnz].
  - rewrite Hz. repeat split; done.
  - destruct (of_BigInt_shape ratio Hnz) as (m & e & Hshape & Hdig & He & Hw);
      [ lia | ].
    rewrite Hshape, div_one by (done || lia).
    split; [ done | ]. split; [ done | ].
    intros Hsmall. rewrite <- Hshape. apply of_BigInt_exact. lia.
Qed.

Lemma sqrtPriceX96ToPrice_whole_witness :
  sqrtPriceX96ToPrice (250 * 2 ^ 96) 8 6 = Some (of_BigInt 6250000) /\
  is_whole (of_BigInt 6250000) = true /\
  (6250000 < 2 ^ 53 -> to_Z (of_BigInt 6250000) = 6250000).
Proof.
  apply (sqrtPriceX96ToPrice_whole (250 * 2 ^ 96) 8 6); lia.
Defined.

(** ** Zero amounts *)

Lemma strict_eq_abs_zero (x : spec_float) :
  strict_eq (abs x) zero = is_zero x.
Proof. by destruct x as [ [] | [] | | [] m e ]. Qed.

End PriceSpec.
(* ===================================================================== *)
(** * Properties of the endpoint selector *)
(* ===================================================================== *)

Module RpcSpec.
Import Chain Rpc.

(** ** The pass over the pool *)

Lemma probe_loop_urls (k : nat) (m : RPCManager) (w : World) :
  rpcUrls (probe_loop k m w).1.2 = rpcUrls m /\
  lastFailResetTime (probe_loop k m w).1.2 = lastFailResetTime m /\
  failResetInterval (probe_loop k m w).1.2 = failResetInterval m /\
  failedRpcs m ⊆ failedRpcs (probe_loop k m w).1.2.
Proof.
  revert m w. induction k as [ | k IH ]; intros m w; simpl; [ done | ].
  destruct (rpcUrls m !! currentIndex m) as [url | ]; [ | done ].
  destruct (bool_decide (url ∈ failedRpcs m)).
  - destruct (IH (moveToNextRpc m) w) as (H1 & H2 & H3 & H4). done.
  - destruct (getBlockNumber w) as [[msg | n] w']; [ | done ].
    destruct (IH (moveToNextRpc (markFailed url (connect url m))) w')
      as (H1 & H2 & H3 & H4).
    repeat split; try done. simpl in H4.
    intros x Hx. apply H4. by apply elem_of_union_r.
Qed.











(** The cursor is inside the pool, unless the pool is empty.  The
    constructor establishes it and every method keeps it. *)
Definition in_range (m : RPCManager) : Prop :=
  rpcUrls m = [] \/ (currentIndex m < length (rpcUrls m))%nat.

Lemma create_in_range (urls : list string) (now : Z) :
  in_range (create urls now).
Proof. destruct urls; [ by left | right; simpl; lia ]. Qed.

Lemma moveToNextRpc_in_range (m : RPCManager) : in_range (moveToNextRpc m).
Proof.
  unfold in_range. simpl. destruct (rpcUrls m) as [ | u us ] eqn:Hu;
    [ by left | right ].
  apply Nat.mod_upper_bound. done.
Qed.

Lemma probe_loop_in_range (k : nat) (m : RPCManager) (w : World) :
  in_range m -> in_range (probe_loop k m w).1.2.
Proof.
  revert m w. induction k as [ | k IH ]; intros m w Hm; simpl; [ done | ].
  destruct (rpcUrls m !! currentIndex m) as [url | ]; [ | done ].
  destruct (bool_decide (url ∈ failedRpcs m)).
  - apply IH, moveToNextRpc_in_range.
  - destruct (getBlockNumber w) as [[msg | n] w']; [ | done ].
    apply IH, moveToNextRpc_in_range.
Qed.

Lemma getWorkingProvider_in_range (m : RPCManager) (w : World) :
  in_range m -> in_range (getWorkingProvider m w).1.2.
Proof.
  intros Hm. apply probe_loop_in_range.
  unfold resetFailed. by destruct (_ <? _).
Qed.

Lemma giveUpOnCurrent_in_range (m : RPCManager) : in_range (giveUpOnCurrent m).
Proof. apply moveToNextRpc_in_range. Qed.

(** ** C9 *)



Definition answering (now : Z) : World :=
  {| clock := now; network := [ mkReply 20 (BlockNumber 21000000) ];
     slept := [] |}.


(** ** C8 *)

Section Retry.
Context {A : Type}.
Variable operation : string -> World -> (string + A) * World.

(** An error that [executeWithRetry] throws does not indicate the
    exhaustion of the pool: that one is waited out. *)
Lemma attempts_threw (restart : RPCManager -> World -> outcome A * RPCManager * World)
    (maxRetries k attempt : nat) (m m' : RPCManager) (w w' : World)
    (err : string) :
  (forall m0 w0 m1 w1 e, restart m0 w0 = (Threw e, m1, w1) ->
                         JS.includes e "All RPCs failed" = false) ->
  attempts operation restart maxRetries k attempt m w = (Threw err, m', w') ->
  JS.includes err "All RPCs failed" = false.
Proof.
  intros Hrestart. revert attempt m w.
  induction k as [ | k IH ]; intros attempt m w; simpl; [ done | ].
  destruct (maxRetries <? attempt)%nat; [ done | ].
  destruct (attempt_once operation m w) as [[[e | v] m1] w1]; [ | done ].
  destruct (attempt =? maxRetries)%nat.
  - destruct (JS.includes e "All RPCs failed") eqn:He.
    + apply Hrestart.
    + by intros [= <- <- <-].
  - apply IH.
Qed.

Lemma executeWithRetry_threw (fuel maxRetries : nat) (m m' : RPCManager)
    (w w' : World) (err : string) :
  executeWithRetry operation fuel maxRetries m w = (Threw err, m', w') ->
  JS.includes err "All RPCs failed" = false.
Proof.
  revert m w m' w' err.
  induction fuel as [ | fuel IH ]; intros m w m' w' err; simpl; [ done | ].
  apply attempts_threw. intros m0 w0 m1 w1 e. apply IH.
Qed.

(** C8 as the code has it.  When an attempt fails: before the last
    attempt, whatever the failure, the pool exhaustion included, the
    endpoint of the cached provider is marked failed (if there is one),
    the cursor advances, the call sleeps 2000 ms times the number of the
    attempt and goes on with the next attempt; at the last attempt a
    failure that indicates the exhaustion of the pool is followed by a
    sleep of 30 s and a recursive call, which starts again at attempt 1,
    and any other failure is thrown to the caller.  An error thrown to the
    caller never indicates the exhaustion of the pool. *)
Theorem executeWithRetry_on_failure (fuel maxRetries k attempt : nat)
    (m m' : RPCManager) (w w' : World) (err : string) :
  attempt_once operation m w = (inl err, m', w') ->
  (attempt <= maxRetries)%nat ->
  attempts operation (executeWithRetry operation fuel maxRetries)
           maxRetries (S k) attempt m w =
    (if (attempt <? maxRetries)%nat then
       attempts operation (executeWithRetry operation fuel maxRetries)
                maxRetries k (S attempt)
                (giveUpOnCurrent m') (sleep (2000 * Z.of_nat attempt) w')
     else if JS.includes err "All RPCs failed" then
       executeWithRetry operation fuel maxRetries m' (sleep 30000 w')
     else (Threw err, m', w')) /\
  executeWithRetry operation (S fuel) maxRetries m w =
    attempts operation (executeWithRetry operation fuel maxRetries)
             maxRetries maxRetries 1 m w /\
  failedRpcs (giveUpOnCurrent m') =
    match provider m' with
    | Some url => {[ url ]} ∪ failedRpcs m'
    | None => failedRpcs m'
    end /\
  currentIndex (giveUpOnCurrent m') =
    ((currentIndex m' + 1) mod length (rpcUrls m'))%nat /\
  (forall m1 w1 m2 w2 e,
      executeWithRetry operation fuel maxRetries m1 w1 = (Threw e, m2, w2) ->
      JS.includes e "All RPCs failed" = false).
Proof.
  intros Honce Hle. split; [ | split; [ done | ] ].
  - cbn [attempts]. rewrite Honce.
    rewrite (proj2 (Nat.ltb_ge maxRetries attempt)) by lia.
    destruct (Nat.eqb_spec attempt maxRetries) as [-> | Hne].
    + by rewrite Nat.ltb_irrefl.
    + by rewrite (proj2 (Nat.ltb_lt attempt maxRetries)) by lia.
  - split; [ | split ].
    + unfold giveUpOnCurrent. by destruct (provider m').
    + unfold giveUpOnCurrent. by destruct (provider m').
    + intros m1 w1 m2 w2 e. apply executeWithRetry_threw.
Qed.

End Retry.

(** The manager of the source at time 0 and a network that answers
    nothing. *)
Definition fresh_manager : RPCManager :=
  create (Ingest.RPC_URL Ingest.source_config) 0.
Definition dead_network : World :=
  {| clock := 0; network := []; slept := [] |}.
Definition fetch (_ : string) (w : World) : (string + list Log) * World :=
  getLogs w.

Lemma executeWithRetry_on_failure_witness :
  attempts fetch (executeWithRetry fetch 0 3) 3 3 1 fresh_manager dead_network
  = attempts fetch (executeWithRetry fetch 0 3) 3 2 2
      (giveUpOnCurrent (attempt_once fetch fresh_manager dead_network).1.2)
      (sleep 2000 (attempt_once fetch fresh_manager dead_network).2).
Proof.
  apply (executeWithRetry_on_failure fetch 0 3 2 1 fresh_manager
           (attempt_once fetch fresh_manager dead_network).1.2
           dead_network
           (attempt_once fetch fresh_manager dead_network).2 ALL_FAILED).
  - reflexivity.
  - lia.
Defined.

(** The claim of C8 fails on the first attempt.  With both endpoints
    unreachable the first attempt fails with the error of the exhausted
    pool; no 30 s sleep and no recursive call follow: the call sleeps
    2000 ms, then 4000 ms after the second attempt, and only the third
    failure is followed by the 30 s. *)
Lemma pool_exhaustion_at_first_attempt :
  (attempt_once fetch fresh_manager dead_network).1.1 = inl ALL_FAILED /\
  JS.includes ALL_FAILED "All RPCs failed" = true /\
  rev (slept (executeWithRetry fetch 1 3 fresh_manager dead_network).2)
    = [2000; 4000; 30000] /\
  attempts fetch (executeWithRetry fetch 0 3) 3 3 1 fresh_manager dead_network
    <> executeWithRetry fetch 0 3
         (attempt_once fetch fresh_manager dead_network).1.2
         (sleep 30000 (attempt_once fetch fresh_manager dead_network).2).
Proof.
  split; [ reflexivity | ]. split; [ reflexivity | ].
  split; [ reflexivity | ].
  intros H. apply (f_equal (fun r => slept r.2)) in H.
  vm_compute in H. discriminate H.
Qed.

End RpcSpec.
(* ===================================================================== *)
(** * Properties of the scan *)
(* ===================================================================== *)

Module IngestSpec.
Import Json Chain Rpc Append Ingest.

(** The scenario of the specification: blocks 100 to 249 in chunks of 50,
    with the endpoints of the source. *)
Definition scenario : Config :=
  {| RPC_URL := RPC_URL source_config;
     POOL_decimals0 := 8; POOL_decimals1 := 6;
     START_BLOCK := 100; END_BLOCK := 249; CHUNK_SIZE := 50 |}.

(** The chunks of a whole scan from [fromBlock]: one iteration per block
    is more than the loop needs. *)
Definition all_chunks (cfg : Config) (fromBlock : Z) : list (Z * Z) :=
  chunks cfg (Z.to_nat (END_BLOCK cfg - fromBlock + 1)) fromBlock.

(** [tiles size l a b]: the ranges of [l] cover the blocks from [a] to [b]
    in order, each starting right after the one before it, none empty,
    each of [size] blocks unless it is cut at [b]. *)
Fixpoint tiles (size : Z) (l : list (Z * Z)) (a b : Z) : Prop :=
  match l with
  | [] => b < a
  | (f, t) :: rest =>
      f = a /\ f <= t <= b /\ (t = f + size - 1 \/ (t = b /\ t < f + size - 1))
      /\ tiles size rest (t + 1) b
  end.

Lemma chunks_tiles (cfg : Config) (fuel : nat) (fromBlock : Z) :
  0 < CHUNK_SIZE cfg ->
  END_BLOCK cfg - fromBlock + 1 <= Z.of_nat fuel ->
  tiles (CHUNK_SIZE cfg) (chunks cfg fuel fromBlock) fromBlock (END_BLOCK cfg).
Proof.
  intros Hsize. revert fromBlock.
  induction fuel as [ | fuel IH ]; intros fromBlock Hfuel; simpl.
  - lia.
  - destruct (Z.ltb_spec (END_BLOCK cfg) fromBlock) as [Hend | Hend];
      [ done | ].
    simpl. unfold toBlockOf.
    split; [ done | ]. split; [ lia | ]. split; [ lia | ].
    destruct (Z.le_gt_cases (fromBlock + CHUNK_SIZE cfg - 1) (END_BLOCK cfg))
      as [Hfull | Hcut].
    + rewrite Z.min_l by done.
      replace (fromBlock + CHUNK_SIZE cfg - 1 + 1)
        with (fromBlock + CHUNK_SIZE cfg) by lia.
      apply IH. lia.
    + rewrite Z.min_r by lia.
      assert (Hnone : chunks cfg fuel (fromBlock + CHUNK_SIZE cfg) = []).
      { destruct fuel; simpl; [ done | ].
        by rewrite (proj2 (Z.ltb_lt _ _)) by lia. }
      rewrite Hnone. simpl. lia.
Qed.

(** ** The chunks a run goes through *)

Definition range_of (e : Event) : option (Z * Z) :=
  match e with Processing a b => Some (a, b) | _ => None end.

(** The ranges of the chunks a run has started, first one first. *)
Definition processing (evs : list Event) : list (Z * Z) :=
  rev (omap range_of evs).

Section Runs.
Variable formatUnits : Z -> Z -> text.
Variable toISOString : Z -> text.
Variable cfg : Config.

Lemma decodeAll_processing (fuel : nat) (logs : list Log)
    (chunkSwaps : list json) (st : State) :
  processing (events (decodeAll formatUnits toISOString cfg
                        fuel logs chunkSwaps st).2)
  = processing (events st).
Proof.
  revert chunkSwaps st.
  induction logs as [ | l logs IH ]; intros chunkSwaps st; simpl; [ done | ].
  destruct (executeWithRetry _ fuel 3 (manager st) (world st))
    as [[[v | | msg | ] m] w]; simpl; by rewrite ?IH.
Qed.

(** The chunks started by the loop are the chunks of the loop header, in
    order; all of them when the loop runs to its end, and a first part of
    them when an append fails or the fuel of the model runs out. *)
Lemma scan_processing (fuel : nat) (existingSwapCount fromBlock total : Z)
    (st : State) :
  let r := scan formatUnits toISOString cfg fuel existingSwapCount
             fromBlock total st in
  exists l,
    processing (events r.2) = processing (events st) ++ l /\
    l `prefix_of` chunks cfg fuel fromBlock /\
    (r.1 = Finished ->
     (exists a b evs, events r.2 = AppendFailed a b :: evs) \/
     (l = chunks cfg fuel fromBlock /\
      END_BLOCK cfg < fromBlock + CHUNK_SIZE cfg * Z.of_nat (length l))).
Proof.
  revert fromBlock total st.
  induction fuel as [ | fuel IH ]; intros fromBlock total st; simpl.
  { exists []. rewrite app_nil_r. split; [ done | ]. split; [ done | ].
    intros [=]. }
  destruct (Z.ltb_spec (END_BLOCK cfg) fromBlock) as [Hend | Hend].
  { exists []. rewrite app_nil_r. simpl. split; [ done | ].
    split; [ done | ]. intros _. right. split; [ done | ]. simpl. lia. }
  set (c := (fromBlock, toBlockOf cfg fromBlock)).
  assert (Hcont : forall total' st1,
    processing (events st1) = processing (events st) ++ [c] ->
    let r := scan formatUnits toISOString cfg fuel existingSwapCount
               (fromBlock + CHUNK_SIZE cfg) total' st1 in
    exists l,
      processing (events r.2) = processing (events st) ++ l /\
      l `prefix_of` c :: chunks cfg fuel (fromBlock + CHUNK_SIZE cfg) /\
      (r.1 = Finished ->
       (exists a b evs, events r.2 = AppendFailed a b :: evs) \/
       (l = c :: chunks cfg fuel (fromBlock + CHUNK_SIZE cfg) /\
        END_BLOCK cfg < fromBlock + CHUNK_SIZE cfg * Z.of_nat (length l)))).
  { intros total' st1 Hst1.
    destruct (IH (fromBlock + CHUNK_SIZE cfg) total' st1)
      as (l & Hl & Hpre & Hfin).
    exists (c :: l). cbv zeta. rewrite Hl, Hst1, <- app_assoc.
    split; [ done | ]. split; [ by apply prefix_cons | ].
    intros Hf. destruct (Hfin Hf) as [Hfail | [-> Hlen]]; [ by left | ].
    right. split; [ done | ]. simpl length. lia. }
  assert (Hstop : forall (e : Exit) st1,
    e <> Finished \/ (exists a b evs, events st1 = AppendFailed a b :: evs) ->
    processing (events st1) = processing (events st) ++ [c] ->
    exists l,
      processing (events st1) = processing (events st) ++ l /\
      l `prefix_of` c :: chunks cfg fuel (fromBlock + CHUNK_SIZE cfg) /\
      (e = Finished ->
       (exists a b evs, events st1 = AppendFailed a b :: evs) \/
       (l = c :: chunks cfg fuel (fromBlock + CHUNK_SIZE cfg) /\
        END_BLOCK cfg < fromBlock + CHUNK_SIZE cfg * Z.of_nat (length l)))).
  { intros e st1 Hwhy Hst1. exists [c]. split; [ done | ].
    split; [ apply prefix_cons, prefix_nil | ].
    intros ->. destruct Hwhy as [ | Hfail ]; [ done | by left ]. }
  assert (Hstart : forall evs,
    processing (Processing fromBlock (toBlockOf cfg fromBlock) :: evs)
    = processing evs ++ [c]) by done.
  destruct (executeWithRetry _ fuel 3 _ _) as [[[logs | | msg | ] m] w].
  - pose proof (decodeAll_processing fuel logs []
                  (with_rpc m w (log (Processing fromBlock
                     (toBlockOf cfg fromBlock)) st))) as Hdec.
    destruct (decodeAll _ _ _ _ _ _ _) as [[chunkSwaps | ] st1]; simpl in Hdec.
    + destruct (appendSwapsToFile chunkSwaps (disk st1)) as [[ | ] d].
      * apply Hcont. simpl. by rewrite <- Hstart.
      * apply (Hstop Finished); [ right; eauto | ]. simpl. by rewrite <- Hstart.
    + apply (Hstop NoFuel); [ by left | ]. by rewrite <- Hstart.
  - apply Hcont. simpl. by rewrite <- Hstart.
  - apply Hcont. simpl. by rewrite <- Hstart.
  - apply (Hstop NoFuel); [ by left | ]. simpl. by rewrite <- Hstart.
Qed.

(** Once the header has run to its end, more fuel adds no chunk. *)
Lemma chunks_stable (fuel fuel' : nat) (fromBlock : Z) :
  0 < CHUNK_SIZE cfg ->
  END_BLOCK cfg
    < fromBlock + CHUNK_SIZE cfg * Z.of_nat (length (chunks cfg fuel fromBlock)) ->
  END_BLOCK cfg - fromBlock + 1 <= Z.of_nat fuel' ->
  chunks cfg fuel' fromBlock = chunks cfg fuel fromBlock.
Proof.
  intros Hsize. revert fuel' fromBlock.
  induction fuel as [ | fuel IH ]; intros fuel' fromBlock; simpl.
  - intros Hend _. destruct fuel'; simpl; [ done | ].
    by rewrite (proj2 (Z.ltb_lt _ _)) by lia.
  - destruct (Z.ltb_spec (END_BLOCK cfg) fromBlock) as [Hend | Hend].
    + intros _ _. destruct fuel'; simpl; [ done | ].
      by rewrite (proj2 (Z.ltb_lt _ _)) by lia.
    + simpl length. intros Hlen Hfuel.
      destruct fuel' as [ | fuel' ]; [ lia | ]. simpl.
      rewrite (proj2 (Z.ltb_ge _ _)) by lia. f_equal. apply IH; lia.
Qed.

(** A run of the loop that ends without a failed append has started the
    chunks of the whole scan, and only them. *)
Lemma scan_all_chunks (fuel : nat) (existingSwapCount fromBlock total : Z)
    (st : State) :
  0 < CHUNK_SIZE cfg ->
  let r := scan formatUnits toISOString cfg fuel existingSwapCount
             fromBlock total st in
  r.1 = Finished ->
  (forall a b evs, events r.2 <> AppendFailed a b :: evs) ->
  processing (events r.2) = processing (events st) ++ all_chunks cfg fromBlock.
Proof.
  intros Hsize r Hfin Hok.
  destruct (scan_processing fuel existingSwapCount fromBlock total st)
    as (l & Hl & _ & Hdone).
  destruct (Hdone Hfin) as [(a & b & evs & Hfail) | [-> Hlen]];
    [ by destruct (Hok a b evs) | ].
  fold r in Hl. rewrite Hl. f_equal. symmetry.
  apply chunks_stable; [ done | done | lia ].
Qed.

End Runs.

(** ** The scenario after a first chunk *)

(** The checkpoint file as [saveProgress] writes it after block 149. *)
Definition checkpoint_149 : gmap string text :=
  disk (saveProgress (fun _ => T "2025-01-01T00:00:00.000Z") scenario 149 0
          {| disk := ∅; manager := create [] 0;
             world := {| clock := 0; network := []; slept := [] |};
             events := [] |}).

(** ** Runs of [main] in which a chunk fails *)

Definition quick (b : ReplyBody) : Reply := {| elapsed := 20; body := b |}.

(** A network on which the second chunk cannot be fetched: the first
    request for its logs times out after ten minutes and the two that
    follow fail at once. *)
Definition flaky : World :=
  {| clock := 0;
     network :=
       [ quick (BlockNumber 21000000); quick (Logs []);
         quick (BlockNumber 21000000);
         {| elapsed := 600001; body := Failure "timeout" |};
         quick (BlockNumber 21000000); quick (Failure "timeout");
         quick (BlockNumber 21000000); quick (Failure "timeout");
         quick (BlockNumber 21000000); quick (Logs []) ];
     slept := [] |}.

(** A network on which every request is answered; no chunk has a log. *)
Definition healthy : World :=
  {| clock := 0;
     network :=
       [ quick (BlockNumber 21000000); quick (Logs []);
         quick (BlockNumber 21000000); quick (Logs []);
         quick (BlockNumber 21000000); quick (Logs []) ];
     slept := [] |}.

(** The ranges of the chunks that were appended and checkpointed, first
    one first. *)
Definition appended (evs : list Event) : list (Z * Z) :=
  rev (omap (fun e => match e with
                      | Appended a b _ => Some (a, b)
                      | _ => None
                      end) evs).

(** C1 fails on the code.  On the network [flaky] the chunk 150-199
    cannot be fetched; the run goes on with 200-249 and ends by removing
    the checkpoint file: the blocks 150 to 199 are a gap.  The next run,
    on a healthy network, finds no checkpoint and scans from block 100:
    the ranges 100-149 and 200-249 are processed a second time. *)
Theorem failed_chunk_leaves_gap_and_overlap formatUnits toISOString :
  let run1 := main formatUnits toISOString scenario 10 ∅ flaky in
  let run2 := main formatUnits toISOString scenario 10 (disk run1.2) healthy in
  run1.1 = Finished /\
  appended (events run1.2) = [ (100, 149); (200, 249) ] /\
  disk run1.2 !! PROGRESS_FILE = None /\
  run2.1 = Finished /\
  appended (events run2.2) = [ (100, 149); (150, 199); (200, 249) ].
Proof. by vm_compute. Qed.

(** C3 fails on the code.  When the logs of 150-199 cannot be fetched the
    checkpoint is written at block 149 and the run sleeps 5000 ms, as
    claimed; the chunk that is processed next is 200-249, not 150-199
    again. *)
Theorem failed_chunk_is_not_retried formatUnits toISOString :
  let run := main formatUnits toISOString scenario 10 ∅ flaky in
  rev (events run.2) =
    [ Processing 100 149; SavedProgress 149 0; Appended 100 149 0;
      Processing 150 199; FetchError 150 199 "timeout"; SavedProgress 149 0;
      Processing 200 249; SavedProgress 249 0; Appended 200 249 0;
      Completed; CleanedUp ] /\
  rev (slept (world run.2)) = [ 100; 2000; 4000; 5000; 100 ].
Proof. by vm_compute. Qed.

(** A disk on which the output file is damaged and the checkpoint is at
    block 149, and a network that returns one swap in the chunk 150-199. *)
Definition damaged : gmap string text :=
  <[OUTPUT_FILE := T "[ {"]> checkpoint_149.

Definition one_swap : World :=
  {| clock := 0;
     network :=
       [ quick (BlockNumber 21000000);
         quick (Logs [ {| blockNumber := 160;
                          transactionHash := T "0xabc";
                          parsed := Some {| sender := T "0x01";
                                            recipient := T "0x02";
                                            amount0 := -50000000;
                                            amount1 := 30000000000;
                                            sqrtPriceX96 := 250 * 2 ^ 96;
                                            tick := 110000 |} |} ]);
         quick (BlockNumber 21000000); quick (Block (Some 1700000000)) ];
     slept := [] |}.

(** C2 fails on the code.  The append for the chunk 150-199 fails and the
    loop stops; the statements after the loop then remove the checkpoint
    file although the blocks 150 to 249 have not been processed. *)
Theorem failed_append_removes_checkpoint formatUnits toISOString :
  let run := main formatUnits toISOString scenario 10 damaged one_swap in
  run.1 = Finished /\
  rev (events run.2) =
    [ Processing 150 199; AppendFailed 150 199; Completed; CleanedUp ] /\
  is_Some (damaged !! PROGRESS_FILE) /\
  disk run.2 !! PROGRESS_FILE = None /\
  disk run.2 !! OUTPUT_FILE = Some (T "[ {").
Proof.
  split; [ by vm_compute | ]. split; [ by vm_compute | ].
  split; [ by eexists | ]. split; by vm_compute.
Qed.

End IngestSpec.
(* ===================================================================== *)
(** * More on [appendSwapsToFile]: footprint, first write, foreign files *)
(* ===================================================================== *)

Module AppendExtra.
Import Json JsonFacts JSFacts JsonInv Append AppendFacts.

Lemma temp_is_not_output : tempFile <> OUTPUT_FILE.
Proof. done. Qed.

(** The files next to the output file and its temporary file. *)
Lemma appendSwapsToFile_others (news : list json) (d : gmap string text)
    (path : string) :
  path <> OUTPUT_FILE -> path <> tempFile ->
  snd (appendSwapsToFile news d) !! path = d !! path.
Proof.
  intros Hout Htemp. unfold appendSwapsToFile.
  destruct (is_nil news); [ done | ].
  unfold append_try, Fs.existsSync, Fs.readFileSync, Fs.writeFileSync.
  destruct (d !! OUTPUT_FILE) as [raw | ] eqn:Hd; cbn [negb].
  - destruct (is_nil (JS.trim raw) || text_eqb (JS.trim raw) (T "[]")).
    + cbn [snd]. by rewrite lookup_insert_ne.
    + rewrite lookup_insert_eq.
      destruct (parse (temp_contents raw news)) as [parsed | ].
      * unfold Fs.renameSync. rewrite lookup_insert_eq. cbn [snd].
        rewrite lookup_insert_ne by done.
        rewrite lookup_delete_ne by done.
        by rewrite lookup_insert_ne.
      * unfold Fs.unlinkSync. rewrite lookup_insert_eq. cbn [snd].
        rewrite lookup_delete_ne by done.
        by rewrite lookup_insert_ne.
  - cbn [snd]. by rewrite lookup_insert_ne.
Qed.

(** X1. [appendSwapsToFile] reads and writes two paths only: every other
    file of the disk is as it was after the call, whatever the chunk and
    whatever the call returns.  And it leaves no temporary file behind:
    when the output file exists and is not blank or the empty array, so
    that the temporary file is written, the temporary file is gone when
    the call returns, on success (renamed) and on failure (unlinked). *)
Theorem appendSwapsToFile_footprint :
  (forall (news : list json) (d : gmap string text) (path : string),
      path <> OUTPUT_FILE -> path <> tempFile ->
      snd (appendSwapsToFile news d) !! path = d !! path) /\
  (forall (news : list json) (d : gmap string text) (raw : text),
      d !! OUTPUT_FILE = Some raw -> news <> [] ->
      is_nil (JS.trim raw) || text_eqb (JS.trim raw) (T "[]") = false ->
      snd (appendSwapsToFile news d) !! tempFile = None).
Proof.
  split; [ exact appendSwapsToFile_others | ].
  intros news d raw Hd Hne Hblank. unfold appendSwapsToFile.
  destruct news as [ | v l ]; [ done | ]. cbn [is_nil].
  unfold append_try, Fs.existsSync, Fs.readFileSync, Fs.writeFileSync.
  rewrite Hd. cbn [negb]. rewrite Hblank, lookup_insert_eq.
  destruct (parse (temp_contents raw (v :: l))) as [parsed | ].
  - unfold Fs.renameSync. rewrite lookup_insert_eq. cbn [snd].
    rewrite lookup_insert_ne by done.
    apply lookup_delete_eq.
  - unfold Fs.unlinkSync. rewrite lookup_insert_eq. cbn [snd].
    apply lookup_delete_eq.
Qed.

Definition a_record : json :=
  JObj [ (T "blockNumber", JNum (T "101")); (T "txHash", JStr (T "0xab")) ].

Definition shelf : gmap string text :=
  <[ "notes.txt"%string := T "keep" ]>
    (<[ OUTPUT_FILE := T "[ 1 ]" ]> ∅).

Lemma appendSwapsToFile_footprint_witness :
  snd (appendSwapsToFile [a_record] shelf) !! "notes.txt"%string
  = shelf !! "notes.txt"%string.
Proof.
  apply (proj1 appendSwapsToFile_footprint [a_record] shelf); done.
Defined.

(** X2. The first write.  When there is no output file, or the output
    file is blank, a non-empty chunk of records is written to it as an
    indented JSON array, directly and without a temporary file; the call
    returns [true], nothing else on the disk changes, and the file
    parses to exactly the records of the chunk. *)
Theorem appendSwapsToFile_first_write (news : list json)
    (d : gmap string text) :
  news <> [] -> forallb wf news = true ->
  (d !! OUTPUT_FILE = None \/
   exists raw, d !! OUTPUT_FILE = Some raw /\ JS.trim raw = []) ->
  appendSwapsToFile news d
    = (true, <[OUTPUT_FILE := stringify2 (JArr news)]> d) /\
  parse (stringify2 (JArr news)) = Some (JArr news).
Proof.
  intros Hne Hwf Hd. split.
  - unfold appendSwapsToFile. destruct news as [ | v l ]; [ done | ].
    cbn [is_nil]. unfold append_try, Fs.existsSync, Fs.readFileSync.
    destruct Hd as [-> | (raw & -> & ->)]; done.
  - by apply (parse_stringify_at (T "  ") (JArr news)).
Qed.

Lemma appendSwapsToFile_first_write_witness :
  appendSwapsToFile [a_record] ∅
    = (true, <[OUTPUT_FILE := stringify2 (JArr [a_record])]> ∅) /\
  parse (stringify2 (JArr [a_record])) = Some (JArr [a_record]).
Proof.
  apply (appendSwapsToFile_first_write [a_record] ∅);
    [ done | reflexivity | by left ].
Defined.

(** ** A file that holds JSON other than an array *)

Lemma feed_rbracket_done (p : pstate) (v : json) :
  feed p TRBracket = Some (PDone v) -> exists xs, v = JArr xs.
Proof.
  destruct p as [ up | up | acc up | up | acc up | acc k up | acc up | v0 ];
    simpl; try discriminate;
    destruct up as [ | [] up ]; simpl; intros [= <-]; eauto.
Qed.

(** A comma cannot follow a complete value. *)
Lemma step_comma_after_done (st : state) (v : json) :
  flush st = Some (PDone v) -> step st ","%char = None.
Proof.
  destruct st as [[ | acc m | ns acc | k i ] p]; simpl; try done.
  - by intros [= ->].
  - destruct (num_final ns) eqn:Hfin; [ | done ].
    intros Hf. assert (Hnext : num_next ns ","%char = None) by (by destruct ns).
    rewrite Hnext, Hf. done.
Qed.

(** The trimmed text of a file that parses: the automaton reads it to
    the end and is left with the complete value. *)
Lemma parsed_trim (raw : text) (v : json) :
  parse raw = Some v ->
  exists stE,
    run (JS.trim raw) init = Some stE /\ flush stE = Some (PDone v) /\
    tight_start (JS.trim raw) /\ tight_end (JS.trim raw).
Proof.
  intros Hparse.
  destruct (trim_split raw) as (w1 & w2 & Hraw & Hw1 & Hw2 & Hts & Hte).
  unfold parse in Hparse.
  destruct (run raw init) as [stF | ] eqn:Hrun; [ | done ].
  rewrite Hraw, run_app in Hrun.
  destruct (run w1 init) as [st1 | ] eqn:H1; [ | done ].
  apply run_spaces_idle in H1; [ | done ]. subst st1.
  rewrite run_app in Hrun. fold init in Hrun.
  destruct (run (JS.trim raw) init) as [stE | ] eqn:HE; [ | done ].
  assert (Hfl : flush stF = Some (PDone v)).
  { unfold finish in Hparse.
    destruct (flush stF) as [[] | ]; try done. by injection Hparse as ->. }
  assert (HnsE : ~ in_string stE).
  { intros Hin.
    pose proof (run_in_string _ _ _ Hin (spaces_not_dquote _ Hw2) Hrun) as Hin'.
    by rewrite (flush_in_string _ Hin') in Hfl. }
  exists stE. split; [ done | ]. split; [ | done ].
  by apply (run_spaces_flush w2 stE stF).
Qed.

(** The last code unit of a text that parses to something other than an
    array is neither bracket. *)
Lemma parsed_not_array_end (a : text) (c : ascii) (stE : state) (v : json) :
  run (a ++ [c]) init = Some stE -> flush stE = Some (PDone v) ->
  (forall xs, v <> JArr xs) ->
  c <> "]"%char /\ c <> "["%char.
Proof.
  intros Hrun Hfl Hnot. rewrite run_snoc in Hrun.
  destruct (run a init) as [sta | ] eqn:Ha; [ | done ].
  assert (Hbracket : forall t,
            (c = "]"%char /\ t = TRBracket) \/ (c = "["%char /\ t = TLBracket) ->
            exists p, feed p t = Some (PDone v)).
  { intros t Hc.
    assert (Hbreak : is_break c = true) by (by destruct Hc as [[-> _] | [-> _]]).
    assert (Hpunct : punct c = Some t) by (by destruct Hc as [[-> ->] | [-> ->]]).
    assert (Hnsa : ~ in_string sta).
    { intros Hin.
      assert (Hin' : in_string stE).
      { apply (step_in_string sta stE c Hin); [ | done ].
        by apply break_not_dquote. }
      by rewrite (flush_in_string _ Hin') in Hfl. }
    destruct (step_break_inv sta stE c Hnsa Hbreak Hrun) as (p & Hfa & Hi).
    rewrite (idle_punct _ t) in Hi by done. unfold emit in Hi.
    destruct (feed p t) as [p' | ] eqn:Hp'; [ | done ].
    injection Hi as <-. simpl in Hfl. exists p. by rewrite Hp', <- Hfl. }
  split; intros ->.
  - destruct (Hbracket TRBracket) as (p & Hp); [ by left | ].
    destruct (feed_rbracket_done _ _ Hp) as (xs & ->). by apply (Hnot xs).
  - destruct (Hbracket TLBracket) as (p & Hp); [ by right | ].
    by destruct (feed_lbracket _ _ Hp) as (up & ?).
Qed.

(** X3. An output file that holds valid JSON which is not an array (an
    object, a string, a number, a keyword) is refused: a non-empty chunk
    is not appended, the call returns [false], and the disk is as it was
    but for the temporary file, which is removed; the output file keeps
    its content. *)
Theorem appendSwapsToFile_not_array (news : list json) (raw : text)
    (v : json) (d : gmap string text) :
  d !! OUTPUT_FILE = Some raw ->
  parse raw = Some v -> (forall xs, v <> JArr xs) ->
  news <> [] ->
  appendSwapsToFile news d = (false, delete tempFile d) /\
  delete tempFile d !! OUTPUT_FILE = Some raw.
Proof.
  intros Hd Hparse Hnot Hne.
  split; [ | by rewrite lookup_delete_ne ].
  destruct (parsed_trim raw v Hparse) as (stE & HE & Hfl & Hts & Hte).
  destruct (snoc_cases (JS.trim raw)) as [Hnil | (a & c & Hsnoc)].
  { rewrite Hnil in HE. injection HE as <-. done. }
  rewrite Hsnoc in HE.
  destruct (parsed_not_array_end a c stE v HE Hfl Hnot) as [Hc1 Hc2].
  assert (Hstrip : JS.strip_closing_bracket (JS.trim raw) = JS.trim raw).
  { rewrite Hsnoc. unfold JS.strip_closing_bracket.
    rewrite rev_app_distr. simpl.
    by rewrite (proj2 (Ascii.eqb_neq c "]") Hc1). }
  assert (Hends : JS.endsWith (JS.trim raw) "[" = false).
  { rewrite Hsnoc, endsWith_snoc. by apply Ascii.eqb_neq. }
  apply (AppendSpec.appendSwapsToFile_invalid news raw d Hd Hne).
  - rewrite Hsnoc. destruct a as [ | a0 a ]; simpl.
    + destruct (text_eqb [c] (T "[]")) eqn:He; [ | done ].
      by apply text_eqb_eq in He.
    + destruct (text_eqb (a0 :: a ++ [c]) (T "[]")) eqn:He; [ | done ].
      apply text_eqb_eq in He.
      change (T "[]") with (["["%char] ++ ["]"%char]) in He.
      change (a0 :: a ++ [c]) with ((a0 :: a) ++ [c]) in He.
      apply app_inj_tail in He as [_ ->]. done.
  - unfold temp_contents, newDataString.
    rewrite Hstrip, (trim_id _ Hts Hte), Hends.
    unfold parse. rewrite run_app, Hsnoc, HE. simpl.
    by rewrite (step_comma_after_done stE v Hfl).
Qed.

Lemma appendSwapsToFile_not_array_witness :
  appendSwapsToFile [a_record] (<[OUTPUT_FILE := T "{ }"]> ∅)
    = (false, delete tempFile (<[OUTPUT_FILE := T "{ }"]> ∅)) /\
  delete tempFile (<[OUTPUT_FILE := T "{ }"]> (∅ : gmap string text))
    !! OUTPUT_FILE = Some (T "{ }").
Proof.
  apply (appendSwapsToFile_not_array [a_record] (T "{ }") (JObj [])).
  - apply lookup_insert_eq.
  - vm_compute. reflexivity.
  - done.
  - done.
Defined.

End AppendExtra.
(* ===================================================================== *)
(** * [parseFloat] reads back the decimal rendering of an integer *)
(* ===================================================================== *)

Module ParseFloatFacts.
Import JS Json Num NumFacts DecFacts.

Lemma digit_char_value (d : Z) :
  0 <= d < 10 -> Z.of_N (code (digit_char d)) - 48 = d.
Proof. intros Hd. rewrite digit_char_code by done. lia. Qed.

(** A digit differs from every code unit outside "0" to "9". *)
Lemma digit_char_other (d : Z) (x : ascii) :
  0 <= d < 10 -> is_digit x = false ->
  Ascii.eqb (digit_char d) x = false /\ Ascii.eqb x (digit_char d) = false.
Proof.
  intros Hd Hx. pose proof (digit_char_digit d Hd) as Hdig.
  split; apply Ascii.eqb_neq; intros Heq; subst; congruence.
Qed.

Lemma digit_char_not_space (d : Z) :
  0 <= d < 10 -> is_space (digit_char d) = false.
Proof.
  intros Hd. unfold is_space. rewrite digit_char_code by done.
  repeat (apply orb_false_intro);
    try apply andb_false_intro2; apply N.leb_gt || apply N.eqb_neq; lia.
Qed.

(** Reading the digits of [n] multiplies what was read by a power of ten
    and adds [n]. *)
Lemma take_digits_fuel (fuel : nat) (n : Z) (acc : text) :
  0 <= n < 10 ^ Z.of_nat fuel -> (0 < fuel)%nat ->
  exists k, 0 < k /\
    forall v c, take_digits (digits_fuel fuel n acc) v c
                = take_digits acc (v * 10 ^ k + n) (c + k).
Proof.
  revert n acc. induction fuel as [ | fuel IH ]; intros n acc Hn Hfuel;
    [ lia | ].
  simpl. destruct (Z.ltb_spec n 10) as [Hsmall | Hbig].
  - exists 1. split; [ done | ]. intros v c. simpl.
    rewrite digit_char_digit, digit_char_value by lia.
    f_equal. lia.
  - assert (Hpow : 10 ^ Z.of_nat (S fuel) = 10 * 10 ^ Z.of_nat fuel)
      by (rewrite Nat2Z.inj_succ, Z.pow_succ_r; lia).
    assert (Hfuel' : (0 < fuel)%nat).
    { destruct fuel; [ | lia ]. simpl in Hn. lia. }
    destruct (IH (n / 10) (digit_char (n mod 10) :: acc))
      as (k & Hk & Heq); [ | done | ].
    { split; [ apply Z.div_pos; lia | ].
      apply Z.div_lt_upper_bound; lia. }
    exists (k + 1). split; [ lia | ]. intros v c. rewrite Heq. simpl.
    assert (Hmod : 0 <= n mod 10 < 10) by (apply Z.mod_pos_bound; lia).
    rewrite digit_char_digit, digit_char_value by done.
    rewrite Z.pow_add_r, Z.pow_1_r by lia.
    pose proof (Z.div_mod n 10 ltac:(lia)) as Hdm.
    f_equal; [ | lia ]. lia.
Qed.

Lemma take_digits_digits (n : Z) :
  0 <= n -> exists k, 0 < k /\ take_digits (digits n) 0 0 = (n, k, []).
Proof.
  intros Hn. unfold digits.
  destruct (take_digits_fuel (S (Z.to_nat (Z.log2 n))) n []) as (k & Hk & Heq);
    [ | lia | ].
  - split; [ done | ].
    destruct (Z.eq_dec n 0) as [-> | Hnz]; [ done | ].
    pose proof (Z.log2_nonneg n) as Hlog.
    rewrite Nat2Z.inj_succ, Z2Nat.id by done.
    apply Z.lt_le_trans with (2 ^ Z.succ (Z.log2 n)).
    + apply Z.log2_spec. lia.
    + apply Z.pow_le_mono_l. lia.
  - exists k. split; [ done | ]. rewrite Heq. simpl. done.
Qed.

(** Rounding a mantissa of 54 bits whose last bit is zero is exact. *)
Lemma round_exact (s : bool) (m : positive) (e : Z) :
  digits2_pos m = 53%positive -> -1074 < e <= 971 ->
  binary_round_aux prec emax s (Zpos m~0) (e - 1) loc_Exact
  = S754_finite s m e.
Proof.
  intros Hd He. unfold binary_round_aux.
  assert (Hshift : shr_fexp prec emax (Zpos m~0) (e - 1) loc_Exact =
                   ({| shr_m := Zpos m; shr_r := false; shr_s := false |}, e)).
  { unfold shr_fexp.
    change (Zdigits2 (Zpos m~0)) with (Zpos (Pos.succ (digits2_pos m))).
    rewrite Hd.
    replace (fexp prec emax (Zpos (Pos.succ 53) + (e - 1)) - (e - 1)) with 1
      by (unfold fexp, emin, prec, emax; lia).
    simpl. f_equal. lia. }
  rewrite Hshift. cbn [shr_m loc_of_shr_record round_nearest_even].
  assert (Hkeep : shr_fexp prec emax (Zpos m) e loc_Exact =
                  ({| shr_m := Zpos m; shr_r := false; shr_s := false |}, e)).
  { unfold shr_fexp.
    change (Zdigits2 (Zpos m)) with (Zpos (digits2_pos m)). rewrite Hd.
    replace (fexp prec emax (53 + e) - e) with 0
      by (unfold fexp, emin, prec, emax; lia).
    reflexivity. }
  rewrite Hkeep. cbn [shr_m].
  by replace (e <=? emax - prec) with true by (unfold emax, prec; lia).
Qed.

(** The correctly rounded quotient of an integer below 2^53 by one is
    the integer. *)
Lemma of_ratio_int (neg : bool) (a : Z) :
  0 < a < 2 ^ 53 ->
  of_ratio neg a 1
  = S754_finite neg (Z.to_pos (Z.shiftl a (53 - (Z.log2 a + 1))))
                (Z.log2 a + 1 - 53).
Proof.
  intros Ha. unfold of_ratio.
  destruct (Z.eqb_spec a 0) as [ | _ ]; [ lia | ].
  pose proof (Z.log2_nonneg a) as Hlog.
  assert (Hlog' : Z.log2 a < 53) by (apply Z.log2_lt_pow2; lia).
  set (d := Z.log2 a + 1) in *.
  assert (Hdig : Zdigits2 a = d).
  { destruct a as [ | p | p ]; [ lia | | lia ].
    change (Zdigits2 (Zpos p)) with (Zpos (digits2_pos p)).
    by rewrite digits2_log2. }
  assert (Hm : 2 ^ 52 <= Z.shiftl a (53 - d) < 2 ^ 53).
  { assert (Hl : Z.log2 (Z.shiftl a (53 - d)) = 52)
      by (rewrite Z.log2_shiftl by lia; lia).
    assert (Hpos : 0 < Z.shiftl a (53 - d))
      by (rewrite Z.shiftl_mul_pow2 by lia; apply Z.mul_pos_pos; lia).
    pose proof (Z.log2_spec _ Hpos) as Hspec. rewrite Hl in Hspec.
    exact Hspec. }
  set (M := Z.to_pos (Z.shiftl a (53 - d))).
  assert (HM : Zpos M = Z.shiftl a (53 - d)) by (unfold M; lia).
  assert (Hcore : SFdiv_core_binary prec emax a 0 1 0
                  = (Zpos M~0, d - 53 - 1, loc_Exact)).
  { unfold SFdiv_core_binary. rewrite Hdig.
    change (Zdigits2 1) with 1.
    replace (fexp prec emax (d + 0 - (1 + 0))) with (d - 54)
      by (unfold fexp, emin, prec, emax; lia).
    replace (Z.min (d - 54) (0 - 0)) with (d - 54) by lia.
    replace (0 - 0 - (d - 54)) with (54 - d) by lia.
    assert (Hshl : match 54 - d with
                   | Zpos _ => Z.shiftl a (54 - d)
                   | 0 => a
                   | Zneg _ => 0
                   end = Zpos M~0).
    { destruct (54 - d) as [ | q | q ] eqn:Hq; [ lia | | lia ].
      rewrite <- Hq. rewrite Z.shiftl_mul_pow2 in HM |- * by lia.
      replace (54 - d) with (Z.succ (53 - d)) by lia.
      rewrite Z.pow_succ_r by lia. lia. }
    rewrite Hshl. rewrite div_eucl_div_mod, Z.div_1_r, Z.mod_1_r.
    f_equal. f_equal. lia. }
  rewrite Hcore. apply round_exact; [ | lia ].
  apply digits2_53. done.
Qed.

(** [parseFloat(String(n))] is [Number(n)] for an integer below 2^53 in
    magnitude. *)
Lemma parseFloat_dec (n : Z) :
  Z.abs n < 2 ^ 53 -> parseFloat (dec n) = of_BigInt n.
Proof.
  intros Hn.
  assert (Hread : forall (neg : bool) (a : Z), 0 <= a < 2 ^ 53 ->
            (let '(ip, ni, s2) := take_digits (digits a) 0 0 in
             let '(m, nf, s3) :=
               match s2 with
               | c :: r =>
                   if Ascii.eqb c "." then take_digits r ip 0 else (ip, 0, s2)
               | [] => (ip, 0, s2)
               end in
             if ni + nf =? 0 then S754_nan
             else of_decimal neg m (take_exponent s3 - nf))
            = if a =? 0 then S754_zero neg
              else S754_finite neg
                     (Z.to_pos (Z.shiftl a (53 - (Z.log2 a + 1))))
                     (Z.log2 a + 1 - 53)).
  { intros neg a Ha.
    destruct (take_digits_digits a) as (k & Hk & ->); [ lia | ].
    replace (k + 0 =? 0) with false by lia.
    unfold of_decimal. simpl take_exponent. cbn [Z.sub Z.opp Z.add Z.leb Z.compare].
    rewrite Z.mul_1_r.
    destruct (Z.eqb_spec a 0) as [-> | Hnz]; [ done | ].
    apply of_ratio_int. lia. }
  unfold parseFloat, dec, of_BigInt.
  destruct (Z.ltb_spec n 0) as [Hneg | Hpos].
  - destruct (digits_shape (- n)) as (d & ds & Hdig & Hd & _); [ lia | ].
    change (trimStart ("-"%char :: ?r)) with ("-"%char :: r).
    cbn [take_sign]. change (Ascii.eqb "-" "-") with true. cbn iota.
    assert (Hinf : starts_with (T "Infinity") (digits (- n)) = false).
    { rewrite Hdig. change (T "Infinity") with ("I"%char :: T "nfinity").
      cbn [starts_with].
      by rewrite (proj2 (digit_char_other d "I" Hd eq_refl)). }
    rewrite Hinf, (Hread true (- n)) by lia.
    replace (Z.abs n) with (- n) by lia.
    destruct (Z.eqb_spec n 0) as [ | _ ]; [ lia | ].
    destruct (Z.eqb_spec (- n) 0) as [ | _ ]; [ lia | ].
    pose proof (Z.log2_nonneg (- n)).
    assert (Z.log2 (- n) < 53) by (apply Z.log2_lt_pow2; lia).
    by replace (Z.log2 (- n) + 1 <=? 53) with true by lia.
  - destruct (digits_shape n Hpos) as (d & ds & Hdig & Hd & _).
    assert (Hts : trimStart (digits n) = digits n).
    { rewrite Hdig. cbn [trimStart]. by rewrite digit_char_not_space. }
    assert (Hsign : take_sign (digits n) = (false, digits n)).
    { rewrite Hdig. cbn [take_sign].
      rewrite (proj1 (digit_char_other d "-" Hd eq_refl)).
      by rewrite (proj1 (digit_char_other d "+" Hd eq_refl)). }
    assert (Hinf : starts_with (T "Infinity") (digits n) = false).
    { rewrite Hdig. change (T "Infinity") with ("I"%char :: T "nfinity").
      cbn [starts_with].
      by rewrite (proj2 (digit_char_other d "I" Hd eq_refl)). }
    rewrite Hts, Hsign, Hinf, (Hread false n) by lia.
    replace (Z.abs n) with n by lia.
    destruct (Z.eqb_spec n 0) as [ | Hnz ]; [ done | ].
    pose proof (Z.log2_nonneg n).
    assert (Z.log2 n < 53) by (apply Z.log2_lt_pow2; lia).
    by replace (Z.log2 n + 1 <=? 53) with true by lia.
Qed.

End ParseFloatFacts.
(* ===================================================================== *)
(** * The checkpoint file: [saveProgress] and [loadProgress] *)
(* ===================================================================== *)

Module ProgressExtra.
Import Json JsonFacts Chain Rpc Append Ingest.

Lemma of_BigInt_whole (n : Z) :
  Z.abs n < 2 ^ 53 -> Num.is_whole (Num.of_BigInt n) = true.
Proof.
  intros Hn. destruct (Z.eq_dec n 0) as [-> | Hnz]; [ done | ].
  destruct (NumFacts.of_BigInt_shape n Hnz) as (m & e & -> & _ & _ & Hw);
    [ | done ].
  apply Z.lt_trans with (2 ^ 53); [ done | ]. by apply Z.pow_lt_mono_r.
Qed.

(** The checkpoint that a number literal written by [String(n)] gives. *)
Lemma checkpoint_of_dec (n : Z) (before after : list (text * json)) :
  Z.abs n < 2 ^ 53 ->
  get_member (T "lastProcessedBlock") after = None ->
  checkpoint_of
    (JObj (before ++ (T "lastProcessedBlock", JNum (JS.dec n)) :: after))
  = CheckpointAt n.
Proof.
  intros Hn Hafter. unfold checkpoint_of.
  assert (Hget : get_member (T "lastProcessedBlock")
                   (before ++ (T "lastProcessedBlock", JNum (JS.dec n)) :: after)
                 = Some (JNum (JS.dec n))).
  { induction before as [ | [k v] before IH ]; cbn [app get_member].
    - rewrite Hafter.
      by rewrite (proj2 (AppendFacts.text_eqb_eq _ _) eq_refl).
    - by rewrite IH. }
  rewrite Hget, ParseFloatFacts.parseFloat_dec by done.
  by rewrite of_BigInt_whole, NumFacts.of_BigInt_exact.
Qed.

Section Progress.
Variable toISOString : Z -> text.
Variable cfg : Config.

(** What [loadProgress] reads after [saveProgress]. *)
Lemma loadProgress_saved (b t : Z) (st : State) :
  loadProgress cfg (disk (saveProgress toISOString cfg b t st))
  = JObj [ (T "lastProcessedBlock", JNum (JS.dec b));
           (T "totalSwaps", JNum (JS.dec t));
           (T "timestamp", JStr (toISOString (clock (world st))));
           (T "startBlock", JNum (JS.dec (START_BLOCK cfg)));
           (T "endBlock", JNum (JS.dec (END_BLOCK cfg))) ].
Proof.
  unfold loadProgress, saveProgress, Fs.existsSync, Fs.readFileSync,
    Fs.writeFileSync.
  cbn [disk log with_disk]. rewrite lookup_insert_eq.
  unfold stringify2. rewrite parse_stringify_at; [ done | done | ].
  cbn [wf forallb snd]. by rewrite !DecFacts.dec_valid.
Qed.

(** X4. Saving and loading the checkpoint is a round trip.  After
    [saveProgress(b, t)], [loadProgress()] returns the object that was
    saved, member for member, and the block read from it is [b], for
    every block number below 2^53 in magnitude; nothing but the
    checkpoint file is written. *)
Theorem saveProgress_loadProgress (b t : Z) (st : State) :
  Z.abs b < 2 ^ 53 ->
  let st' := saveProgress toISOString cfg b t st in
  loadProgress cfg (disk st')
  = JObj [ (T "lastProcessedBlock", JNum (JS.dec b));
           (T "totalSwaps", JNum (JS.dec t));
           (T "timestamp", JStr (toISOString (clock (world st))));
           (T "startBlock", JNum (JS.dec (START_BLOCK cfg)));
           (T "endBlock", JNum (JS.dec (END_BLOCK cfg))) ] /\
  checkpoint_of (loadProgress cfg (disk st')) = CheckpointAt b /\
  (forall path, path <> PROGRESS_FILE -> disk st' !! path = disk st !! path).
Proof.
  intros Hb st'.
  pose proof (loadProgress_saved b t st) as Hload. fold st' in Hload.
  split; [ exact Hload | ]. split.
  - rewrite Hload. by apply (checkpoint_of_dec b []).
  - intros path Hpath. unfold st', saveProgress, Fs.writeFileSync.
    cbn [disk log with_disk]. by rewrite lookup_insert_ne.
Qed.

(** X5. Without a checkpoint file, or with one that [JSON.parse]
    rejects, [loadProgress] falls back to the block before
    [START_BLOCK]: the scan starts again at [START_BLOCK]. *)
Theorem loadProgress_fallback (d : gmap string text) :
  Z.abs (START_BLOCK cfg - 1) < 2 ^ 53 ->
  d !! PROGRESS_FILE = None \/
  (exists data, d !! PROGRESS_FILE = Some data /\ parse data = None) ->
  checkpoint_of (loadProgress cfg d) = CheckpointAt (START_BLOCK cfg - 1) /\
  startFromBlock cfg (START_BLOCK cfg - 1) = START_BLOCK cfg.
Proof.
  intros Hb Hd. split; [ | unfold startFromBlock; lia ].
  assert (Hload : loadProgress cfg d
    = JObj [ (T "lastProcessedBlock", JNum (JS.dec (START_BLOCK cfg - 1)));
             (T "totalSwaps", JNum (T "0")) ]).
  { unfold loadProgress, Fs.existsSync, Fs.readFileSync.
    destruct Hd as [-> | (data & -> & ->)]; done. }
  rewrite Hload. by apply (checkpoint_of_dec _ []).
Qed.

End Progress.

Definition a_state : State :=
  {| disk := ∅; manager := create [] 0;
     world := {| clock := 0; network := []; slept := [] |}; events := [] |}.

Lemma saveProgress_loadProgress_witness :
  checkpoint_of
    (loadProgress source_config
       (disk (saveProgress (fun _ => T "2025-01-01T00:00:00.000Z")
                source_config 20237848 12 a_state)))
  = CheckpointAt 20237848.
Proof.
  apply (fun H =>
           proj1 (proj2 (saveProgress_loadProgress
                           (fun _ => T "2025-01-01T00:00:00.000Z")
                           source_config 20237848 12 a_state H))).
  reflexivity.
Defined.

Lemma loadProgress_fallback_witness :
  checkpoint_of (loadProgress source_config (<[PROGRESS_FILE := T "{"]> ∅))
    = CheckpointAt (START_BLOCK source_config - 1) /\
  startFromBlock source_config (START_BLOCK source_config - 1)
    = START_BLOCK source_config.
Proof.
  apply (loadProgress_fallback source_config (<[PROGRESS_FILE := T "{"]> ∅)).
  - reflexivity.
  - right. exists (T "{"). split; [ apply lookup_insert_eq | reflexivity ].
Defined.

End ProgressExtra.
(* ===================================================================== *)
(** * More on the endpoint selector and the retry loop *)
(* ===================================================================== *)

Module RpcExtra.
Import Chain Rpc RpcSpec.

(** ** The cursor goes round the pool *)

Lemma moves_fields (k : nat) (m : RPCManager) :
  rpcUrls (Nat.iter k moveToNextRpc m) = rpcUrls m /\
  failedRpcs (Nat.iter k moveToNextRpc m) = failedRpcs m /\
  provider (Nat.iter k moveToNextRpc m) = provider m /\
  lastFailResetTime (Nat.iter k moveToNextRpc m) = lastFailResetTime m /\
  failResetInterval (Nat.iter k moveToNextRpc m) = failResetInterval m.
Proof.
  induction k as [ | k IH ]; [ done | ]. simpl. exact IH.
Qed.

Lemma moves_index (k : nat) (m : RPCManager) :
  (currentIndex m < length (rpcUrls m))%nat ->
  currentIndex (Nat.iter k moveToNextRpc m)
  = ((currentIndex m + k) mod length (rpcUrls m))%nat.
Proof.
  intros Hin. induction k as [ | k IH ].
  - simpl. rewrite Nat.add_0_r. by rewrite Nat.mod_small.
  - simpl. rewrite IH.
    destruct (moves_fields k m) as (-> & _).
    rewrite Nat.Div0.add_mod_idemp_l. f_equal. lia.
Qed.

(** As many moves as the pool has endpoints bring the cursor back. *)
Lemma moves_round (m : RPCManager) :
  in_range m -> Nat.iter (length (rpcUrls m)) moveToNextRpc m = m.
Proof.
  intros [Hempty | Hin].
  - by rewrite Hempty.
  - pose proof (moves_index (length (rpcUrls m)) m Hin) as Hi.
    destruct (moves_fields (length (rpcUrls m)) m) as (H1 & H2 & H3 & H4 & H5).
    replace (currentIndex m + length (rpcUrls m))%nat
      with (currentIndex m + 1 * length (rpcUrls m))%nat in Hi by lia.
    rewrite Nat.Div0.mod_add, Nat.mod_small in Hi by done.
    destruct (Nat.iter (length (rpcUrls m)) moveToNextRpc m), m.
    simpl in *. by subst.
Qed.

Lemma probe_loop_all_failed (k : nat) (m : RPCManager) (w : World) :
  (currentIndex m < length (rpcUrls m))%nat ->
  (forall u, u ∈ rpcUrls m -> u ∈ failedRpcs m) ->
  probe_loop k m w = (inl ALL_FAILED, Nat.iter k moveToNextRpc m, w).
Proof.
  revert m. induction k as [ | k IH ]; intros m Hin Hall; [ done | ].
  cbn [probe_loop].
  destruct (rpcUrls m !! currentIndex m) as [url | ] eqn:Hurl;
    [ | by apply lookup_ge_None in Hurl; lia ].
  rewrite bool_decide_eq_true_2
    by (apply Hall, list_elem_of_lookup; eauto).
  rewrite IH; [ by rewrite Nat.iter_succ_r | | done ].
  simpl. apply Nat.mod_upper_bound. lia.
Qed.

(** X6. When every endpoint of the pool is marked failed and the reset
    is not due, [getWorkingProvider] throws the all-endpoints error
    without sending a request: the network and the clock are as they
    were, and so is the selector, whose cursor has gone once round the
    pool and is back where it was. *)
Theorem getWorkingProvider_all_marked (m : RPCManager) (w : World) :
  in_range m ->
  (forall u, u ∈ rpcUrls m -> u ∈ failedRpcs m) ->
  clock w - lastFailResetTime m <= failResetInterval m ->
  getWorkingProvider m w = (inl ALL_FAILED, m, w).
Proof.
  intros Hm Hall Hclock. unfold getWorkingProvider, resetFailed.
  replace (failResetInterval m <? clock w - lastFailResetTime m)
    with false by lia.
  destruct Hm as [Hempty | Hin].
  - by rewrite Hempty.
  - rewrite probe_loop_all_failed by done.
    rewrite moves_round; [ done | by right ].
Qed.

Definition both_marked : RPCManager :=
  markFailed "https://ethereum-rpc.publicnode.com"
    (markFailed "https://mainnet.infura.io/v3/56556dffb0ac4198bc99d7459f7db0ba"
       (create (Ingest.RPC_URL Ingest.source_config) 0)).

Lemma getWorkingProvider_all_marked_witness :
  getWorkingProvider both_marked (answering 5000)
  = (inl ALL_FAILED, both_marked, answering 5000).
Proof.
  apply (getWorkingProvider_all_marked both_marked (answering 5000)).
  - right. simpl. lia.
  - intros u Hu. unfold both_marked. simpl in *.
    apply elem_of_cons in Hu as [-> | Hu];
      [ by apply elem_of_union_r, elem_of_union_l, elem_of_singleton | ].
    apply elem_of_cons in Hu as [-> | Hu];
      [ by apply elem_of_union_l, elem_of_singleton | ].
    by apply elem_of_nil in Hu.
  - simpl. lia.
Defined.

(** ** The retry loop *)

(** X7. [executeWithRetry] evaluates to [undefined] exactly when it is
    called with no attempt allowed ([maxRetries] 0): the loop body is
    then skipped, nothing is requested and the selector is untouched.
    With one attempt or more, each round of the loop ends in a return,
    a throw or the recursive call, so that the value the callers use
    ([logs.length] in [main]) is never read from [undefined]. *)
Theorem executeWithRetry_undefined_iff {A : Type}
    (operation : string -> World -> (string + A) * World)
    (fuel maxRetries : nat) (m : RPCManager) (w : World) :
  (fst (fst (executeWithRetry operation (S fuel) maxRetries m w))
     = ReturnedUndefined <-> maxRetries = 0%nat) /\
  (maxRetries = 0%nat ->
   executeWithRetry operation (S fuel) maxRetries m w
     = (ReturnedUndefined, m, w)).
Proof.
  split; [ split | ].
  - intros Hund. destruct maxRetries as [ | n ]; [ done | ].
    by destruct (RetryFacts.executeWithRetry_defined operation (S fuel) (S n)
                   m w ltac:(lia)).
  - by intros ->.
  - by intros ->.
Qed.

Lemma executeWithRetry_undefined_iff_witness :
  executeWithRetry fetch 1 0 fresh_manager dead_network
  = (ReturnedUndefined, fresh_manager, dead_network).
Proof.
  apply (proj2 (executeWithRetry_undefined_iff fetch 0 0 fresh_manager
                  dead_network)).
  reflexivity.
Defined.

(** ** A network that answers nothing *)

Lemma getBlockNumber_dead (w : World) :
  network w = [] -> exists msg, getBlockNumber w = (inl msg, w).
Proof.
  intros Hdead. unfold getBlockNumber, request. rewrite Hdead. eauto.
Qed.

Lemma probe_loop_dead (k : nat) (m : RPCManager) (w : World) :
  (currentIndex m < length (rpcUrls m))%nat -> network w = [] ->
  exists m', probe_loop k m w = (inl ALL_FAILED, m', w) /\ in_range m'.
Proof.
  revert m. induction k as [ | k IH ]; intros m Hin Hdead.
  - exists m. split; [ done | by right ].
  - cbn [probe_loop].
    destruct (rpcUrls m !! currentIndex m) as [url | ] eqn:Hurl;
      [ | by apply lookup_ge_None in Hurl; lia ].
    assert (Hnext : forall m2, rpcUrls m2 = rpcUrls m ->
              (currentIndex (moveToNextRpc m2)
               < length (rpcUrls (moveToNextRpc m2)))%nat).
    { intros m2 Hu. simpl. rewrite Hu. apply Nat.mod_upper_bound. lia. }
    destruct (bool_decide (url ∈ failedRpcs m)).
    + apply IH; [ by apply Hnext | done ].
    + destruct (getBlockNumber_dead w Hdead) as (msg & ->).
      apply IH; [ by apply Hnext | done ].
Qed.

Lemma getWorkingProvider_dead (m : RPCManager) (w : World) :
  in_range m -> network w = [] ->
  exists m', getWorkingProvider m w = (inl ALL_FAILED, m', w) /\ in_range m'.
Proof.
  intros Hm Hdead. unfold getWorkingProvider.
  set (m0 := resetFailed (clock w) m).
  assert (Hm0 : in_range m0) by (unfold m0, resetFailed; by destruct (_ <? _)).
  destruct Hm0 as [Hempty | Hin].
  - rewrite Hempty. exists m0. split; [ done | by left ].
  - by apply probe_loop_dead.
Qed.

Section Dead.
Context {A : Type}.
Variable operation : string -> World -> (string + A) * World.

Lemma attempts_dead restart maxRetries k :
  (forall m w, in_range m -> network w = [] ->
               fst (fst (restart m w)) = OutOfFuel) ->
  forall attempt m w,
    (attempt + k = S maxRetries)%nat -> (0 < k)%nat ->
    in_range m -> network w = [] ->
    fst (fst (attempts operation restart maxRetries k attempt m w))
    = OutOfFuel.
Proof.
  intros Hrestart. induction k as [ | k IH ];
    intros attempt m w Hsum Hk Hm Hdead; [ lia | ].
  cbn [attempts]. rewrite (proj2 (Nat.ltb_ge maxRetries attempt)) by lia.
  unfold attempt_once.
  destruct (getWorkingProvider_dead m w Hm Hdead) as (m' & -> & Hm').
  destruct (Nat.eqb_spec attempt maxRetries) as [Hlast | Hmore].
  - change (JS.includes ALL_FAILED "All RPCs failed") with true. cbv iota.
    by apply Hrestart.
  - apply IH; [ lia | lia | apply giveUpOnCurrent_in_range | done ].
Qed.

(** X8. When no endpoint answers any more, [executeWithRetry] neither
    returns nor throws: every round of attempts ends with the error of
    the exhausted pool, the 30 s sleep and a new call, without end (the
    model runs out of fuel, whatever fuel it is given).  The callback is
    not what decides: this holds for every callback. *)
Theorem executeWithRetry_dead_network (fuel maxRetries : nat)
    (m : RPCManager) (w : World) :
  (0 < maxRetries)%nat -> in_range m -> network w = [] ->
  fst (fst (executeWithRetry operation fuel maxRetries m w)) = OutOfFuel.
Proof.
  intros Hmax. revert m w. induction fuel as [ | fuel IH ]; intros m w Hm Hdead;
    [ done | ].
  cbn [executeWithRetry].
  apply attempts_dead; [ | lia | lia | done | done ].
  intros m' w' Hm' Hdead'. by apply IH.
Qed.

End Dead.

Lemma executeWithRetry_dead_network_witness :
  fst (fst (executeWithRetry fetch 5 3 fresh_manager dead_network))
  = OutOfFuel.
Proof.
  apply (executeWithRetry_dead_network fetch 5 3 fresh_manager dead_network).
  - lia.
  - apply create_in_range.
  - reflexivity.
Defined.

End RpcExtra.
(* ===================================================================== *)
(** * Invariants of a run of the ingestor *)
(* ===================================================================== *)

Module IngestExtra.
Import Json JsonFacts Chain Rpc Append Ingest.

(** The output file holds the records [xs]: it is absent and there is
    none, or it parses to the array of them. *)
Definition holds (d : gmap string text) (xs : list json) : Prop :=
  (d !! OUTPUT_FILE = None /\ xs = []) \/
  (exists raw, d !! OUTPUT_FILE = Some raw /\ parse raw = Some (JArr xs)).

Definition no_append_failed (evs : list Event) : Prop :=
  Forall (fun e => forall a b, e <> AppendFailed a b) evs.

(** The number of records that the run reports as appended. *)
Fixpoint appended_total (evs : list Event) : nat :=
  match evs with
  | [] => 0
  | Appended _ _ n :: rest => n + appended_total rest
  | _ :: rest => appended_total rest
  end.

(** The blocks written to the checkpoint file, first one first. *)
Definition saved (evs : list Event) : list Z :=
  rev (omap (fun e => match e with
                      | SavedProgress b _ => Some b
                      | _ => None
                      end) evs).

Lemma appendSwapsToFile_holds (news xs : list json) (d : gmap string text) :
  holds d xs -> forallb wf news = true ->
  exists d', appendSwapsToFile news d = (true, d') /\ holds d' (xs ++ news).
Proof.
  intros Hd Hwf. destruct news as [ | v l ].
  { exists d. rewrite app_nil_r. done. }
  destruct Hd as [[Hnone ->] | (raw & Hraw & Hparse)].
  - eexists. split.
    + unfold appendSwapsToFile, append_try, Fs.existsSync.
      cbn [is_nil]. by rewrite Hnone.
    + right. eexists. split; [ apply lookup_insert_eq | ].
      by apply (parse_stringify_at (T "  ") (JArr (v :: l))).
  - destruct (AppendSpec.appendSwapsToFile_parse (v :: l) xs raw d
                Hraw Hparse Hwf) as (d' & raw' & Happ & Hd' & Hp').
    exists d'. split; [ done | ]. right. eauto.
Qed.

Lemma holds_other (d d' : gmap string text) (xs : list json) :
  d' !! OUTPUT_FILE = d !! OUTPUT_FILE -> holds d xs -> holds d' xs.
Proof. unfold holds. by intros ->. Qed.

Section Runs.
Variable formatUnits : Z -> Z -> text.
Variable toISOString : Z -> text.
Variable cfg : Config.

Abbreviation scan := (Ingest.scan formatUnits toISOString cfg).
Abbreviation main := (Ingest.main formatUnits toISOString cfg).
Abbreviation decodeAll := (Ingest.decodeAll formatUnits toISOString cfg).
Abbreviation saveProgress := (Ingest.saveProgress toISOString cfg).
Abbreviation onFetchError := (Ingest.onFetchError toISOString cfg).

(** The loop over the logs of a chunk leaves the disk alone and reports
    nothing but the logs it could not decode. *)
Lemma decodeAll_state (fuel : nat) (logs : list Log)
    (chunkSwaps : list json) (st : State) :
  let r := decodeAll fuel logs chunkSwaps st in
  disk r.2 = disk st /\
  exists errs, events r.2 = errs ++ events st /\
               Forall (fun e => exists b, e = ParseError b) errs.
Proof.
  revert chunkSwaps st.
  induction logs as [ | l logs IH ]; intros chunkSwaps st; simpl.
  { split; [ done | ]. by exists []. }
  destruct (executeWithRetry _ fuel 3 (manager st) (world st))
    as [[[v | | msg | ] m] w]; simpl.
  - apply (IH _ (with_rpc m w st)).
  - apply (IH _ (with_rpc m w st)).
  - destruct (IH chunkSwaps (log (ParseError (blockNumber l)) (with_rpc m w st)))
      as (Hd & errs & He & Herrs).
    split; [ done | ]. exists (errs ++ [ParseError (blockNumber l)]).
    split; [ by rewrite He, <- app_assoc | ].
    apply Forall_app. split; [ done | ]. repeat constructor. eauto.
  - split; [ done | ]. by exists [].
Qed.

Lemma errs_saved (errs evs : list Event) :
  Forall (fun e => exists b, e = ParseError b) errs ->
  saved (errs ++ evs) = saved evs /\
  appended_total (errs ++ evs) = appended_total evs /\
  (no_append_failed evs -> no_append_failed (errs ++ evs)).
Proof.
  induction 1 as [ | e errs [b ->] _ IH ]; [ done | ].
  destruct IH as (H1 & H2 & H3). unfold saved in *. simpl.
  split; [ done | ]. split; [ done | ].
  intros Hevs. constructor; [ done | by apply H3 ].
Qed.

Lemma saveProgress_disk (b t : Z) (st : State) (path : string) :
  path <> PROGRESS_FILE ->
  disk (saveProgress b t st) !! path = disk st !! path.
Proof.
  intros Hpath. unfold Ingest.saveProgress, Fs.writeFileSync.
  cbn [disk log with_disk]. by rewrite lookup_insert_ne.
Qed.

(** ** The files a run touches *)

Lemma scan_frame (fuel : nat) (existingSwapCount fromBlock total : Z)
    (st : State) (path : string) :
  path <> OUTPUT_FILE -> path <> tempFile -> path <> PROGRESS_FILE ->
  disk (scan fuel existingSwapCount fromBlock total st).2 !! path
  = disk st !! path.
Proof.
  intros Hout Htemp Hprog. revert fromBlock total st.
  induction fuel as [ | fuel IH ]; intros fromBlock total st; simpl;
    [ done | ].
  destruct (END_BLOCK cfg <? fromBlock); [ done | ].
  destruct (executeWithRetry _ fuel 3 _ _) as [[[logs | | msg | ] m] w].
  - pose proof (decodeAll_state fuel logs []
                  (with_rpc m w (log (Processing fromBlock
                     (toBlockOf cfg fromBlock)) st))) as [Hdisk _].
    destruct (Ingest.decodeAll _ _ _ _ _ _ _) as [[chunkSwaps | ] st1];
      simpl in Hdisk; [ | simpl; by rewrite Hdisk ].
    pose proof (AppendExtra.appendSwapsToFile_others
                  chunkSwaps (disk st1) path Hout Htemp) as Happ.
    destruct (appendSwapsToFile chunkSwaps (disk st1)) as [[ | ] d];
      simpl in Happ.
    + rewrite IH. cbn [disk with_rpc log].
      rewrite saveProgress_disk by done. cbn [disk with_disk].
      by rewrite Happ, Hdisk.
    + simpl. by rewrite Happ, Hdisk.
  - rewrite IH. unfold Ingest.onFetchError. cbn [disk with_rpc log].
    by rewrite saveProgress_disk.
  - rewrite IH. unfold Ingest.onFetchError. cbn [disk with_rpc log].
    by rewrite saveProgress_disk.
  - done.
Qed.

Lemma cleanUp_disk (st : State) :
  disk (cleanUp st) = delete PROGRESS_FILE (disk st).
Proof.
  unfold cleanUp, Fs.existsSync, Fs.unlinkSync. simpl.
  destruct (disk st !! PROGRESS_FILE) eqn:Hp; simpl; [ done | ].
  by rewrite delete_id.
Qed.

(** X9. A run of [main] reads and writes three paths only, the output
    file, its temporary file and the checkpoint file: every other file
    of the disk is as it was when the run stops, however it stops.  And
    a run that reaches the end of [main] leaves no checkpoint file,
    whatever happened in the loop. *)
Theorem main_footprint (fuel : nat) (d : gmap string text) (w : World) :
  (forall path,
      path <> OUTPUT_FILE -> path <> tempFile -> path <> PROGRESS_FILE ->
      disk (main fuel d w).2 !! path = d !! path) /\
  ((main fuel d w).1 = Finished ->
   disk (main fuel d w).2 !! PROGRESS_FILE = None).
Proof.
  unfold Ingest.main.
  set (st := {| disk := d; manager := create (RPC_URL cfg) (clock w);
                world := w; events := [] |}).
  destruct (checkpoint_of (loadProgress cfg d)) as [ | | b ].
  - split; [ done | done ].
  - cbn [fst snd]. rewrite cleanUp_disk. split.
    + intros path _ _ Hp. by rewrite lookup_delete_ne.
    + intros _. apply lookup_delete_eq.
  - pose proof (scan_frame fuel (getExistingSwapCount d)
                  (startFromBlock cfg b) 0 st) as Hframe.
    destruct (Ingest.scan _ _ _ _ _ _ _ _) as [[ | msg | ] st'];
      cbn [fst snd] in *.
    + rewrite cleanUp_disk. split.
      * intros path Ho Ht Hp. rewrite lookup_delete_ne by done.
        by apply Hframe.
      * intros _. apply lookup_delete_eq.
    + split; [ | done ]. intros path Ho Ht Hp. by apply Hframe.
    + split; [ | done ]. intros path Ho Ht Hp. by apply Hframe.
Qed.

(** ** The records in the output file *)

Lemma scan_holds (fuel : nat) (existingSwapCount : Z) :
  forall (fromBlock total : Z) (st : State) (xs : list json),
    holds (disk st) xs -> no_append_failed (events st) ->
    let r := scan fuel existingSwapCount fromBlock total st in
    exists added,
      holds (disk r.2) (xs ++ added) /\
      no_append_failed (events r.2) /\
      appended_total (events r.2)
      = (appended_total (events st) + length added)%nat.
Proof.
  induction fuel as [ | fuel IH ]; intros fromBlock total st xs Hd Hev; simpl.
  { exists []. rewrite app_nil_r. split; [ done | ]. split; [ done | simpl; lia ]. }
  destruct (END_BLOCK cfg <? fromBlock).
  { exists []. rewrite app_nil_r. split; [ done | ]. split; [ done | simpl; lia ]. }
  set (st0 := log (Processing fromBlock (toBlockOf cfg fromBlock)) st).
  assert (Hev0 : no_append_failed (events st0)) by (by constructor).
  assert (Hfail : forall msg m w,
    let r := scan fuel existingSwapCount (fromBlock + CHUNK_SIZE cfg) total
               (onFetchError fromBlock msg existingSwapCount total
                  (with_rpc m w st0)) in
    exists added,
      holds (disk r.2) (xs ++ added) /\
      no_append_failed (events r.2) /\
      appended_total (events r.2)
      = (appended_total (events st) + length added)%nat).
  { intros msg m w.
    apply (IH _ _ (onFetchError fromBlock msg existingSwapCount total
                     (with_rpc m w st0)) xs).
    - apply (holds_other (disk st)); [ | done ].
      unfold Ingest.onFetchError. cbn [disk with_rpc log].
      by rewrite saveProgress_disk.
    - unfold Ingest.onFetchError, Ingest.saveProgress. simpl.
      repeat (constructor; [ done | ]). done. }
  destruct (executeWithRetry _ fuel 3 _ _) as [[[logs | | msg | ] m] w].
  - pose proof (decodeAll_state fuel logs [] (with_rpc m w st0))
      as (Hdisk & errs & Hevs & Herrs).
    cbn [events disk with_rpc] in Hevs, Hdisk.
    pose proof (IngestFacts.decodeAll_wf formatUnits toISOString cfg
                  fuel logs [] (with_rpc m w st0)) as Hwf.
    destruct (Ingest.decodeAll _ _ _ _ _ _ _) as [[chunkSwaps | ] st1];
      cbn [fst snd] in *.
    + specialize (Hwf chunkSwaps st1 eq_refl eq_refl).
      destruct (errs_saved errs (events st0) Herrs) as (_ & Htot & Hnf).
      assert (Hd1 : holds (disk st1) xs) by (by rewrite Hdisk).
      destruct (appendSwapsToFile_holds chunkSwaps xs (disk st1) Hd1 Hwf)
        as (d' & -> & Hd').
      set (st3 := with_rpc _ _ _).
      destruct (IH (fromBlock + CHUNK_SIZE cfg)
                  (total + Z.of_nat (length chunkSwaps)) st3
                  (xs ++ chunkSwaps)) as (added & Ha & Hb & Hc).
      * apply (holds_other d'); [ | done ].
        unfold st3. cbn [disk with_rpc log].
        by rewrite saveProgress_disk.
      * unfold st3, Ingest.saveProgress. cbn [events with_rpc log with_disk].
        constructor; [ done | ]. constructor; [ done | ].
        rewrite Hevs. by apply Hnf.
      * exists (chunkSwaps ++ added). rewrite app_assoc.
        split; [ done | ]. split; [ done | ].
        rewrite Hc. unfold st3, Ingest.saveProgress.
        cbn [events with_rpc log with_disk appended_total].
        rewrite Hevs, Htot, length_app. simpl. lia.
    + exists []. rewrite app_nil_r. rewrite Hdisk, Hevs.
      destruct (errs_saved errs (events st0) Herrs) as (_ & Htot & Hnf).
      split; [ done | ]. split; [ by apply Hnf | ]. rewrite Htot. simpl. lia.
  - apply Hfail.
  - apply Hfail.
  - exists []. rewrite app_nil_r. split; [ done | ].
    split; [ done | simpl; lia ].
Qed.

(** X10. A run never loses, alters or reorders a record that is already
    in the output file, and on a disk whose output file is absent or
    holds a JSON array no append of the run fails, whatever the network
    does: when the run stops, however it stops, the file holds the old
    records followed by the new ones, and the number of new ones is the
    number that the run reported as appended. *)
Theorem main_keeps_records (fuel : nat) (d : gmap string text) (w : World)
    (olds : list json) :
  holds d olds ->
  exists added,
    holds (disk (main fuel d w).2) (olds ++ added) /\
    no_append_failed (events (main fuel d w).2) /\
    length added = appended_total (events (main fuel d w).2).
Proof.
  intros Hd. unfold Ingest.main.
  set (st := {| disk := d; manager := create (RPC_URL cfg) (clock w);
                world := w; events := [] |}).
  assert (Hclean : forall st' added,
            holds (disk st') (olds ++ added) ->
            no_append_failed (events st') ->
            appended_total (events st') = length added ->
            holds (disk (cleanUp st')) (olds ++ added) /\
            no_append_failed (events (cleanUp st')) /\
            length added = appended_total (events (cleanUp st'))).
  { intros st' added Hh Hn Hc. split.
    - apply (holds_other (disk st')); [ | done ].
      rewrite cleanUp_disk. by rewrite lookup_delete_ne.
    - unfold cleanUp. simpl.
      destruct (Fs.existsSync _ _); [ destruct (Fs.unlinkSync _ _) | ];
        simpl; (split; [ repeat (constructor; [ done | ]); done | done ]). }
  destruct (checkpoint_of (loadProgress cfg d)) as [ | | b ].
  - exists []. rewrite app_nil_r. split; [ done | ]. split; [ constructor | done ].
  - exists []. apply Hclean; [ by rewrite app_nil_r | constructor | done ].
  - destruct (scan_holds fuel (getExistingSwapCount d)
                (startFromBlock cfg b) 0 st olds Hd)
      as (added & Ha & Hb & Hc); [ constructor | ].
    exists added.
    destruct (Ingest.scan _ _ _ _ _ _ _ _) as [[ | msg | ] st'];
      cbn [fst snd] in *.
    + by apply Hclean.
    + done.
    + done.
Qed.

(** ** The checkpoints of a run *)

Lemma saved_cons (e : Event) (evs : list Event) :
  saved (e :: evs)
  = saved evs ++ match e with SavedProgress b _ => [b] | _ => [] end.
Proof. unfold saved. destruct e; simpl; by rewrite ?app_nil_r. Qed.

Lemma scan_saved (fuel : nat) (existingSwapCount : Z) :
  0 < CHUNK_SIZE cfg ->
  forall (fromBlock total : Z) (st : State),
    let r := scan fuel existingSwapCount fromBlock total st in
    exists new,
      saved (events r.2) = saved (events st) ++ new /\
      StronglySorted Z.le new /\
      Forall (fun x => fromBlock - 1 <= x <= END_BLOCK cfg) new.
Proof.
  intros Hsize.
  induction fuel as [ | fuel IH ]; intros fromBlock total st; simpl.
  { exists []. rewrite app_nil_r. repeat constructor. }
  destruct (Z.ltb_spec (END_BLOCK cfg) fromBlock) as [Hend | Hend].
  { exists []. rewrite app_nil_r. repeat constructor. }
  set (st0 := log (Processing fromBlock (toBlockOf cfg fromBlock)) st).
  assert (Hnext : forall (b : Z) total' st1,
    fromBlock - 1 <= b <= Z.min (fromBlock + CHUNK_SIZE cfg - 1) (END_BLOCK cfg) ->
    saved (events st1) = saved (events st) ++ [b] ->
    let r := scan fuel existingSwapCount (fromBlock + CHUNK_SIZE cfg)
               total' st1 in
    exists new,
      saved (events r.2) = saved (events st) ++ new /\
      StronglySorted Z.le new /\
      Forall (fun x => fromBlock - 1 <= x <= END_BLOCK cfg) new).
  { intros b total' st1 Hb Hst1.
    destruct (IH (fromBlock + CHUNK_SIZE cfg) total' st1)
      as (new & Hnew & Hsorted & Hbounds).
    exists (b :: new). cbv zeta. rewrite Hnew, Hst1, <- app_assoc.
    split; [ done | ]. split.
    - constructor; [ done | ].
      eapply Forall_impl; [ exact Hbounds | ]. simpl. lia.
    - constructor; [ lia | ].
      eapply Forall_impl; [ exact Hbounds | ]. simpl. lia. }
  assert (Hfail : forall msg m w,
    let r := scan fuel existingSwapCount (fromBlock + CHUNK_SIZE cfg) total
               (onFetchError fromBlock msg existingSwapCount total
                  (with_rpc m w st0)) in
    exists new,
      saved (events r.2) = saved (events st) ++ new /\
      StronglySorted Z.le new /\
      Forall (fun x => fromBlock - 1 <= x <= END_BLOCK cfg) new).
  { intros msg m w. apply (Hnext (fromBlock - 1)); [ lia | ].
    unfold Ingest.onFetchError, Ingest.saveProgress.
    cbn [events with_rpc log with_disk].
    rewrite !saved_cons. simpl. by rewrite !app_nil_r. }
  destruct (executeWithRetry _ fuel 3 _ _) as [[[logs | | msg | ] m] w].
  - pose proof (decodeAll_state fuel logs [] (with_rpc m w st0))
      as (_ & errs & Hevs & Herrs).
    cbn [events with_rpc] in Hevs.
    destruct (errs_saved errs (events st0) Herrs) as (Hsv & _ & _).
    destruct (Ingest.decodeAll _ _ _ _ _ _ _) as [[chunkSwaps | ] st1];
      cbn [fst snd] in *.
    + destruct (appendSwapsToFile chunkSwaps (disk st1)) as [[ | ] d'].
      * apply (Hnext (toBlockOf cfg fromBlock));
          [ unfold toBlockOf; lia | ].
        unfold Ingest.saveProgress. cbn [events with_rpc log with_disk].
        rewrite !saved_cons, Hevs, Hsv. unfold st0. cbn [events log].
        rewrite saved_cons. simpl. by rewrite !app_nil_r.
      * exists []. cbn [fst snd events log with_disk].
        rewrite saved_cons, Hevs, Hsv. unfold st0. cbn [events log].
        rewrite saved_cons. simpl. rewrite !app_nil_r.
        split; [ done | ]. repeat constructor.
    + exists []. rewrite Hevs, Hsv. unfold st0. cbn [events log].
      rewrite saved_cons. simpl. rewrite !app_nil_r.
      split; [ done | ]. repeat constructor.
  - apply Hfail.
  - apply Hfail.
  - exists []. cbn [snd events with_rpc]. unfold st0. cbn [events log].
    rewrite saved_cons. simpl. rewrite !app_nil_r.
    split; [ done | ]. repeat constructor.
Qed.

(** X11. Within a run the checkpoint never moves back: the blocks
    written to the checkpoint file, in the order of the writes, never
    decrease, none is beyond [END_BLOCK], and none is below the
    checkpoint the run started from or below the block before
    [START_BLOCK]. *)
Theorem main_checkpoints_advance (fuel : nat) (d : gmap string text)
    (w : World) :
  0 < CHUNK_SIZE cfg ->
  StronglySorted Z.le (saved (events (main fuel d w).2)) /\
  Forall (fun x => x <= END_BLOCK cfg) (saved (events (main fuel d w).2)) /\
  (forall b, checkpoint_of (loadProgress cfg d) = CheckpointAt b ->
     Forall (fun x => b <= x /\ START_BLOCK cfg - 1 <= x)
            (saved (events (main fuel d w).2))).
Proof.
  intros Hsize. unfold Ingest.main.
  set (st := {| disk := d; manager := create (RPC_URL cfg) (clock w);
                world := w; events := [] |}).
  assert (Hclean : forall st', saved (events (cleanUp st')) = saved (events st')).
  { intros st'. unfold cleanUp. simpl.
    destruct (Fs.existsSync _ _); [ destruct (Fs.unlinkSync _ _) | ];
      simpl; by rewrite !saved_cons, ?app_nil_r. }
  destruct (checkpoint_of (loadProgress cfg d)) as [ | | b ].
  - cbn [snd]. repeat constructor.
  - cbn [snd]. rewrite Hclean. repeat constructor.
  - destruct (scan_saved fuel (getExistingSwapCount d) Hsize
                (startFromBlock cfg b) 0 st) as (new & Hnew & Hsorted & Hb).
    assert (Hall : StronglySorted Z.le new /\
                   Forall (fun x => x <= END_BLOCK cfg) new /\
                   forall b', CheckpointAt b = CheckpointAt b' ->
                     Forall (fun x => b' <= x /\ START_BLOCK cfg - 1 <= x) new).
    { split; [ done | ]. split.
      - eapply Forall_impl; [ exact Hb | ]. simpl. lia.
      - intros b' [= <-]. eapply Forall_impl; [ exact Hb | ].
        simpl. unfold startFromBlock. lia. }
    destruct (Ingest.scan _ _ _ _ _ _ _ _) as [[ | msg | ] st'];
      cbn [fst snd] in *; rewrite ?Hclean, Hnew; exact Hall.
Qed.

(** ** A network that answers nothing *)

Lemma fetch_never_returns {A : Type}
    (operation : string -> World -> (string + A) * World)
    (fuel : nat) (m : RPCManager) (w : World) :
  RpcSpec.in_range m -> network w = [] ->
  fst (fst (executeWithRetry operation fuel 3 m w)) = OutOfFuel.
Proof.
  revert m w. induction fuel as [ | fuel IH ]; intros m w Hm Hdead;
    [ done | ].
  cbn [executeWithRetry].
  apply RpcExtra.attempts_dead; [ | lia | lia | done | done ].
  intros m' w' Hm' Hdead'. by apply IH.
Qed.

(** X12. With no endpoint reachable and blocks left to scan, [main]
    never finishes: it stays in the first request for logs, and in the
    meantime it writes nothing, the disk is as it was (the model runs
    out of fuel, whatever fuel it is given). *)
Theorem main_dead_network (fuel : nat) (d : gmap string text) (w : World)
    (b : Z) :
  network w = [] ->
  checkpoint_of (loadProgress cfg d) = CheckpointAt b ->
  startFromBlock cfg b <= END_BLOCK cfg ->
  (main fuel d w).1 = NoFuel /\
  disk (main fuel d w).2 = d /\
  saved (events (main fuel d w).2) = [].
Proof.
  intros Hdead Hcp Hleft. unfold Ingest.main. rewrite Hcp.
  destruct fuel as [ | fuel ]; [ done | ].
  cbn [Ingest.scan]. rewrite (proj2 (Z.ltb_ge _ _)) by lia.
  set (st0 := log _ _).
  pose proof (fetch_never_returns (fetchLogs) fuel (manager st0) (world st0)
                (RpcSpec.create_in_range _ _) Hdead) as Hout.
  destruct (executeWithRetry _ fuel 3 _ _) as [[[logs | | msg | ] m] w'];
    done.
Qed.

End Runs.

Definition units (value decimals : Z) : text := JS.dec value.
Definition stamp (ms : Z) : text := JS.dec ms.

Lemma main_footprint_witness :
  disk (Ingest.main units stamp IngestSpec.scenario 10
          (<[ "notes.txt"%string := T "keep" ]> ∅) IngestSpec.flaky).2
    !! "notes.txt"%string
  = Some (T "keep").
Proof.
  rewrite (proj1 (main_footprint units stamp IngestSpec.scenario 10
                    (<[ "notes.txt"%string := T "keep" ]> ∅)
                    IngestSpec.flaky) "notes.txt"%string);
    [ reflexivity | done | done | done ].
Defined.

(** A disk with one record in the output file and the checkpoint at
    block 149. *)
Definition seeded : gmap string text :=
  <[OUTPUT_FILE := T "[ 7 ]"]> IngestSpec.checkpoint_149.

Lemma main_keeps_records_witness :
  exists added,
    holds (disk (Ingest.main units stamp IngestSpec.scenario 10
                   seeded IngestSpec.one_swap).2)
          ([JNum (T "7")] ++ added) /\
    no_append_failed
      (events (Ingest.main units stamp IngestSpec.scenario 10
                 seeded IngestSpec.one_swap).2) /\
    length added
    = appended_total
        (events (Ingest.main units stamp IngestSpec.scenario 10
                   seeded IngestSpec.one_swap).2).
Proof.
  apply (main_keeps_records units stamp IngestSpec.scenario 10 seeded
           IngestSpec.one_swap [JNum (T "7")]).
  right. exists (T "[ 7 ]"). split; [ apply lookup_insert_eq | reflexivity ].
Defined.

Lemma main_checkpoints_advance_witness :
  StronglySorted Z.le
    (saved (events (Ingest.main units stamp IngestSpec.scenario 10
                      ∅ IngestSpec.flaky).2)).
Proof.
  apply (main_checkpoints_advance units stamp IngestSpec.scenario 10
           ∅ IngestSpec.flaky).
  reflexivity.
Defined.

Lemma main_dead_network_witness :
  (Ingest.main units stamp IngestSpec.scenario 5 ∅ RpcSpec.dead_network).1
  = NoFuel.
Proof.
  apply (main_dead_network units stamp IngestSpec.scenario 5 ∅
           RpcSpec.dead_network 99).
  - reflexivity.
  - vm_compute. reflexivity.
  - vm_compute. discriminate.
Defined.

End IngestExtra.
(* ===================================================================== *)
(** * Properties of the one-pass ingestor *)
(* ===================================================================== *)

Module SimpleExtra.
Import Json JsonFacts Chain Append Ingest Simple.

Section Runs.
Variable formatUnits : Z -> Z -> text.
Variable toISOString : Z -> text.
Variable cfg : Config.

Abbreviation decodeLogs := (Simple.decodeLogs formatUnits toISOString cfg).
Abbreviation collect := (Simple.collect formatUnits toISOString cfg).
Abbreviation main := (Simple.main formatUnits toISOString cfg).

Lemma decodeLogs_records (logs : list Log) :
  forall (swaps : list json) (w : World),
    forallb wf swaps = true ->
    forallb wf (decodeLogs logs swaps w).1 = true /\
    (length swaps <= length (decodeLogs logs swaps w).1
     <= length swaps + length logs)%nat.
Proof.
  induction logs as [ | l logs IH ]; intros swaps w Hwf; simpl.
  { split; [ done | lia ]. }
  unfold Simple.decode.
  destruct (decodeLog formatUnits toISOString cfg l EmptyString w)
    as [[msg | swap] w'] eqn:Hdec.
  - destruct (IH swaps w' Hwf) as [H1 H2]. split; [ done | lia ].
  - destruct (IH (swaps ++ [swap]) w') as [H1 H2].
    + rewrite forallb_app, Hwf. simpl.
      by rewrite (IngestFacts.decodeLog_wf _ _ _ _ _ _ _ _ Hdec).
    + split; [ done | ]. rewrite length_app in H2. simpl in H2. lia.
Qed.

Lemma collect_records (fuel : nat) :
  forall (fromBlock : Z) (swaps : list json) (totalLogs : Z) (w : World)
         swaps' totalLogs' w',
    forallb wf swaps = true ->
    collect fuel fromBlock swaps totalLogs w = Some (swaps', totalLogs', w') ->
    forallb wf swaps' = true /\
    Z.of_nat (length swaps') - Z.of_nat (length swaps)
      <= totalLogs' - totalLogs.
Proof.
  induction fuel as [ | fuel IH ];
    intros fromBlock swaps totalLogs w swaps' totalLogs' w' Hwf; simpl;
    [ done | ].
  destruct (END_BLOCK cfg <? fromBlock).
  { intros [= <- <- <-]. split; [ done | lia ]. }
  destruct (getLogs w) as [[msg | logs] w1].
  - by apply IH.
  - destruct (decodeLogs_records logs swaps w1 Hwf) as [H1 H2].
    destruct (Simple.decodeLogs _ _ _ logs swaps w1) as [swaps1 w2].
    simpl in H1, H2. intros Hrec.
    destruct (IH _ _ _ _ _ _ _ H1 Hrec) as [H3 H4]. split; [ done | lia ].
Qed.

(** The loop ends: each iteration moves on by at least one block. *)
Lemma collect_ends (fuel : nat) :
  0 < CHUNK_SIZE cfg ->
  forall (fromBlock : Z) (swaps : list json) (totalLogs : Z) (w : World),
    Z.max 0 (END_BLOCK cfg - fromBlock + 1) < Z.of_nat fuel ->
    exists r, collect fuel fromBlock swaps totalLogs w = Some r.
Proof.
  intros Hsize. induction fuel as [ | fuel IH ];
    intros fromBlock swaps totalLogs w Hfuel; simpl.
  - lia.
  - destruct (Z.ltb_spec (END_BLOCK cfg) fromBlock) as [Hend | Hend];
      [ eauto | ].
    destruct (getLogs w) as [[msg | logs] w1].
    + apply IH. lia.
    + destruct (Simple.decodeLogs _ _ _ logs swaps w1) as [swaps1 w2].
      apply IH. lia.
Qed.

(** X13. The one-pass program always ends (the loop has no retry), and
    it writes the output file once, at the end, and only if it decoded
    at least one swap: the file then holds exactly the records of this
    run as an indented JSON array that parses back to them, whatever the
    file held before; with no record the disk is untouched.  The records
    are never more than the logs that were fetched. *)
Theorem simple_main_output (fuel : nat) (d : gmap string text) (w : World) :
  0 < CHUNK_SIZE cfg ->
  Z.max 0 (END_BLOCK cfg - START_BLOCK cfg + 1) < Z.of_nat fuel ->
  exists o,
    main fuel d w = Some o /\
    Z.of_nat (length (out_swaps o)) <= out_totalLogs o /\
    ((out_swaps o = [] /\ out_disk o = d) \/
     (out_swaps o <> [] /\
      out_disk o = <[OUTPUT_FILE := stringify2 (JArr (out_swaps o))]> d /\
      parse (stringify2 (JArr (out_swaps o))) = Some (JArr (out_swaps o)))).
Proof.
  intros Hsize Hfuel. unfold Simple.main.
  destruct (collect_ends fuel Hsize (START_BLOCK cfg) [] 0 w Hfuel)
    as ([[swaps totalLogs] w'] & Hrun).
  rewrite Hrun.
  destruct (collect_records fuel (START_BLOCK cfg) [] 0 w swaps totalLogs w'
              eq_refl Hrun) as [Hwf Hcount].
  eexists. split; [ reflexivity | ]. cbn [out_swaps out_totalLogs out_disk].
  split; [ simpl in Hcount; lia | ].
  destruct swaps as [ | v l ]; [ by left | right ].
  split; [ done | ]. split; [ done | ].
  by apply (parse_stringify_at (T "  ") (JArr (v :: l))).
Qed.

Lemma collect_dead (fuel : nat) :
  0 < CHUNK_SIZE cfg ->
  forall (fromBlock : Z) (swaps : list json) (totalLogs : Z) (w : World),
    network w = [] ->
    Z.max 0 (END_BLOCK cfg - fromBlock + 1) < Z.of_nat fuel ->
    collect fuel fromBlock swaps totalLogs w = Some (swaps, totalLogs, w).
Proof.
  intros Hsize. induction fuel as [ | fuel IH ];
    intros fromBlock swaps totalLogs w Hdead Hfuel; simpl.
  - lia.
  - destruct (Z.ltb_spec (END_BLOCK cfg) fromBlock) as [Hend | Hend];
      [ done | ].
    unfold getLogs, request. rewrite Hdead. apply IH; [ done | lia ].
Qed.

(** X14. With no endpoint reachable the one-pass program gives up on
    every chunk in turn and ends without a record: no sleep, no output,
    the disk as it was. *)
Theorem simple_main_dead_network (fuel : nat) (d : gmap string text)
    (w : World) :
  0 < CHUNK_SIZE cfg ->
  Z.max 0 (END_BLOCK cfg - START_BLOCK cfg + 1) < Z.of_nat fuel ->
  network w = [] ->
  main fuel d w
  = Some {| out_disk := d; out_world := w; out_swaps := [];
            out_totalLogs := 0 |}.
Proof.
  intros Hsize Hfuel Hdead. unfold Simple.main.
  by rewrite collect_dead.
Qed.

End Runs.

(** A network as the one-pass program uses it, without probes: the logs
    of the first chunk hold one swap, whose block is returned next; the
    requests of the other chunks fail. *)
Definition one_pass_swap : World :=
  {| clock := 0;
     network :=
       [ IngestSpec.quick
           (Logs [ {| blockNumber := 120;
                      transactionHash := T "0xabc";
                      parsed := Some {| sender := T "0x01";
                                        recipient := T "0x02";
                                        amount0 := -50000000;
                                        amount1 := 30000000000;
                                        sqrtPriceX96 := 250 * 2 ^ 96;
                                        tick := 110000 |} |} ]);
         IngestSpec.quick (Block (Some 1700000000)) ];
     slept := [] |}.

(** A disk on which the output file holds something else. *)
Definition stale : gmap string text := <[OUTPUT_FILE := T "[ 7 ]"]> ∅.

Lemma simple_main_output_witness :
  exists o,
    Simple.main IngestExtra.units IngestExtra.stamp IngestSpec.scenario 200
      stale one_pass_swap = Some o /\
    length (out_swaps o) = 1%nat /\ out_totalLogs o = 1 /\
    out_disk o !! OUTPUT_FILE = Some (stringify2 (JArr (out_swaps o))) /\
    out_disk o = <[OUTPUT_FILE := stringify2 (JArr (out_swaps o))]> stale /\
    parse (stringify2 (JArr (out_swaps o))) = Some (JArr (out_swaps o)).
Proof.
  destruct (simple_main_output IngestExtra.units IngestExtra.stamp
              IngestSpec.scenario 200 stale one_pass_swap)
    as (o & Hrun & Hcount & Hcases); [ reflexivity | reflexivity | ].
  exists o. split; [ exact Hrun | ].
  assert (Hone : length (out_swaps o) = 1%nat /\ out_totalLogs o = 1).
  { vm_compute in Hrun. injection Hrun as <-. split; reflexivity. }
  destruct Hone as [Hlen Hlogs].
  destruct Hcases as [[Hnone _] | (_ & Hdisk & Hparse)].
  - rewrite Hnone in Hlen. discriminate Hlen.
  - split; [ exact Hlen | ]. split; [ exact Hlogs | ].
    split; [ rewrite Hdisk; apply lookup_insert_eq | ].
    split; [ exact Hdisk | exact Hparse ].
Defined.

Lemma simple_main_dead_network_witness :
  Simple.main IngestExtra.units IngestExtra.stamp IngestSpec.scenario 200
    ∅ RpcSpec.dead_network
  = Some {| out_disk := ∅; out_world := RpcSpec.dead_network;
            out_swaps := []; out_totalLogs := 0 |}.
Proof.
  apply (simple_main_dead_network IngestExtra.units IngestExtra.stamp
           IngestSpec.scenario 200 ∅ RpcSpec.dead_network);
    reflexivity.
Defined.

End SimpleExtra.
(* ===================================================================== *)
(** * Properties of the correction pass *)
(* ===================================================================== *)

Module Fix2Extra.
Import Json Append Fix2.

(** ** Own properties *)

Lemma text_eqb_refl (k : text) : text_eqb k k = true.
Proof. by apply AppendFacts.text_eqb_eq. Qed.

Lemma text_eqb_ne (k k' : text) : k <> k' -> text_eqb k k' = false.
Proof.
  intros Hne. destruct (text_eqb k k') eqn:He; [ | done ].
  by apply AppendFacts.text_eqb_eq in He.
Qed.

Section Own.
Context {A : Type}.
Implicit Types (ms : list (text * A)) (k : text) (v : A).

Lemma get_own_set_eq k v ms : get_own k (set_own k v ms) = Some v.
Proof.
  induction ms as [ | [k' v'] ms IH ]; simpl.
  - by rewrite text_eqb_refl.
  - destruct (text_eqb k' k) eqn:He; simpl; by rewrite He.
Qed.

Lemma get_own_set_ne k k' v ms :
  k' <> k -> get_own k' (set_own k v ms) = get_own k' ms.
Proof.
  intros Hne. induction ms as [ | [k0 v0] ms IH ]; simpl.
  - by rewrite text_eqb_ne.
  - destruct (text_eqb k0 k) eqn:He; simpl.
    + apply AppendFacts.text_eqb_eq in He. subst k0.
      by rewrite (text_eqb_ne k k') by done.
    + by rewrite IH.
Qed.

Lemma get_own_delete_eq k ms : get_own k (delete_own k ms) = None.
Proof.
  induction ms as [ | [k' v'] ms IH ]; simpl; [ done | ].
  destruct (text_eqb k' k) eqn:He; simpl; [ done | ]. by rewrite He.
Qed.

Lemma get_own_delete_ne k k' ms :
  k' <> k -> get_own k' (delete_own k ms) = get_own k' ms.
Proof.
  intros Hne. induction ms as [ | [k0 v0] ms IH ]; simpl; [ done | ].
  destruct (text_eqb k0 k) eqn:He; simpl.
  - apply AppendFacts.text_eqb_eq in He. subst k0.
    by rewrite (text_eqb_ne k k') by done.
  - by rewrite IH.
Qed.

(** Writing what is there changes nothing. *)
Lemma set_own_same k v ms : get_own k ms = Some v -> set_own k v ms = ms.
Proof.
  induction ms as [ | [k' v'] ms IH ]; simpl; [ done | ].
  destruct (text_eqb k' k) eqn:He; [ by intros [= ->] | ].
  intros H. by rewrite IH.
Qed.

Lemma delete_own_idem k ms : delete_own k (delete_own k ms) = delete_own k ms.
Proof.
  induction ms as [ | [k' v'] ms IH ]; simpl; [ done | ].
  destruct (text_eqb k' k) eqn:He; simpl; [ done | ].
  rewrite He. simpl. by f_equal.
Qed.

(** The keys after an assignment: the same, with the new one last. *)
Lemma set_own_keys k v ms :
  map fst (set_own k v ms)
  = match get_own k ms with
    | Some _ => map fst ms
    | None => map fst ms ++ [k]
    end.
Proof.
  induction ms as [ | [k' v'] ms IH ]; simpl; [ done | ].
  destruct (text_eqb k' k) eqn:He; simpl; [ done | ].
  rewrite IH. by destruct (get_own k ms).
Qed.

Lemma delete_own_keys k ms :
  map fst (delete_own k ms)
  = List.filter (fun k' => negb (text_eqb k' k)) (map fst ms).
Proof.
  induction ms as [ | [k' v'] ms IH ]; simpl; [ done | ].
  destruct (text_eqb k' k); simpl; by rewrite IH.
Qed.

End Own.

Section Engine.
Variable number_text : spec_float -> text.

Abbreviation updateSwap := (Fix2.updateSwap number_text).
Abbreviation updateAll := (Fix2.updateAll number_text).
Abbreviation text_of := (Fix2.text_of number_text).
Abbreviation main := (Fix2.main number_text).

(** The price member that the loop writes for the amounts [s0], [s1]. *)
Definition price_member (s0 s1 : text) : value :=
  match Price.calculateExecutionPrice s0 s1 8 6 with
  | Some executionPrice => VNum executionPrice
  | None => VNull
  end.

(** What the loop body does to an object. *)
Lemma updateSwap_object (ms : list (text * value)) (v' : value) :
  updateSwap (VObj ms) = inr v' ->
  exists s0 s1,
    text_of (get_own (T "amount0") ms) = inr s0 /\
    text_of (get_own (T "amount1") ms) = inr s1 /\
    v' = VObj (delete_own (T "price")
                 (set_own (T "executionPrice") (price_member s0 s1) ms)).
Proof.
  unfold Fix2.updateSwap, price_member. cbn [get].
  destruct (Fix2.text_of _ (get_own (T "amount0") ms)) as [e0 | s0];
    [ done | ].
  destruct (Fix2.text_of _ (get_own (T "amount1") ms)) as [e1 | s1];
    [ done | ].
  destruct (Price.calculateExecutionPrice s0 s1 8 6) as [x | ] eqn:Hc;
    cbn [set get].
  - intros [= <-]. exists s0, s1. by rewrite Hc.
  - destruct (Fix2.text_of _ _); [ done | ].
    intros [= <-]. exists s0, s1. by rewrite Hc.
Qed.

(** X15. The update of a record.  When the loop body completes on an
    object, the object it leaves has no member named price, its member
    executionPrice is the number that [calculateExecutionPrice] returns
    for the amounts as they print, or null when it returns null, every
    other member has the value it had, and the keys are in the order
    they were in, with executionPrice last if it is new. *)
Theorem updateSwap_record (ms : list (text * value)) (v' : value) :
  updateSwap (VObj ms) = inr v' ->
  exists ms' s0 s1,
    v' = VObj ms' /\
    text_of (get_own (T "amount0") ms) = inr s0 /\
    text_of (get_own (T "amount1") ms) = inr s1 /\
    get_own (T "price") ms' = None /\
    get_own (T "executionPrice") ms' = Some (price_member s0 s1) /\
    (forall k, k <> T "price" -> k <> T "executionPrice" ->
               get_own k ms' = get_own k ms) /\
    map fst ms'
    = List.filter (fun k => negb (text_eqb k (T "price")))
        (match get_own (T "executionPrice") ms with
         | Some _ => map fst ms
         | None => map fst ms ++ [T "executionPrice"]
         end).
Proof.
  intros (s0 & s1 & H0 & H1 & ->)%updateSwap_object.
  eexists _, s0, s1. split; [ reflexivity | ].
  split; [ done | ]. split; [ done | ].
  split; [ apply get_own_delete_eq | ].
  split; [ rewrite get_own_delete_ne by done; apply get_own_set_eq | ].
  split.
  - intros k Hp He. rewrite get_own_delete_ne by done.
    by rewrite get_own_set_ne.
  - by rewrite delete_own_keys, set_own_keys.
Qed.

Lemma undefined_amounts :
  exists x, Price.calculateExecutionPrice (T "undefined") (T "undefined") 8 6
            = Some x.
Proof. eexists. vm_compute. reflexivity. Qed.

(** The loop body throws on null and on a primitive. *)
Lemma updateSwap_primitive (v : value) :
  match v with VArr _ | VObj _ => False | _ => True end ->
  exists err, updateSwap v = inl err.
Proof.
  destruct undefined_amounts as (x & Hx).
  destruct v as [ | b | y | s | l | ms ]; intros Hv; try done;
    unfold Fix2.updateSwap; cbn [get Fix2.text_of]; rewrite ?Hx;
    cbn [set]; eauto.
Qed.

(** X16. Running the correction on a corrected record changes nothing:
    when the loop body completes on a value, it completes on the result
    and returns it as it is. *)
Theorem updateSwap_idempotent (v v' : value) :
  updateSwap v = inr v' -> updateSwap v' = inr v'.
Proof.
  destruct v as [ | b | y | s | l | ms ].
  - by destruct (updateSwap_primitive VNull I) as (err & ->).
  - by destruct (updateSwap_primitive (VBool b) I) as (err & ->).
  - by destruct (updateSwap_primitive (VNum y) I) as (err & ->).
  - by destruct (updateSwap_primitive (VStr s) I) as (err & ->).
  - intros Hrun. assert (v' = VArr l) as ->; [ | done ].
    revert Hrun. destruct undefined_amounts as (x & Hx).
    unfold Fix2.updateSwap. cbn [get Fix2.text_of]. rewrite Hx.
    cbn [set Fix2.delete]. by intros [= <-].
  - intros Hrun.
    destruct (updateSwap_object ms v' Hrun) as (s0 & s1 & H0 & H1 & ->).
    set (p := price_member s0 s1) in *.
    set (ms' := delete_own (T "price") (set_own (T "executionPrice") p ms)).
    assert (Hkeep : forall k, k <> T "price" -> k <> T "executionPrice" ->
                              get_own k ms' = get_own k ms).
    { intros k Hp He. unfold ms'. rewrite get_own_delete_ne by done.
      by rewrite get_own_set_ne. }
    assert (Hexec : get_own (T "executionPrice") ms' = Some p).
    { unfold ms'. rewrite get_own_delete_ne by done. apply get_own_set_eq. }
    assert (Hset : set_own (T "executionPrice") p ms' = ms')
      by (by apply set_own_same).
    assert (Hdel : delete_own (T "price") ms' = ms')
      by apply delete_own_idem.
    revert Hrun. unfold Fix2.updateSwap. cbn [get].
    rewrite !Hkeep by done. fold text_of. rewrite H0, H1.
    fold (price_member s0 s1). fold p. unfold price_member in p.
    destruct (Price.calculateExecutionPrice s0 s1 8 6) as [x | ];
      cbn [set get Fix2.delete]; fold ms'.
    + intros _. subst p. by rewrite Hset, Hdel.
    + subst p. rewrite Hset.
      assert (Hb : get_own (T "blockNumber")
                     (set_own (T "executionPrice") VNull ms)
                   = get_own (T "blockNumber") ms')
        by (by rewrite Hkeep, get_own_set_ne).
      rewrite Hb.
      destruct (text_of (get_own (T "blockNumber") ms')); [ done | ].
      intros _. by rewrite Hdel.
Qed.

(** ** The run *)

Lemma updateAll_length (swaps swaps' : list value) :
  updateAll swaps = inr swaps' -> length swaps' = length swaps.
Proof.
  revert swaps'. induction swaps as [ | v swaps IH ]; intros swaps'; simpl.
  - by intros [= <-].
  - destruct (Fix2.updateSwap _ v) as [err | v']; [ done | ].
    destruct (Fix2.updateAll _ swaps) as [err | rest]; [ done | ].
    intros [= <-]. simpl. f_equal. by apply IH.
Qed.

Lemma updateAll_throws (swaps : list value) :
  Exists (fun v => exists err, updateSwap v = inl err) swaps ->
  exists err, updateAll swaps = inl err.
Proof.
  induction 1 as [ v swaps (err & Hv) | v swaps _ (err & IH) ]; simpl.
  - rewrite Hv. eauto.
  - destruct (Fix2.updateSwap _ v) as [err' | v']; [ eauto | ].
    fold updateAll. rewrite IH. eauto.
Qed.

(** An element of the file that is null, a boolean, a number or a
    string. *)
Definition primitive (j : json) : Prop :=
  match j with JArr _ | JObj _ => False | _ => True end.

(** X17. The correction writes all or nothing, and one file only.  The
    input file is never changed and no file but the corrected file is
    written; the corrected file is written at most once, after the loop,
    so that an exception in the loop leaves the disk untouched; and for
    an input that holds an array the file that is written holds an array
    with one element for each element read. *)
Theorem main_all_or_nothing (d d' : gmap string text) :
  main d = Some d' ->
  (d' = d \/ exists text, d' = <[CORRECTED_FILE := text]> d) /\
  d' !! INPUT_FILE = d !! INPUT_FILE /\
  (forall raw l,
      d !! INPUT_FILE = Some raw -> parse raw = Some (JArr l) ->
      d' = d \/
      exists swaps',
        updateAll (map of_json l) = inr swaps' /\
        length swaps' = length l /\
        d' = <[CORRECTED_FILE :=
                 stringify2 (to_json number_text (VArr swaps'))]> d).
Proof.
  intros Hmain.
  assert (Hshape : d' = d \/ exists text, d' = <[CORRECTED_FILE := text]> d).
  { revert Hmain. unfold Fix2.main, Fs.readFileSync, Fs.writeFileSync.
    destruct (d !! INPUT_FILE) as [raw | ]; [ | intros [= <-]; by left ].
    destruct (parse raw) as [j | ]; [ | intros [= <-]; by left ].
    destruct (of_json j) as [ | b | x | s | l | ms ].
    - intros [= <-]. by left.
    - intros [= <-]. right. eauto.
    - intros [= <-]. right. eauto.
    - destruct (Fix2.updateAll _ _); intros [= <-]; [ by left | right; eauto ].
    - destruct (Fix2.updateAll _ _); intros [= <-]; [ by left | right; eauto ].
    - destruct (get_own _ ms); [ done | ]. intros [= <-]. right. eauto. }
  split; [ done | ]. split.
  - destruct Hshape as [-> | (text & ->)]; [ done | ].
    by rewrite lookup_insert_ne.
  - intros raw l Hraw Hparse. revert Hmain.
    unfold Fix2.main, Fs.readFileSync, Fs.writeFileSync.
    rewrite Hraw, Hparse. cbn [of_json].
    destruct (Fix2.updateAll _ (map of_json l)) as [err | swaps'] eqn:Hall;
      intros [= <-]; [ by left | right ].
    exists swaps'. split; [ done | ]. split; [ | done ].
    rewrite (updateAll_length _ _ Hall). apply length_map.
Qed.

(** X18. What the correction refuses.  Without the input file, with an
    input that [JSON.parse] rejects, and with an array one of whose
    elements is null, a boolean, a number or a string, [main] reports
    an error and writes nothing: the records before the offending
    element are not saved either. *)
Theorem main_refuses (d : gmap string text) :
  (d !! INPUT_FILE = None -> main d = Some d) /\
  (forall raw, d !! INPUT_FILE = Some raw -> parse raw = None ->
               main d = Some d) /\
  (forall raw l,
      d !! INPUT_FILE = Some raw -> parse raw = Some (JArr l) ->
      Exists primitive l -> main d = Some d).
Proof.
  unfold Fix2.main, Fs.readFileSync. split; [ by intros -> | ].
  split; [ by intros raw -> -> | ].
  intros raw l -> -> Hprim. cbn [of_json].
  destruct (updateAll_throws (map of_json l)) as (err & ->); [ | done ].
  apply Exists_fmap. eapply Exists_impl; [ exact Hprim | ].
  intros j Hj. apply updateSwap_primitive. by destruct j.
Qed.

End Engine.

(** ** Records that convert *)

(** A value that is not an array and not an object. *)
Definition scalar (v : value) : Prop :=
  match v with VArr _ | VObj _ => False | _ => True end.

Definition scalar_json (j : json) : bool :=
  match j with JArr _ | JObj _ => false | _ => true end.

(** An object all of whose members are strings, numbers, booleans or
    null. *)
Definition flat_object (j : json) : bool :=
  match j with
  | JObj members => forallb (fun kv => scalar_json (snd kv)) members
  | _ => false
  end.

Definition scalars (ms : list (text * value)) : Prop :=
  Forall (fun kv => scalar (snd kv)) ms.

Lemma set_own_scalars (k : text) (v : value) (ms : list (text * value)) :
  scalar v -> scalars ms -> scalars (set_own k v ms).
Proof.
  intros Hv. induction 1 as [ | [k' v'] ms Hkv Hms IH ]; simpl.
  - by repeat constructor.
  - destruct (text_eqb k' k); by constructor.
Qed.

Lemma define_all_scalars (ms acc : list (text * value)) :
  scalars ms -> scalars acc ->
  scalars (fold_left (fun o kv => set_own (fst kv) (snd kv) o) ms acc).
Proof.
  intros Hms. revert acc. induction Hms as [ | kv ms Hkv Hms IH ];
    intros acc Hacc; simpl; [ done | ].
  apply IH. by apply set_own_scalars.
Qed.

Lemma insert_index_scalars (n : Z) (kv : text * value)
    (l : list (Z * (text * value))) :
  scalar (snd kv) -> scalars (map snd l) ->
  scalars (map snd (insert_index n kv l)).
Proof.
  intros Hkv. induction l as [ | [m kv'] l IH ]; simpl.
  - by repeat constructor.
  - intros Hl. pose proof (Forall_inv Hl) as H1.
    apply Forall_inv_tail in Hl.
    destruct (n <? m); simpl; constructor; try done.
    + by constructor.
    + by apply IH.
Qed.

Lemma enumerate_scalars (ms : list (text * value)) :
  scalars ms -> scalars (enumerate ms).
Proof.
  intros Hms. unfold enumerate. apply Forall_app. split.
  - induction Hms as [ | kv ms Hkv Hms IH ]; simpl; [ constructor | ].
    destruct (array_index (fst kv)); [ | done ].
    by apply insert_index_scalars.
  - induction Hms as [ | kv ms Hkv Hms IH ]; simpl; [ constructor | ].
    destruct (array_index (fst kv)); [ done | by constructor ].
Qed.

Lemma of_json_flat (j : json) :
  flat_object j = true -> exists ms, of_json j = VObj ms /\ scalars ms.
Proof.
  destruct j as [ | b | lit | s | l | members ]; try done.
  intros Hflat. eexists. split; [ reflexivity | ].
  apply enumerate_scalars, define_all_scalars; [ | constructor ].
  simpl in Hflat. induction members as [ | [k v] members IH ]; simpl;
    [ constructor | ].
  simpl in Hflat. apply andb_prop in Hflat as [Hv Hrest].
  constructor; [ by destruct v | by apply IH ].
Qed.

Lemma get_own_scalar (k : text) (ms : list (text * value)) (v : value) :
  scalars ms -> get_own k ms = Some v -> scalar v.
Proof.
  induction 1 as [ | [k' v'] ms Hkv Hms IH ]; simpl; [ done | ].
  destruct (text_eqb k' k); [ by intros [= <-] | done ].
Qed.

Section Success.
Variable number_text : spec_float -> text.

Lemma text_of_scalar (k : text) (ms : list (text * value)) :
  scalars ms ->
  exists s, Fix2.text_of number_text (get_own k ms) = inr s.
Proof.
  intros Hms. destruct (get_own k ms) as [v | ] eqn:Hget; simpl; [ | eauto ].
  pose proof (get_own_scalar k ms v Hms Hget) as Hv.
  destruct v as [ | [] | x | s | l | ms' ]; simpl; eauto; done.
Qed.

Lemma updateSwap_flat (ms : list (text * value)) :
  scalars ms -> exists v', Fix2.updateSwap number_text (VObj ms) = inr v'.
Proof.
  intros Hms. unfold Fix2.updateSwap. cbn [get].
  destruct (text_of_scalar (T "amount0") ms Hms) as (s0 & ->).
  destruct (text_of_scalar (T "amount1") ms Hms) as (s1 & ->).
  destruct (Price.calculateExecutionPrice s0 s1 8 6); cbn [set get];
    [ eauto | ].
  destruct (text_of_scalar (T "blockNumber")
              (set_own (T "executionPrice") VNull ms)) as (s & ->);
    [ by apply set_own_scalars | eauto ].
Qed.

(** X26. The correction goes through on the files of the ingestor.
    When the input holds an array of objects whose members are strings,
    numbers, booleans or null, no step of the loop throws: [main]
    writes the corrected file, which holds the result of the loop for
    every record, and leaves the input file as it is. *)
Theorem main_corrects (d : gmap string text) (raw : text) (l : list json) :
  d !! INPUT_FILE = Some raw -> parse raw = Some (JArr l) ->
  forallb flat_object l = true ->
  exists swaps',
    Fix2.updateAll number_text (map of_json l) = inr swaps' /\
    length swaps' = length l /\
    Fix2.main number_text d
    = Some (<[CORRECTED_FILE :=
                stringify2 (to_json number_text (VArr swaps'))]> d).
Proof.
  intros Hraw Hparse Hflat.
  assert (Hall : exists swaps',
            Fix2.updateAll number_text (map of_json l) = inr swaps').
  { clear Hraw Hparse. induction l as [ | j l IH ]; simpl; [ eauto | ].
    simpl in Hflat. apply andb_prop in Hflat as [Hj Hl].
    destruct (of_json_flat j Hj) as (ms & -> & Hms).
    destruct (updateSwap_flat ms Hms) as (v' & ->).
    destruct (IH Hl) as (rest & ->). eauto. }
  destruct Hall as (swaps' & Hall). exists swaps'.
  split; [ done | ]. split.
  - rewrite (updateAll_length number_text _ _ Hall). apply length_map.
  - unfold Fix2.main, Fs.readFileSync, Fs.writeFileSync.
    rewrite Hraw, Hparse. cbn [of_json]. by rewrite Hall.
Qed.

End Success.

(** X19. [calculateExecutionPriceFromRaw] never returns a price: every
    call ends in an exception.  Either [BigInt] rejects the first
    amount, or [Math.abs] is applied to the BigInt and throws the
    TypeError of the conversion of a BigInt to a number; the second
    amount and the precisions are never looked at. *)
Theorem calculateExecutionPriceFromRaw_throws {A : Type}
    (BigInt : A -> string + Z)
    (Math_pow : spec_float -> spec_float -> spec_float)
    (rawAmount0 rawAmount1 : A) (decimals0 decimals1 : spec_float) :
  (exists err,
     calculateExecutionPriceFromRaw BigInt Math_pow rawAmount0 rawAmount1
       decimals0 decimals1 = inl err) /\
  (forall rawAmount1' decimals0' decimals1',
     calculateExecutionPriceFromRaw BigInt Math_pow rawAmount0 rawAmount1'
       decimals0' decimals1'
     = calculateExecutionPriceFromRaw BigInt Math_pow rawAmount0 rawAmount1
         decimals0 decimals1).
Proof.
  unfold calculateExecutionPriceFromRaw, Math_abs_BigInt.
  destruct (BigInt rawAmount0) as [err | n0]; eauto.
Qed.

(** A printer of numbers for the examples: whole numbers in decimal. *)
Definition whole_text (x : spec_float) : text := JS.dec (Num.to_Z x).

Definition a_swap : list (text * value) :=
  [ (T "blockNumber", VNum (Num.of_BigInt 160));
    (T "amount0", VStr (T "0.5")); (T "amount1", VStr (T "30000"));
    (T "price", VNum (Num.of_BigInt 6250000)) ].

Lemma updateSwap_record_witness :
  exists ms' s0 s1,
    VObj [ (T "blockNumber", VNum (Num.of_BigInt 160));
           (T "amount0", VStr (T "0.5")); (T "amount1", VStr (T "30000"));
           (T "executionPrice", VNum (Num.of_BigInt 60000)) ] = VObj ms' /\
    Fix2.text_of whole_text (get_own (T "amount0") a_swap) = inr s0 /\
    Fix2.text_of whole_text (get_own (T "amount1") a_swap) = inr s1 /\
    get_own (T "price") ms' = None /\
    get_own (T "executionPrice") ms' = Some (price_member s0 s1) /\
    (forall k, k <> T "price" -> k <> T "executionPrice" ->
               get_own k ms' = get_own k a_swap) /\
    map fst ms'
    = List.filter (fun k => negb (text_eqb k (T "price")))
        (match get_own (T "executionPrice") a_swap with
         | Some _ => map fst a_swap
         | None => map fst a_swap ++ [T "executionPrice"]
         end).
Proof.
  apply (updateSwap_record whole_text a_swap). vm_compute. reflexivity.
Defined.

Lemma updateSwap_idempotent_witness :
  Fix2.updateSwap whole_text
    (VObj [ (T "blockNumber", VNum (Num.of_BigInt 160));
            (T "amount0", VStr (T "0.5")); (T "amount1", VStr (T "30000"));
            (T "executionPrice", VNum (Num.of_BigInt 60000)) ])
  = inr (VObj [ (T "blockNumber", VNum (Num.of_BigInt 160));
                (T "amount0", VStr (T "0.5")); (T "amount1", VStr (T "30000"));
                (T "executionPrice", VNum (Num.of_BigInt 60000)) ]).
Proof.
  apply (updateSwap_idempotent whole_text (VObj a_swap)).
  vm_compute. reflexivity.
Defined.

Definition input_disk : gmap string text :=
  <[INPUT_FILE :=
      stringify2
        (JArr [ JObj [ (T "blockNumber", JNum (T "160"));
                       (T "amount0", JStr (T "0.5"));
                       (T "amount1", JStr (T "30000"));
                       (T "price", JNum (T "6250000")) ] ])]> ∅.

Definition corrected_disk : gmap string text :=
  <[CORRECTED_FILE :=
      stringify2
        (JArr [ JObj [ (T "blockNumber", JNum (T "160"));
                       (T "amount0", JStr (T "0.5"));
                       (T "amount1", JStr (T "30000"));
                       (T "executionPrice", JNum (T "60000")) ] ])]>
    input_disk.

Lemma main_all_or_nothing_witness :
  corrected_disk !! INPUT_FILE = input_disk !! INPUT_FILE.
Proof.
  apply (fun H => proj1 (proj2 (main_all_or_nothing whole_text input_disk
                                  corrected_disk H))).
  vm_compute. reflexivity.
Defined.

Lemma main_refuses_witness :
  Fix2.main whole_text (<[INPUT_FILE := T "[ 1 ]"]> ∅)
  = Some (<[INPUT_FILE := T "[ 1 ]"]> ∅).
Proof.
  apply (proj2 (proj2 (main_refuses whole_text (<[INPUT_FILE := T "[ 1 ]"]> ∅)))
           (T "[ 1 ]") [JNum (T "1")]).
  - apply lookup_insert_eq.
  - vm_compute. reflexivity.
  - by constructor.
Defined.

Lemma main_corrects_witness :
  exists swaps',
    Fix2.updateAll whole_text
      (map of_json
         [ JObj [ (T "blockNumber", JNum (T "160"));
                  (T "amount0", JStr (T "0.5"));
                  (T "amount1", JStr (T "30000"));
                  (T "price", JNum (T "6250000")) ] ]) = inr swaps' /\
    length swaps' = 1%nat /\
    Fix2.main whole_text input_disk
    = Some (<[CORRECTED_FILE :=
                stringify2 (to_json whole_text (VArr swaps'))]> input_disk).
Proof.
  apply (main_corrects whole_text input_disk
           (stringify2
              (JArr [ JObj [ (T "blockNumber", JNum (T "160"));
                             (T "amount0", JStr (T "0.5"));
                             (T "amount1", JStr (T "30000"));
                             (T "price", JNum (T "6250000")) ] ]))).
  - apply lookup_insert_eq.
  - vm_compute. reflexivity.
  - reflexivity.
Defined.

End Fix2Extra.
(* ===================================================================== *)
(** * The count of the records on resume ([getExistingSwapCount]) *)
(* ===================================================================== *)

Module CountExtra.
Import Json JsonFacts JSFacts Append AppendFacts Ingest.

(** A text without a closing brace. *)
Definition clean (s : text) : bool :=
  forallb (fun c => negb (Ascii.eqb c "}")) s.

(** A record as the ingestor builds it: an object whose members are
    strings, numbers, booleans or null, with no closing brace in a key
    or in a string. *)
Definition plain_value (v : json) : bool :=
  match v with
  | JNull | JBool _ => true
  | JNum lit => valid_number lit && clean lit
  | JStr s => clean s
  | _ => false
  end.

Definition plain_record (r : json) : bool :=
  match r with
  | JObj members =>
      forallb (fun kv => clean (fst kv) && plain_value (snd kv)) members
  | _ => false
  end.

Lemma plain_record_wf (r : json) : plain_record r = true -> wf r = true.
Proof.
  destruct r as [ | b | lit | s | l | ms ]; try done. simpl.
  induction ms as [ | [k v] ms IH ]; simpl; [ done | ].
  intros [[_ Hv]%andb_prop Hms]%andb_prop. rewrite IH by done.
  destruct v; try done. simpl in *. by apply andb_prop in Hv as [-> _].
Qed.

Lemma plain_records_wf (l : list json) :
  forallb plain_record l = true -> forallb wf l = true.
Proof.
  induction l as [ | r l IH ]; simpl; [ done | ].
  intros [Hr Hl]%andb_prop. by rewrite plain_record_wf, IH.
Qed.

(** ** Texts without a closing brace *)

Lemma clean_app (a b : text) : clean (a ++ b) = clean a && clean b.
Proof. apply forallb_app. Qed.

Lemma clean_escape (c : ascii) :
  negb (Ascii.eqb c "}") = true -> clean (escape_char c) = true.
Proof.
  destruct c as [[] [] [] [] [] [] [] []]; intros H;
    first [ discriminate H | reflexivity ].
Qed.

Lemma clean_quote (s : text) : clean s = true -> clean (quote s) = true.
Proof.
  intros Hs. unfold quote. cbn [clean forallb]. fold (clean (flat_map escape_char s ++ [dquote])).
  rewrite clean_app. simpl. rewrite andb_true_r.
  induction s as [ | c s IH ]; simpl; [ done | ].
  simpl in Hs. apply andb_prop in Hs as [Hc Hs].
  fold (clean (escape_char c ++ flat_map escape_char s)).
  rewrite clean_app, clean_escape by done. by apply IH.
Qed.

Lemma clean_join (sep : text) (parts : list text) :
  clean sep = true -> forallb clean parts = true ->
  clean (JS.join sep parts) = true.
Proof.
  intros Hsep. induction parts as [ | p parts IH ]; simpl; [ done | ].
  intros [Hp Hparts]%andb_prop. destruct parts as [ | q parts ]; [ done | ].
  rewrite !clean_app, Hp, Hsep. by apply IH.
Qed.

Lemma clean_line_break (gap indent : text) :
  clean indent = true -> clean (line_break gap indent) = true.
Proof. intros H. unfold line_break. by destruct gap. Qed.

Lemma clean_plain_value (gap indent : text) (v : json) :
  plain_value v = true -> clean (stringify_at gap indent v) = true.
Proof.
  destruct v as [ | [] | lit | s | l | ms ]; try done; simpl.
  - by intros [_ H]%andb_prop.
  - apply clean_quote.
Qed.

Lemma clean_member (gap indent : text) (kv : text * json) :
  clean (fst kv) && plain_value (snd kv) = true ->
  clean (member_text gap indent kv) = true.
Proof.
  intros [Hk Hv]%andb_prop. unfold member_text.
  rewrite clean_app, clean_quote by done.
  change (clean (":"%char :: ?r)) with (clean r).
  rewrite clean_app, clean_plain_value by done. by destruct gap.
Qed.

Lemma clean_members (gap indent : text) (ms : list (text * json)) :
  forallb (fun kv => clean (fst kv) && plain_value (snd kv)) ms = true ->
  forallb clean (map (member_text gap indent) ms) = true.
Proof.
  induction ms as [ | x ms IH ]; cbn [forallb map]; [ done | ].
  intros [Hx Hl]%andb_prop. by rewrite clean_member, IH.
Qed.

(** The text of a record is a text without a closing brace, and the
    brace that closes the record. *)
Lemma record_text (gap indent : text) (r : json) :
  plain_record r = true -> clean gap = true -> clean indent = true ->
  exists Q, stringify_at gap indent r = Q ++ ["}"%char] /\ clean Q = true.
Proof.
  destruct r as [ | b | lit | s | l | ms ]; try done.
  intros Hr Hgap Hindent. destruct ms as [ | kv ms ].
  { exists ["{"%char]. split; [ by destruct gap | done ]. }
  rewrite stringify_obj.
  exists ("{"%char :: line_break gap (indent ++ gap) ++
          JS.join (","%char :: line_break gap (indent ++ gap))
            (map (member_text gap (indent ++ gap)) (kv :: ms)) ++
          line_break gap indent).
  split; [ by rewrite <- app_comm_cons, <- !app_assoc | ].
  assert (Hin : clean (indent ++ gap) = true)
    by (by rewrite clean_app, Hindent, Hgap).
  change (clean ("{"%char :: ?r)) with (clean r).
  rewrite !clean_app, !clean_line_break by done.
  rewrite clean_join; [ done | by apply clean_line_break | ].
  by apply clean_members.
Qed.

(** ** Counting the matches of [},] *)

Lemma count_clean_prefix (s t : text) :
  clean s = true -> count_matches (s ++ t) = count_matches t.
Proof.
  induction s as [ | c s IH ]; [ done | ]. cbn [clean forallb].
  intros [Hc Hs]%andb_prop. cbn [app count_matches].
  apply negb_true_iff in Hc. rewrite Hc. cbn [andb].
  rewrite <- (IH Hs). by destruct (s ++ t).
Qed.

Lemma count_snoc_app (a : text) (c : ascii) (t : text) :
  count_matches (a ++ c :: t)
  = (count_matches (a ++ [c]) + count_matches (c :: t))%nat.
Proof.
  induction a as [ | x a IH ]; [ done | ].
  cbn [app count_matches]. rewrite IH.
  destruct a as [ | y a ]; cbn [app]; by destruct (_ && _).
Qed.

Lemma count_brace_comma (t : text) :
  count_matches ("}"%char :: ","%char :: t)
  = S (count_matches (","%char :: t)).
Proof. reflexivity. Qed.

(** A text that ends with the closing brace of a record. *)
Definition ends_record (b : text) : Prop := exists P, b = P ++ ["}"%char].

Definition record_texts (recs : list text) : Prop :=
  Forall (fun r => exists Q, r = Q ++ ["}"%char] /\ clean Q = true) recs.

(** Records joined by a comma and white space: one match between two
    neighbours. *)
Lemma count_join (sep : text) (recs : list text) :
  clean sep = true -> record_texts recs -> recs <> [] ->
  ends_record (JS.join (","%char :: sep) recs) /\
  count_matches (JS.join (","%char :: sep) recs) = (length recs - 1)%nat.
Proof.
  intros Hsep Hrecs Hne.
  induction Hrecs as [ | r recs (Q & -> & HQ) Hrecs IH ]; [ done | ].
  destruct recs as [ | r2 recs ].
  - cbn [JS.join length]. split; [ by exists Q | ].
    by rewrite count_clean_prefix.
  - destruct IH as [(P2 & HP2) Hcount]; [ done | ].
    rewrite join_cons2. split.
    + exists ((Q ++ ["}"%char]) ++ (","%char :: sep) ++ P2).
      rewrite HP2. by rewrite <- !app_assoc.
    + rewrite <- app_assoc. rewrite count_clean_prefix by done.
      cbn [app]. rewrite count_brace_comma.
      change (","%char :: sep ++ ?r) with ((","%char :: sep) ++ r).
      rewrite count_clean_prefix by done.
      rewrite Hcount. cbn [length]. lia.
Qed.

(** ** The files that the ingestor writes *)

(** An output file with [n] records, [n] at least one: a body that ends
    with the closing brace of the last record and has [n - 1] matches,
    a line break and the closing bracket. *)
Definition written (raw : text) (n : nat) : Prop :=
  exists B,
    raw = ("["%char :: B) ++ [newline; "]"%char] /\
    ends_record B /\
    count_matches ("["%char :: B) = (n - 1)%nat /\ (0 < n)%nat.

Lemma rendered_records (gap indent : text) (l : list json) :
  forallb plain_record l = true -> clean gap = true -> clean indent = true ->
  record_texts (map (stringify_at gap indent) l).
Proof.
  intros Hl Hgap Hindent.
  induction l as [ | r l IH ]; simpl in *; constructor.
  - apply andb_prop in Hl as [Hr _]. by apply record_text.
  - apply IH. by apply andb_prop in Hl as [_ Hl].
Qed.

(** The first write. *)
Lemma written_first (v : json) (l : list json) :
  forallb plain_record (v :: l) = true ->
  written (stringify2 (JArr (v :: l))) (length (v :: l)).
Proof.
  intros Hl. unfold stringify2. rewrite stringify_arr.
  change (line_break (T "  ") ([] ++ T "  ")) with (newline :: T "  ").
  change (line_break (T "  ") []) with [newline].
  change ([] ++ T "  ") with (T "  ").
  destruct (count_join (newline :: T "  ")
              (map (stringify_at (T "  ") (T "  ")) (v :: l)))
    as [(P & HP) Hcount]; [ done | by apply rendered_records | done | ].
  exists ((newline :: T "  ") ++
          JS.join (","%char :: newline :: T "  ")
            (map (stringify_at (T "  ") (T "  ")) (v :: l))).
  split; [ cbn [app]; by rewrite <- app_assoc | ]. split.
  - exists ((newline :: T "  ") ++ P). rewrite HP. by rewrite <- app_assoc.
  - split; [ | simpl; lia ].
    change ("["%char :: ?a ++ ?b) with (("["%char :: a) ++ b).
    rewrite count_clean_prefix by done.
    rewrite Hcount. by rewrite length_map.
Qed.

Lemma snoc2 {A} (x : list A) (a b : A) : x ++ [a; b] = (x ++ [a]) ++ [b].
Proof. by rewrite <- app_assoc. Qed.

Lemma tight_end_snoc (x : text) (c : ascii) :
  JS.is_space c = false -> tight_end (x ++ [c]).
Proof. intros Hc a c' Ha. by apply app_inj_tail in Ha as [_ <-]. Qed.

(** What the append protocol reads from such a file. *)
Lemma written_read (B : text) :
  ends_record B ->
  let raw := ("["%char :: B) ++ [newline; "]"%char] in
  JS.trim raw = raw /\
  is_nil raw || text_eqb raw (T "[]") = false /\
  JS.strip_closing_bracket raw = "["%char :: B /\
  JS.endsWith (JS.trim ("["%char :: B)) "[" = false.
Proof.
  intros (P & ->) raw.
  assert (Hbody : tight_end ("["%char :: P ++ ["}"%char])).
  { change ("["%char :: P ++ ["}"%char]) with (("["%char :: P) ++ ["}"%char]).
    by apply tight_end_snoc. }
  assert (Hends : JS.endsWith ("["%char :: P ++ ["}"%char]) "[" = false).
  { change ("["%char :: P ++ ["}"%char]) with (("["%char :: P) ++ ["}"%char]).
    by rewrite endsWith_snoc. }
  assert (Hlen : (3 < length raw)%nat).
  { unfold raw. cbn [app length]. rewrite !length_app. simpl. lia. }
  set (X := "["%char :: P ++ ["}"%char]) in *.
  split; [ | split; [ | split ] ].
  - apply trim_id; [ done | ]. unfold raw. rewrite snoc2.
    by apply tight_end_snoc.
  - destruct raw as [ | c r ]; [ simpl in Hlen; lia | ]. cbn [is_nil orb].
    destruct (text_eqb _ _) eqn:He; [ | done ].
    apply text_eqb_eq in He. rewrite He in Hlen. simpl in Hlen. lia.
  - unfold raw. rewrite snoc2. unfold JS.strip_closing_bracket.
    rewrite rev_app_distr. cbn [rev app]. change (Ascii.eqb "]" "]") with true.
    cbv iota. rewrite rev_app_distr. cbn [rev app JS.trimStart].
    change (JS.is_space newline) with true. cbv iota.
    change (rev (JS.trimStart (rev X))) with (JS.trimEnd X).
    by apply trimEnd_id.
  - by rewrite trim_id.
Qed.

(** The state of the output file after [n] records. *)
Definition counted (d : gmap string text) (n : nat) : Prop :=
  (n = 0%nat /\ d !! OUTPUT_FILE = None) \/
  (exists raw xs, d !! OUTPUT_FILE = Some raw /\ written raw n /\
                  parse raw = Some (JArr xs)).

Lemma appendSwapsToFile_counted (news : list json) (d : gmap string text)
    (n : nat) :
  forallb plain_record news = true -> counted d n ->
  exists d', appendSwapsToFile news d = (true, d') /\
             counted d' (n + length news).
Proof.
  intros Hplain Hd. destruct news as [ | v l ].
  { exists d. split; [ done | ]. by rewrite Nat.add_0_r. }
  pose proof (plain_records_wf _ Hplain) as Hwf.
  unfold appendSwapsToFile. cbn [is_nil].
  unfold append_try, Fs.existsSync, Fs.readFileSync, Fs.writeFileSync.
  destruct Hd as [[-> Hnone] | (raw & xs & Hraw & Hwritten & Hparse)].
  - rewrite Hnone. cbn [negb]. eexists. split; [ reflexivity | ].
    right. exists (stringify2 (JArr (v :: l))), (v :: l).
    split; [ apply lookup_insert_eq | ]. split; [ by apply written_first | ].
    by apply (parse_stringify_at (T "  ") (JArr (v :: l))).
  - rewrite Hraw. cbn [negb].
    destruct Hwritten as (B & -> & HB & Hcount & Hn).
    destruct (written_read B HB) as (Htrim & Hblank & Hstrip & Hends).
    cbv zeta in Htrim, Hblank, Hstrip.
    rewrite Htrim, Hblank, lookup_insert_eq.
    rewrite (temp_contents_parse _ xs (v :: l) Hparse) by done.
    unfold Fs.renameSync. rewrite lookup_insert_eq.
    eexists. split; [ reflexivity | ]. right.
    exists (temp_contents (("["%char :: B) ++ [newline; "]"%char]) (v :: l)),
           (xs ++ v :: l).
    split; [ apply lookup_insert_eq | ].
    split; [ | by apply temp_contents_parse ].
    unfold temp_contents, newDataString. rewrite Htrim, Hstrip, Hends.
    unfold rendered. rewrite (join_prefix _ (T "  ") stringify v l).
    change ((","%char :: [newline]) ++ T "  ")
      with (","%char :: newline :: T "  ").
    destruct (count_join (newline :: T "  ") (map stringify (v :: l)))
      as [(P2 & HP2) Hcount2];
      [ done | by apply rendered_records | done | ].
    set (J := JS.join (","%char :: newline :: T "  ")
                (map stringify (v :: l))) in *.
    exists (B ++ (","%char :: newline :: T "  ") ++ J).
    split; [ | split; [ | split ] ].
    + cbn [app]. by rewrite <- !app_assoc.
    + exists (B ++ (","%char :: newline :: T "  ") ++ P2).
      rewrite HP2. by rewrite <- !app_assoc.
    + destruct HB as (P & ->).
      change ("["%char :: (P ++ ["}"%char]) ++ ?r)
        with (("["%char :: P ++ ["}"%char]) ++ r).
      change ("["%char :: P ++ ["}"%char]) with (("["%char :: P) ++ ["}"%char])
        in Hcount |- *.
      rewrite <- app_assoc. cbn [app].
      change ("["%char :: P ++ "}"%char :: ?r)
        with (("["%char :: P) ++ "}"%char :: r).
      rewrite (count_snoc_app ("["%char :: P) "}"), Hcount.
      rewrite count_brace_comma.
      change (","%char :: newline :: T "  " ++ J)
        with ((","%char :: newline :: T "  ") ++ J).
      rewrite count_clean_prefix by done.
      rewrite Hcount2, length_map. simpl. lia.
    + lia.
Qed.

Lemma getExistingSwapCount_counted (d : gmap string text) (n : nat) :
  counted d n -> getExistingSwapCount d = Z.of_nat n.
Proof.
  unfold getExistingSwapCount, Fs.existsSync, Fs.readFileSync.
  intros [[-> ->] | (raw & xs & -> & (B & -> & HB & Hcount & Hn) & _)];
    [ done | ].
  destruct (written_read B HB) as (Htrim & Hblank & _).
  cbv zeta in Htrim, Hblank. rewrite Htrim, Hblank.
  assert (Hall : count_matches (("["%char :: B) ++ [newline; "]"%char])
                 = (n - 1)%nat).
  { destruct HB as (P & ->).
    change ("["%char :: P ++ ["}"%char]) with (("["%char :: P) ++ ["}"%char])
      in Hcount |- *.
    rewrite <- app_assoc. cbn [app].
    change ("["%char :: P ++ "}"%char :: ?r)
      with (("["%char :: P) ++ "}"%char :: r).
    rewrite (count_snoc_app ("["%char :: P) "}"), Hcount. simpl. lia. }
  rewrite Hall. destruct (Nat.eqb_spec (n - 1) 0); lia.
Qed.

(** X20. The count on resume is exact for the files that the ingestor
    writes.  Starting without an output file, after any sequence of
    chunks of records (objects whose members are strings, numbers,
    booleans or null, with no closing brace in a key or a string) has
    been appended, every append has succeeded and
    [getExistingSwapCount] returns the number of records in the file:
    the matches of [},] are the commas between the records and no
    others. *)
Theorem getExistingSwapCount_exact (chunks : list (list json))
    (d : gmap string text) :
  d !! OUTPUT_FILE = None ->
  Forall (fun c => forallb plain_record c = true) chunks ->
  (AppendSpec.appendChunks chunks d).1 = true /\
  getExistingSwapCount (AppendSpec.appendChunks chunks d).2
  = Z.of_nat (length (concat chunks)).
Proof.
  intros Hd Hchunks.
  assert (Hgen : forall n d0, counted d0 n ->
            (AppendSpec.appendChunks chunks d0).1 = true /\
            counted (AppendSpec.appendChunks chunks d0).2
                    (n + length (concat chunks))).
  { induction Hchunks as [ | c chunks Hc _ IH ]; intros n d0 Hd0; simpl.
    - split; [ done | ]. by rewrite Nat.add_0_r.
    - destruct (appendSwapsToFile_counted c d0 n Hc Hd0) as (d1 & -> & Hd1).
      destruct (IH _ _ Hd1) as [H1 H2]. split; [ done | ].
      by rewrite length_app, Nat.add_assoc. }
  destruct (Hgen 0%nat d) as [H1 H2]; [ by left | ].
  split; [ done | ]. by apply getExistingSwapCount_counted.
Qed.

Definition swap_a : json :=
  JObj [ (T "blockNumber", JNum (T "101")); (T "txHash", JStr (T "0xab")) ].
Definition swap_b : json :=
  JObj [ (T "blockNumber", JNum (T "160")); (T "txHash", JStr (T "0xcd")) ].

Lemma getExistingSwapCount_exact_witness :
  (AppendSpec.appendChunks [ [swap_a]; []; [swap_b; swap_a] ] ∅).1 = true /\
  getExistingSwapCount
    (AppendSpec.appendChunks [ [swap_a]; []; [swap_b; swap_a] ] ∅).2
  = 3.
Proof.
  apply (getExistingSwapCount_exact [ [swap_a]; []; [swap_b; swap_a] ] ∅).
  - done.
  - repeat constructor.
Defined.

End CountExtra.
(* ===================================================================== *)
(** * More on [calculateExecutionPrice] *)
(* ===================================================================== *)

Module PriceExtra.
Import Num Price.

(** A value that is not below zero: NaN counts, it is not negative. *)
Definition not_negative (x : spec_float) : bool :=
  match x with
  | S754_zero s | S754_infinity s | S754_finite s _ _ => negb s
  | S754_nan => true
  end.

Lemma round_sign (s : bool) (m e : Z) (l : location) :
  match binary_round_aux prec emax s m e l with
  | S754_zero s' | S754_infinity s' | S754_finite s' _ _ => s' = s
  | S754_nan => True
  end.
Proof.
  unfold binary_round_aux.
  destruct (shr_fexp prec emax m e l) as [mrs e'].
  destruct (shr_fexp prec emax _ e' loc_Exact) as [mrs' e''].
  destruct (shr_m mrs'); [ done | | done ].
  by destruct (e'' <=? emax - prec).
Qed.

Lemma div_abs_not_negative (x y : spec_float) :
  not_negative (div (abs x) (abs y)) = true.
Proof.
  destruct x as [ sx | sx | | sx mx ex ], y as [ sy | sy | | sy my ey ];
    try done.
  unfold div, abs, SFabs, SFdiv.
  destruct (SFdiv_core_binary prec emax (Zpos mx) ex (Zpos my) ey)
    as [[mz ez] lz].
  pose proof (round_sign (xorb false false) mz ez lz) as Hs.
  destruct (binary_round_aux prec emax (xorb false false) mz ez lz);
    simpl in *; by subst.
Qed.

(** X21. The price that [calculateExecutionPrice] returns is never
    negative, whatever the signs of the two amounts; and an amount that
    does not start with a number does not give null: with the other
    amount not zero, the function returns NaN. *)
Theorem calculateExecutionPrice_range :
  (forall (amount0 amount1 : text) (decimals0 decimals1 : Z)
          (x : spec_float),
      calculateExecutionPrice amount0 amount1 decimals0 decimals1 = Some x ->
      not_negative x = true) /\
  (forall (amount0 amount1 : text) (decimals0 decimals1 : Z),
      (parseFloat amount0 = S754_nan /\ is_zero (parseFloat amount1) = false)
      \/ (parseFloat amount1 = S754_nan /\ is_zero (parseFloat amount0) = false) ->
      calculateExecutionPrice amount0 amount1 decimals0 decimals1
      = Some S754_nan).
Proof.
  split.
  - intros amount0 amount1 decimals0 decimals1 x.
    unfold calculateExecutionPrice. destruct (_ || _); [ done | ].
    intros [= <-]. apply div_abs_not_negative.
  - intros amount0 amount1 decimals0 decimals1 Hnan.
    unfold calculateExecutionPrice.
    rewrite !PriceSpec.strict_eq_abs_zero.
    destruct Hnan as [[-> Hz] | [-> Hz]].
    + rewrite Hz. simpl. by destruct (abs (parseFloat amount1)).
    + rewrite Hz. simpl. by destruct (abs (parseFloat amount0)).
Qed.

Lemma calculateExecutionPrice_range_witness :
  calculateExecutionPrice (T "n/a") (T "-30000") 8 6 = Some S754_nan.
Proof.
  apply (proj2 calculateExecutionPrice_range (T "n/a") (T "-30000") 8 6).
  left. split; vm_compute; reflexivity.
Defined.

End PriceExtra.
(* ===================================================================== *)
(** * Bounds of the cursor and the accounting of the logs *)
(* ===================================================================== *)

Module MoreExtra.
Import Json Chain Rpc RpcSpec Append Ingest.

Lemma resetFailed_urls (now : Z) (m : RPCManager) :
  rpcUrls (resetFailed now m) = rpcUrls m.
Proof. unfold resetFailed. by destruct (_ <? _). Qed.

Lemma getWorkingProvider_urls (m : RPCManager) (w : World) :
  rpcUrls (getWorkingProvider m w).1.2 = rpcUrls m.
Proof.
  unfold getWorkingProvider.
  destruct (probe_loop_urls (length (rpcUrls (resetFailed (clock w) m)))
              (resetFailed (clock w) m) w) as (-> & _).
  apply resetFailed_urls.
Qed.

Lemma giveUpOnCurrent_urls (m : RPCManager) :
  rpcUrls (giveUpOnCurrent m) = rpcUrls m.
Proof. unfold giveUpOnCurrent. by destruct (provider m). Qed.

Section Retry.
Context {A : Type}.
Variable operation : string -> World -> (string + A) * World.

Definition kept (m m' : RPCManager) : Prop :=
  rpcUrls m' = rpcUrls m /\ in_range m'.

Lemma attempt_once_kept (m : RPCManager) (w : World) :
  in_range m -> kept m (attempt_once operation m w).1.2.
Proof.
  intros Hm. unfold attempt_once.
  pose proof (getWorkingProvider_urls m w) as Hu.
  pose proof (getWorkingProvider_in_range m w Hm) as Hr.
  destruct (getWorkingProvider m w) as [[[err | url] m'] w']; simpl in *.
  - done.
  - by destruct (operation url w').
Qed.

Lemma attempts_kept restart maxRetries k :
  (forall m w, in_range m -> kept m (restart m w).1.2) ->
  forall attempt m w,
    in_range m -> kept m (attempts operation restart maxRetries k attempt m w).1.2.
Proof.
  intros Hrestart. induction k as [ | k IH ]; intros attempt m w Hm;
    cbn [attempts]; [ done | ].
  destruct (maxRetries <? attempt)%nat; [ done | ].
  destruct (attempt_once_kept m w Hm) as [Hu Hr].
  destruct (attempt_once operation m w) as [[[err | v] m1] w1];
    cbn [fst snd] in *; [ | done ].
  destruct (attempt =? maxRetries)%nat.
  - destruct (JS.includes err "All RPCs failed"); [ | done ].
    destruct (Hrestart m1 (sleep 30000 w1) Hr) as [Hu' Hr'].
    split; [ by rewrite Hu' | done ].
  - destruct (IH (S attempt) (giveUpOnCurrent m1)
                (sleep (2000 * Z.of_nat attempt) w1)) as [Hu' Hr'].
    + apply giveUpOnCurrent_in_range.
    + split; [ | done ]. by rewrite Hu', giveUpOnCurrent_urls.
Qed.

(** X22. The cursor stays inside the pool.  Whatever the network does
    and however a call of [executeWithRetry] ends, the selector it
    leaves has the pool it had, and its cursor is the index of an
    endpoint of the pool: [rpcUrls[currentIndex]] is never undefined. *)
Theorem executeWithRetry_keeps_cursor (fuel maxRetries : nat)
    (m : RPCManager) (w : World) :
  in_range m ->
  let m' := (executeWithRetry operation fuel maxRetries m w).1.2 in
  rpcUrls m' = rpcUrls m /\
  (rpcUrls m <> [] -> is_Some (rpcUrls m' !! currentIndex m')).
Proof.
  intros Hm.
  assert (Hkept : forall fuel m w, in_range m ->
            kept m (executeWithRetry operation fuel maxRetries m w).1.2).
  { clear. induction fuel as [ | fuel IH ]; intros m w Hm;
      cbn [executeWithRetry]; [ done | ].
    by apply attempts_kept. }
  destruct (Hkept fuel m w Hm) as [Hu Hr]. cbv zeta.
  split; [ done | ]. intros Hne.
  destruct Hr as [Hempty | Hlt]; [ congruence | ].
  by apply lookup_lt_is_Some.
Qed.

End Retry.

Lemma executeWithRetry_keeps_cursor_witness :
  rpcUrls (executeWithRetry RpcSpec.fetch 5 3 RpcSpec.fresh_manager
             IngestSpec.flaky).1.2
  = rpcUrls RpcSpec.fresh_manager /\
  (rpcUrls RpcSpec.fresh_manager <> [] ->
   is_Some (rpcUrls (executeWithRetry RpcSpec.fetch 5 3 RpcSpec.fresh_manager
                       IngestSpec.flaky).1.2
            !! currentIndex (executeWithRetry RpcSpec.fetch 5 3
                               RpcSpec.fresh_manager IngestSpec.flaky).1.2)).
Proof.
  apply (executeWithRetry_keeps_cursor RpcSpec.fetch 5 3
           RpcSpec.fresh_manager IngestSpec.flaky).
  apply create_in_range.
Defined.

Section Logs.
Variable formatUnits : Z -> Z -> text.
Variable toISOString : Z -> text.
Variable cfg : Config.

Abbreviation decodeAll := (Ingest.decodeAll formatUnits toISOString cfg).

(** The number of logs reported as not decoded. *)
Definition parse_errors (evs : list Event) : nat :=
  length (List.filter (fun e => match e with ParseError _ => true | _ => false end)
            evs).

(** X23. No log is dropped silently.  When the loop over the logs of a
    chunk ends, each log has given a record of the chunk or a reported
    error: the records and the errors add up to the logs, and the
    records that were there before are still the first ones. *)
Theorem decodeAll_accounts (fuel : nat) (logs : list Log)
    (chunkSwaps swaps : list json) (st st' : State) :
  decodeAll fuel logs chunkSwaps st = (Some swaps, st') ->
  chunkSwaps `prefix_of` swaps /\
  (length swaps + parse_errors (events st')
   = length chunkSwaps + length logs + parse_errors (events st))%nat.
Proof.
  revert chunkSwaps st.
  induction logs as [ | l logs IH ]; intros chunkSwaps st; simpl.
  { intros [= <- <-]. split; [ done | lia ]. }
  destruct (executeWithRetry _ fuel 3 (manager st) (world st))
    as [[[v | | msg | ] m] w]; [ | | | done ].
  - intros [Hp Hn]%IH. split.
    + etrans; [ | exact Hp ]. by apply prefix_app_r.
    + rewrite length_app in Hn. simpl in *. lia.
  - intros [Hp Hn]%IH. split.
    + etrans; [ | exact Hp ]. by apply prefix_app_r.
    + rewrite length_app in Hn. simpl in *. lia.
  - intros [Hp Hn]%IH. split; [ done | ].
    unfold parse_errors in *. simpl in Hn. lia.
Qed.

End Logs.

(** A state in which one log is about to be decoded: the endpoint
    answers the probe and returns the block. *)
Definition ready : State :=
  {| disk := ∅; manager := create (RPC_URL IngestSpec.scenario) 0;
     world := {| clock := 0;
                 network := [ IngestSpec.quick (BlockNumber 21000000);
                              IngestSpec.quick (Block (Some 1700000000)) ];
                 slept := [] |};
     events := [] |}.

Definition a_log : Log :=
  {| blockNumber := 160; transactionHash := T "0xabc";
     parsed := Some {| sender := T "0x01"; recipient := T "0x02";
                       amount0 := -50000000; amount1 := 30000000000;
                       sqrtPriceX96 := 250 * 2 ^ 96; tick := 110000 |} |}.

Definition decoded : option (list json) * State :=
  Ingest.decodeAll IngestExtra.units IngestExtra.stamp IngestSpec.scenario
    5 [a_log] [] ready.

Lemma decodeAll_accounts_witness :
  [] `prefix_of` default [] decoded.1 /\
  (length (default [] decoded.1) + parse_errors (events decoded.2)
   = length (@nil json) + length [a_log] + parse_errors (events ready))%nat.
Proof.
  apply (decodeAll_accounts IngestExtra.units IngestExtra.stamp
           IngestSpec.scenario 5 [a_log] [] (default [] decoded.1)
           ready decoded.2).
  vm_compute. reflexivity.
Defined.

End MoreExtra.
(* ===================================================================== *)
(** * Resuming, the endpoint that served a call, records that convert *)
(* ===================================================================== *)

Module ResumeExtra.
Import Json JsonFacts Chain Rpc RpcSpec Append Ingest.

Section Resume.
Variable formatUnits : Z -> Z -> text.
Variable toISOString : Z -> text.
Variable cfg : Config.

Lemma chunks_from (fuel : nat) :
  0 < CHUNK_SIZE cfg ->
  forall fromBlock,
    Forall (fun c => fromBlock <= c.1) (chunks cfg fuel fromBlock).
Proof.
  intros Hsize. induction fuel as [ | fuel IH ]; intros fromBlock; simpl;
    [ constructor | ].
  destruct (END_BLOCK cfg <? fromBlock); constructor; [ simpl; lia | ].
  eapply Forall_impl; [ apply IH | ]. simpl. lia.
Qed.

(** X24. A run resumes after its checkpoint.  When [saveProgress] has
    written block [b] to the checkpoint file, every chunk that the next
    run of [main] starts begins after [b], and not before
    [START_BLOCK]: no block at or below the checkpoint is fetched
    again by that run. *)
Theorem main_resumes_after_checkpoint (fuel : nat) (b t : Z) (st : State)
    (w : World) :
  0 < CHUNK_SIZE cfg -> Z.abs b < 2 ^ 53 ->
  Forall (fun c => b < c.1 /\ START_BLOCK cfg <= c.1)
    (IngestSpec.processing
       (events (main formatUnits toISOString cfg fuel
                  (disk (saveProgress toISOString cfg b t st)) w).2)).
Proof.
  intros Hsize Hb. unfold main.
  rewrite ProgressExtra.loadProgress_saved.
  assert (Hcp : checkpoint_of
            (JObj [ (T "lastProcessedBlock", JNum (JS.dec b));
                    (T "totalSwaps", JNum (JS.dec t));
                    (T "timestamp", JStr (toISOString (clock (world st))));
                    (T "startBlock", JNum (JS.dec (START_BLOCK cfg)));
                    (T "endBlock", JNum (JS.dec (END_BLOCK cfg))) ])
          = CheckpointAt b)
    by (by apply (ProgressExtra.checkpoint_of_dec b [])).
  rewrite Hcp.
  set (d := disk _). set (st0 := {| disk := d |}).
  destruct (IngestSpec.scan_processing formatUnits toISOString cfg fuel
              (getExistingSwapCount d) (startFromBlock cfg b) 0 st0)
    as (l & Hl & Hpre & _).
  assert (Hall : Forall (fun c => b < c.1 /\ START_BLOCK cfg <= c.1) l).
  { destruct Hpre as (rest & Hrest).
    pose proof (chunks_from fuel Hsize (startFromBlock cfg b)) as Hfrom.
    rewrite Hrest in Hfrom. apply Forall_app in Hfrom as [Hfrom _].
    eapply Forall_impl; [ exact Hfrom | ].
    simpl. unfold startFromBlock. lia. }
  assert (Hclean : forall st',
            IngestSpec.processing (events (cleanUp st'))
            = IngestSpec.processing (events st')).
  { intros st'. unfold cleanUp. simpl.
    destruct (Fs.existsSync _ _); [ destruct (Fs.unlinkSync _ _) | ]; done. }
  destruct (scan _ _ _ _ _ _ _ _) as [[ | msg | ] st'];
    cbn [fst snd] in *; rewrite ?Hclean, Hl; exact Hall.
Qed.

End Resume.

Lemma main_resumes_after_checkpoint_witness :
  Forall (fun c => 149 < c.1 /\ START_BLOCK IngestSpec.scenario <= c.1)
    (IngestSpec.processing
       (events (main IngestExtra.units IngestExtra.stamp IngestSpec.scenario
                  10
                  (disk (saveProgress IngestExtra.stamp IngestSpec.scenario
                           149 0 ProgressExtra.a_state))
                  IngestSpec.healthy).2)).
Proof.
  apply (main_resumes_after_checkpoint IngestExtra.units IngestExtra.stamp
           IngestSpec.scenario 10 149 0 ProgressExtra.a_state
           IngestSpec.healthy); reflexivity.
Defined.

(** ** The endpoint that served a call *)

Section Served.
Context {A : Type}.
Variable operation : string -> World -> (string + A) * World.




End Served.


End ResumeExtra.
(* ===================================================================== *)
(** * The chunks of a run *)
(* ===================================================================== *)

Module ScanSpec.
Import Json JsonFacts Chain Rpc RpcSpec Append Ingest IngestSpec IngestExtra.

(** [advancing size l a b]: the ranges of [l] are the first ranges of a
    tiling of the blocks from [a] to [b]: the first one starts at [a],
    each of the others right after the one before it, none is empty or
    goes beyond [b], and each has [size] blocks unless it is cut at
    [b]. *)
Fixpoint advancing (size : Z) (l : list (Z * Z)) (a b : Z) : Prop :=
  match l with
  | [] => True
  | (f, t) :: rest =>
      f = a /\ f <= t <= b /\ (t = f + size - 1 \/ (t = b /\ t < f + size - 1))
      /\ advancing size rest (t + 1) b
  end.

Lemma chunks_advancing (cfg : Config) (fuel : nat) (fromBlock : Z) :
  0 < CHUNK_SIZE cfg ->
  advancing (CHUNK_SIZE cfg) (chunks cfg fuel fromBlock) fromBlock
    (END_BLOCK cfg).
Proof.
  intros Hsize. revert fromBlock.
  induction fuel as [ | fuel IH ]; intros fromBlock; simpl; [ done | ].
  destruct (Z.ltb_spec (END_BLOCK cfg) fromBlock) as [Hend | Hend];
    [ done | ].
  simpl. unfold toBlockOf.
  split; [ done | ]. split; [ lia | ]. split; [ lia | ].
  destruct (Z.le_gt_cases (fromBlock + CHUNK_SIZE cfg - 1) (END_BLOCK cfg))
    as [Hfull | Hcut].
  - rewrite Z.min_l by done.
    replace (fromBlock + CHUNK_SIZE cfg - 1 + 1)
      with (fromBlock + CHUNK_SIZE cfg) by lia.
    apply IH.
  - rewrite Z.min_r by lia.
    assert (Hnone : chunks cfg fuel (fromBlock + CHUNK_SIZE cfg) = []).
    { destruct fuel; simpl; [ done | ].
      by rewrite (proj2 (Z.ltb_lt _ _)) by lia. }
    by rewrite Hnone.
Qed.

Lemma advancing_prefix (size : Z) (l1 l2 : list (Z * Z)) (a b : Z) :
  l1 `prefix_of` l2 -> advancing size l2 a b -> advancing size l1 a b.
Proof.
  intros [rest ->]. revert a.
  induction l1 as [ | [f t] l1 IH ]; intros a; simpl; [ done | ].
  intros (Hf & Ht & Hsize & Hrest). eauto.
Qed.

(** ** The chunks of any run *)

Section Runs.
Variable formatUnits : Z -> Z -> text.
Variable toISOString : Z -> text.
Variable cfg : Config.

Abbreviation scan := (Ingest.scan formatUnits toISOString cfg).
Abbreviation main := (Ingest.main formatUnits toISOString cfg).
Abbreviation decodeAll := (Ingest.decodeAll formatUnits toISOString cfg).
Abbreviation decodeLog := (Ingest.decodeLog formatUnits toISOString cfg).

(** What follows the loop starts no chunk and hides no failed append. *)
Lemma cleanUp_events (st : State) :
  exists pre, events (cleanUp st) = pre ++ events st /\
              processing (pre ++ events st) = processing (events st).
Proof.
  unfold cleanUp. simpl.
  destruct (Fs.existsSync _ _); [ destruct (Fs.unlinkSync _ _) | ].
  - by exists [CleanedUp; Completed].
  - by exists [Completed].
  - by exists [Completed].
Qed.

(** The chunks of a run of [main] that starts after block [b]. *)
Lemma main_chunks (fuel : nat) (d : gmap string text) (w : World) (b : Z) :
  0 < CHUNK_SIZE cfg ->
  checkpoint_of (loadProgress cfg d) = CheckpointAt b ->
  let run := main fuel d w in
  let l := processing (events run.2) in
  advancing (CHUNK_SIZE cfg) l (Z.max (b + 1) (START_BLOCK cfg))
    (END_BLOCK cfg) /\
  (run.1 = Finished -> no_append_failed (events run.2) ->
   tiles (CHUNK_SIZE cfg) l (Z.max (b + 1) (START_BLOCK cfg))
     (END_BLOCK cfg)).
Proof.
  intros Hsize Hb. unfold Ingest.main. rewrite Hb.
  set (st := {| disk := d; manager := create (RPC_URL cfg) (clock w);
                world := w; events := [] |}).
  destruct (scan_processing formatUnits toISOString cfg fuel
              (getExistingSwapCount d) (startFromBlock cfg b) 0 st)
    as (l & Hl & Hpre & _).
  pose proof (scan_all_chunks formatUnits toISOString cfg fuel
                (getExistingSwapCount d) (startFromBlock cfg b) 0 st Hsize)
    as Hall.
  assert (Hadv : advancing (CHUNK_SIZE cfg) l (startFromBlock cfg b)
                   (END_BLOCK cfg)).
  { eapply advancing_prefix; [ exact Hpre | by apply chunks_advancing ]. }
  assert (Htiles : tiles (CHUNK_SIZE cfg)
                     (all_chunks cfg (startFromBlock cfg b))
                     (startFromBlock cfg b) (END_BLOCK cfg))
    by (apply chunks_tiles; [ done | lia ]).
  cbv zeta in Hl, Hall.
  destruct (Ingest.scan _ _ _ _ _ _ _ _) as [[ | msg | ] st'];
    cbn [fst snd] in *.
  - destruct (cleanUp_events st') as (pre & Hev & Hproc).
    rewrite Hev, Hproc, Hl. split; [ exact Hadv | ].
    intros _ Hok. rewrite <- Hl, Hall; [ exact Htiles | done | ].
    intros a c evs Hfail. rewrite Hfail in Hok.
    apply Forall_app in Hok as [_ Hok].
    apply Forall_cons in Hok as [Hok _]. by apply (Hok a c).
  - rewrite Hl. split; [ exact Hadv | done ].
  - rewrite Hl. split; [ exact Hadv | done ].
Qed.

(** On a disk whose output file is absent or holds an array no append
    of a run fails. *)
Lemma main_appends (fuel : nat) (d : gmap string text) (w : World)
    (olds : list json) :
  holds d olds -> no_append_failed (events (main fuel d w).2).
Proof.
  intros Hd. unfold Ingest.main.
  set (st := {| disk := d; manager := create (RPC_URL cfg) (clock w);
                world := w; events := [] |}).
  assert (Hclean : forall st', no_append_failed (events st') ->
                               no_append_failed (events (cleanUp st'))).
  { intros st' Hok. unfold cleanUp. simpl.
    destruct (Fs.existsSync _ _); [ destruct (Fs.unlinkSync _ _) | ];
      simpl; repeat (constructor; [ done | ]); done. }
  destruct (checkpoint_of (loadProgress cfg d)) as [ | | b ].
  - constructor.
  - apply Hclean. constructor.
  - destruct (scan_holds formatUnits toISOString cfg fuel
                (getExistingSwapCount d) (startFromBlock cfg b) 0 st olds Hd)
      as (added & _ & Hok & _); [ constructor | ].
    destruct (Ingest.scan _ _ _ _ _ _ _ _) as [[ | msg | ] st'];
      cbn [fst snd] in *; [ by apply Hclean | done | done ].
Qed.

End Runs.

(** ** A network that answers *)

(** The replies to the requests that the records of [logs] need: for
    each log, which must be a swap of the pool, the probe of the endpoint
    and the block of the log.  The result is the rest of the script. *)
Fixpoint decoded_ok (logs : list Log) (net : list Reply)
  : option (list Reply) :=
  match logs with
  | [] => Some net
  | l :: rest =>
      match parsed l, net with
      | Some _, r1 :: r2 :: net' =>
          match body r1, body r2 with
          | BlockNumber _, Block (Some _) => decoded_ok rest net'
          | _, _ => None
          end
      | _, _ => None
      end
  end.

(** The network answers every request of the next [k] chunks, whatever
    the time each reply takes: the probe of the endpoint, the logs of the
    chunk, and what the records of these logs need. *)
Fixpoint answered (k : nat) (net : list Reply) : bool :=
  match k with
  | O => true
  | S k' =>
      match net with
      | r1 :: r2 :: net' =>
          match body r1, body r2 with
          | BlockNumber _, Logs logs =>
              match decoded_ok logs net' with
              | Some net'' => answered k' net''
              | None => false
              end
          | _, _ => false
          end
      | _ => false
      end
  end.

(** No endpoint is marked failed and the cursor is on an endpoint. *)
Definition good (m : RPCManager) : Prop :=
  (currentIndex m < length (rpcUrls m))%nat /\ failedRpcs m = ∅.

Lemma getWorkingProvider_good (m : RPCManager) (w : World) (r : Reply)
    (net : list Reply) (n : Z) :
  good m -> network w = r :: net -> body r = BlockNumber n ->
  exists url m',
    getWorkingProvider m w
    = (inr url, m',
       {| clock := clock w + elapsed r; network := net; slept := slept w |})
    /\ good m'.
Proof.
  intros [Hidx Hnone] Hnet Hbody. unfold getWorkingProvider.
  set (m0 := resetFailed (clock w) m).
  assert (Hm0 : rpcUrls m0 = rpcUrls m /\ currentIndex m0 = currentIndex m
                /\ failedRpcs m0 = ∅).
  { unfold m0, resetFailed. by destruct (_ <? _). }
  destruct Hm0 as (Hu & Hi & Hf).
  destruct (length (rpcUrls m0)) as [ | k ] eqn:Hlen;
    [ rewrite Hu in Hlen; lia | ].
  cbn [probe_loop].
  destruct (lookup_lt_is_Some_2 (rpcUrls m0) (currentIndex m0)) as [url Hurl];
    [ rewrite Hu, Hi; done | ].
  rewrite Hurl, Hf.
  rewrite bool_decide_eq_false_2 by apply not_elem_of_empty.
  unfold getBlockNumber, request. rewrite Hnet, Hbody.
  exists url, (connect url m0). split; [ done | ].
  split; simpl; [ by rewrite Hu, Hi | done ].
Qed.

Lemma executeWithRetry_good {A : Type}
    (operation : string -> World -> (string + A) * World)
    (fuel : nat) (m : RPCManager) (w w2 : World) (r : Reply)
    (net : list Reply) (n : Z) (v : A) :
  good m -> network w = r :: net -> body r = BlockNumber n ->
  (forall url,
      operation url
        {| clock := clock w + elapsed r; network := net; slept := slept w |}
      = (inr v, w2)) ->
  exists m',
    executeWithRetry operation (S fuel) 3 m w = (Returned v, m', w2)
    /\ good m'.
Proof.
  intros Hm Hnet Hbody Hop.
  destruct (getWorkingProvider_good m w r net n Hm Hnet Hbody)
    as (url & m' & Hget & Hm').
  exists m'. split; [ | done ].
  cbn [executeWithRetry attempts]. unfold attempt_once.
  by rewrite Hget, Hop.
Qed.

Section Answered.
Variable formatUnits : Z -> Z -> text.
Variable toISOString : Z -> text.
Variable cfg : Config.
Hypothesis decimals0_ok : 0 <= POOL_decimals0 cfg.
Hypothesis decimals1_ok : 0 <= POOL_decimals1 cfg.

Abbreviation scan := (Ingest.scan formatUnits toISOString cfg).
Abbreviation main := (Ingest.main formatUnits toISOString cfg).
Abbreviation decodeAll := (Ingest.decodeAll formatUnits toISOString cfg).
Abbreviation decodeLog := (Ingest.decodeLog formatUnits toISOString cfg).

(** Every log of a chunk becomes a record at the first attempt. *)
Lemma decodeAll_answered (fuel : nat) (logs : list Log) :
  forall (chunkSwaps : list json) (st : State) (net' : list Reply),
    good (manager st) ->
    decoded_ok logs (network (world st)) = Some net' ->
    exists swaps st',
      decodeAll (S fuel) logs chunkSwaps st = (Some swaps, st') /\
      good (manager st') /\ network (world st') = net'.
Proof.
  induction logs as [ | l logs IH ]; intros chunkSwaps st net' Hm;
    cbn [decoded_ok Ingest.decodeAll].
  { intros [= <-]. eauto. }
  destruct (parsed l) as [args | ] eqn:Hargs; [ | done ].
  destruct (network (world st)) as [ | r1 [ | r2 net ] ] eqn:Hnet;
    [ done | done | ].
  destruct (body r1) as [ | n | | ] eqn:Hr1; try done.
  destruct (body r2) as [ | | | [timestamp | ] ] eqn:Hr2; try done.
  intros Hrest.
  assert (Hprice : exists price,
            Price.sqrtPriceX96ToPrice (sqrtPriceX96 args)
              (POOL_decimals0 cfg) (POOL_decimals1 cfg) = Some price).
  { unfold Price.sqrtPriceX96ToPrice.
    rewrite (proj2 (Z.ltb_ge _ _) decimals0_ok).
    rewrite (proj2 (Z.ltb_ge _ _) decimals1_ok). eauto. }
  destruct Hprice as (price & Hprice).
  edestruct (executeWithRetry_good (decodeLog l) fuel (manager st) (world st))
    as (m' & Hrun & Hm'); [ exact Hm | exact Hnet | exact Hr1 | | ].
  { intros url. unfold Ingest.decodeLog, getBlock, request.
    cbn [network]. rewrite Hr2, Hargs, Hprice. reflexivity. }
  rewrite Hrun. apply IH; [ exact Hm' | exact Hrest ].
Qed.

(** On a network that answers, the loop runs to its end. *)
Lemma scan_answered (fuel : nat) (existingSwapCount : Z) :
  0 < CHUNK_SIZE cfg ->
  forall (k : nat) (fromBlock total : Z) (st : State),
    good (manager st) ->
    answered k (network (world st)) = true ->
    END_BLOCK cfg - fromBlock < CHUNK_SIZE cfg * Z.of_nat k ->
    (k < fuel)%nat ->
    (scan fuel existingSwapCount fromBlock total st).1 = Finished.
Proof.
  intros Hsize.
  induction fuel as [ | fuel IH ]; intros k fromBlock total st Hm Hnet Hk Hfuel;
    [ lia | ].
  cbn [Ingest.scan].
  destruct (Z.ltb_spec (END_BLOCK cfg) fromBlock) as [Hend | Hend];
    [ done | ].
  destruct k as [ | k ]; [ lia | ].
  destruct fuel as [ | fuel ]; [ lia | ].
  cbn [answered] in Hnet.
  destruct (network (world st)) as [ | r1 [ | r2 net ] ] eqn:Hscript;
    [ done | done | ].
  destruct (body r1) as [ | n | | ] eqn:Hr1; try done.
  destruct (body r2) as [ | | logs | ] eqn:Hr2; try done.
  destruct (decoded_ok logs net) as [net' | ] eqn:Hlogs; [ | done ].
  set (st0 := log (Processing fromBlock (toBlockOf cfg fromBlock)) st).
  edestruct (executeWithRetry_good fetchLogs fuel (manager st0) (world st0))
    as (m' & Hrun & Hm'); [ exact Hm | exact Hscript | exact Hr1 | | ].
  { intros url. unfold fetchLogs, getLogs, request. cbn [network].
    rewrite Hr2. reflexivity. }
  rewrite Hrun.
  edestruct (decodeAll_answered fuel logs [])
    as (swaps & st1 & Hdec & Hm1 & Hnet1);
    [ | | rewrite Hdec ]; [ exact Hm' | exact Hlogs | ].
  destruct (appendSwapsToFile swaps (disk st1)) as [[ | ] d']; [ | done ].
  rewrite <- Hnet1 in Hnet.
  apply (IH k); [ exact Hm1 | exact Hnet | nia | lia ].
Qed.

End Answered.

(** A disk on which the output file holds one record and the checkpoint
    is at block 149, and a network that answers the two chunks that are
    left: the first one has a swap. *)
Definition resumed : World :=
  {| clock := 0;
     network := network one_swap ++ [ quick (BlockNumber 21000000);
                                      quick (Logs []) ];
     slept := [] |}.

(** C7. With [START_BLOCK] 100, [END_BLOCK] 249 and [CHUNK_SIZE] 50 a
    run of [main] on a network that answers goes through the chunks
    100-149, 150-199 and 200-249 and ends; started again on the
    checkpoint file written after block 149 it goes through 150-199 and
    200-249.  In general, for a positive chunk size and a run that starts
    after the checkpoint [b]: the chunks that the loop starts, whatever
    the network does and however the run stops, are the first chunks of
    the tiling of the blocks from the larger of [b + 1] and [START_BLOCK]
    to [END_BLOCK], each right after the one before it, none empty, each
    of [CHUNK_SIZE] blocks unless it is cut at [END_BLOCK]; they are the
    whole tiling, whose last chunk ends at [END_BLOCK], when the run
    reaches its end without a failed append; and the run does reach its
    end, with the whole tiling, on every network that answers the
    requests of that many chunks, whatever logs it returns, when the
    output file is absent or holds an array.  The checkpoint of a run is
    the block before [START_BLOCK] without a checkpoint file and the
    block that [saveProgress] wrote with one. *)
Theorem loop_chunks_tile_the_scan :
  (forall formatUnits toISOString,
      let run := main formatUnits toISOString scenario 10 ∅ healthy in
      run.1 = Finished /\
      processing (events run.2) = [ (100, 149); (150, 199); (200, 249) ]) /\
  (forall formatUnits toISOString,
      let run := main formatUnits toISOString scenario 10
                   checkpoint_149 healthy in
      checkpoint_of (loadProgress scenario checkpoint_149) = CheckpointAt 149 /\
      run.1 = Finished /\
      processing (events run.2) = [ (150, 199); (200, 249) ]) /\
  (forall formatUnits toISOString (cfg : Config) (fuel : nat)
          (d : gmap string text) (w : World) (b : Z),
      0 < CHUNK_SIZE cfg ->
      checkpoint_of (loadProgress cfg d) = CheckpointAt b ->
      let run := main formatUnits toISOString cfg fuel d w in
      advancing (CHUNK_SIZE cfg) (processing (events run.2))
        (Z.max (b + 1) (START_BLOCK cfg)) (END_BLOCK cfg) /\
      (run.1 = Finished -> no_append_failed (events run.2) ->
       tiles (CHUNK_SIZE cfg) (processing (events run.2))
         (Z.max (b + 1) (START_BLOCK cfg)) (END_BLOCK cfg))) /\
  (forall formatUnits toISOString (cfg : Config) (fuel k : nat)
          (d : gmap string text) (w : World) (b : Z) (olds : list json),
      0 < CHUNK_SIZE cfg ->
      0 <= POOL_decimals0 cfg -> 0 <= POOL_decimals1 cfg ->
      RPC_URL cfg <> [] ->
      checkpoint_of (loadProgress cfg d) = CheckpointAt b ->
      holds d olds ->
      answered k (network w) = true ->
      END_BLOCK cfg - Z.max (b + 1) (START_BLOCK cfg)
        < CHUNK_SIZE cfg * Z.of_nat k ->
      (k < fuel)%nat ->
      let run := main formatUnits toISOString cfg fuel d w in
      run.1 = Finished /\
      tiles (CHUNK_SIZE cfg) (processing (events run.2))
        (Z.max (b + 1) (START_BLOCK cfg)) (END_BLOCK cfg)) /\
  (forall (cfg : Config) (d : gmap string text),
      d !! PROGRESS_FILE = None ->
      Z.abs (START_BLOCK cfg - 1) < 2 ^ 53 ->
      checkpoint_of (loadProgress cfg d) = CheckpointAt (START_BLOCK cfg - 1)) /\
  (forall toISOString (cfg : Config) (b t : Z) (st : State),
      Z.abs b < 2 ^ 53 ->
      checkpoint_of
        (loadProgress cfg (disk (saveProgress toISOString cfg b t st)))
      = CheckpointAt b).
Proof.
  split; [ by vm_compute | ]. split; [ by vm_compute | ].
  split; [ intros; by apply main_chunks | ].
  split; [ | split ].
  - intros formatUnits toISOString cfg fuel k d w b olds
      Hsize Hd0 Hd1 Hurls Hb Hd Hnet Hk Hfuel run.
    assert (Hfin : run.1 = Finished).
    { unfold run, main. rewrite Hb.
      set (st := {| disk := d; manager := create (RPC_URL cfg) (clock w);
                    world := w; events := [] |}).
      pose proof (scan_answered formatUnits toISOString cfg Hd0 Hd1 fuel
                    (getExistingSwapCount d) Hsize k
                    (startFromBlock cfg b) 0 st) as Hscan.
      destruct (Ingest.scan _ _ _ _ _ _ _ _) as [e st'].
      cbn [fst] in Hscan. rewrite Hscan; [ done | | done | done | done ].
      split; [ | done ]. simpl. destruct (RPC_URL cfg); [ done | simpl; lia ]. }
    split; [ exact Hfin | ].
    apply (main_chunks formatUnits toISOString cfg fuel d w b Hsize Hb);
      [ exact Hfin | ].
    exact (main_appends formatUnits toISOString cfg fuel d w olds Hd).
  - intros cfg d Hnone Hb.
    assert (Hload : loadProgress cfg d
      = JObj [ (T "lastProcessedBlock", JNum (JS.dec (START_BLOCK cfg - 1)));
               (T "totalSwaps", JNum (T "0")) ]).
    { unfold loadProgress, Fs.existsSync. by rewrite Hnone. }
    rewrite Hload. by apply (ProgressExtra.checkpoint_of_dec _ []).
  - intros toISOString cfg b t st Hb.
    rewrite ProgressExtra.loadProgress_saved.
    by apply (ProgressExtra.checkpoint_of_dec b []).
Qed.

(** The run that is started again on that disk, and the run of the
    scenario on the network on which the second chunk cannot be
    fetched. *)
Definition resumed_run : Exit * State :=
  main units stamp scenario 10 seeded resumed.

Definition flaky_run : Exit * State :=
  main units stamp scenario 10 ∅ flaky.

Lemma loop_chunks_tile_the_scan_witness :
  (resumed_run.1 = Finished /\
   tiles 50 (processing (events resumed_run.2)) 150 249) /\
  (advancing 50 (processing (events flaky_run.2)) 100 249 /\
   (flaky_run.1 = Finished -> no_append_failed (events flaky_run.2) ->
    tiles 50 (processing (events flaky_run.2)) 100 249)) /\
  checkpoint_of (loadProgress scenario checkpoint_149) = CheckpointAt 149.
Proof.
  split; [ | split ].
  - unfold resumed_run.
    apply (proj1 (proj2 (proj2 (proj2 loop_chunks_tile_the_scan)))
             units stamp scenario 10%nat 2%nat seeded resumed 149
             [JNum (T "7")]).
    + reflexivity.
    + simpl. lia.
    + simpl. lia.
    + discriminate.
    + vm_compute. reflexivity.
    + right. exists (T "[ 7 ]"). split; vm_compute; reflexivity.
    + reflexivity.
    + reflexivity.
    + lia.
  - unfold flaky_run.
    apply (proj1 (proj2 (proj2 loop_chunks_tile_the_scan))
             units stamp scenario 10%nat ∅ flaky 99).
    + reflexivity.
    + vm_compute. reflexivity.
  - apply (proj2 (proj2 (proj2 (proj2 (proj2 loop_chunks_tile_the_scan))))
             (fun _ => T "2025-01-01T00:00:00.000Z") scenario 149 0
             {| disk := ∅;
                manager := create [] 0;
                world := {| clock := 0; network := []; slept := [] |};
                events := [] |}).
    reflexivity.
Defined.

End ScanSpec.
(* ===================================================================== *)
(** * The price of a swap record *)
(* ===================================================================== *)

(** The ingestor gives a record the member price, computed from
    [sqrtPriceX96]; the correction pass replaces it by the member
    executionPrice, computed from the two amounts. *)
Module RecordPrice.
Import Json Chain Rpc Append Ingest Fix2 Num NumFacts Price PriceExtra.

(** ** The price the ingestor writes *)

Lemma sqrtPriceX96ToPrice_number (sqrt decimals0 decimals1 : Z) :
  0 <= sqrt < 2 ^ 160 -> 0 <= decimals0 <= 255 -> 0 <= decimals1 ->
  let ratio := (sqrt * sqrt * 10 ^ decimals0)
               / (2 ^ 96 * 2 ^ 96 * 10 ^ decimals1) in
  sqrtPriceX96ToPrice sqrt decimals0 decimals1 = Some (of_BigInt ratio) /\
  json_of_number (of_BigInt ratio) = JNum (JS.dec (to_Z (of_BigInt ratio))).
Proof.
  intros Hs Hd0 Hd1 ratio.
  set (num := sqrt * sqrt * 10 ^ decimals0) in *.
  set (den := 2 ^ 96 * 2 ^ 96 * 10 ^ decimals1) in *.
  assert (Hp0 : 0 < 10 ^ decimals0) by (apply Z.pow_pos_nonneg; lia).
  assert (Hp1 : 0 < 10 ^ decimals1) by (apply Z.pow_pos_nonneg; lia).
  assert (H192 : 0 < 2 ^ 192) by done.
  assert (Hden : 2 ^ 192 <= den).
  { unfold den. change (2 ^ 96 * 2 ^ 96) with (2 ^ 192). nia. }
  assert (Hnum : 0 <= num < 2 ^ 192 * 2 ^ 1023).
  { split; [ unfold num; nia | ].
    assert (Hsq : sqrt * sqrt < 2 ^ 160 * 2 ^ 160) by nia.
    assert (Hpow : 10 ^ decimals0 <= 10 ^ 255)
      by (apply Z.pow_le_mono_r; lia).
    assert (Hconst : 2 ^ 160 * 2 ^ 160 * 10 ^ 255 <= 2 ^ 192 * 2 ^ 1023)
      by (apply Z.leb_le; vm_compute; reflexivity).
    eapply Z.lt_le_trans; [ | exact Hconst ].
    apply Z.le_lt_trans with (sqrt * sqrt * 10 ^ 255).
    - apply Z.mul_le_mono_nonneg_l; [ nia | done ].
    - apply Z.mul_lt_mono_pos_r; [ done | exact Hsq ]. }
  assert (Hr : 0 <= ratio < 2 ^ 1023).
  { split; [ apply Z.div_pos; lia | ].
    apply Z.div_lt_upper_bound; [ lia | ].
    apply Z.lt_le_trans with (2 ^ 192 * 2 ^ 1023); [ lia | ].
    apply Z.mul_le_mono_nonneg_r; [ done | exact Hden ]. }
  assert (Hcall : sqrtPriceX96ToPrice sqrt decimals0 decimals1
                  = Some (div (of_BigInt ratio) one)).
  { unfold sqrtPriceX96ToPrice.
    replace (decimals0 <? 0) with false by lia.
    replace (decimals1 <? 0) with false by lia.
    cbn [orb]. fold num den. rewrite Z.quot_div_nonneg by lia. done. }
  rewrite Hcall.
  destruct (Z.eq_dec ratio 0) as [Hz | Hnz]; [ by rewrite Hz | ].
  destruct (of_BigInt_shape ratio Hnz) as (m & e & Hshape & Hdig & He & _);
    [ lia | ].
  by rewrite Hshape, div_one by (done || lia).
Qed.

Section Ingestor.
Variable formatUnits : Z -> Z -> text.
Variable toISOString : Z -> text.
Variable cfg : Config.

(** The members of a record that the ingestor builds from a log. *)
Lemma decodeLog_members (l : Log) (url : string) (w w' : World) (rec : json) :
  decodeLog formatUnits toISOString cfg l url w = (inr rec, w') ->
  exists args price timestamp,
    parsed l = Some args /\
    sqrtPriceX96ToPrice (sqrtPriceX96 args)
      (POOL_decimals0 cfg) (POOL_decimals1 cfg) = Some price /\
    rec = JObj
      [ (T "timestamp", JNum (JS.dec timestamp));
        (T "datetime", JStr (toISOString (timestamp * 1000)));
        (T "blockNumber", JNum (JS.dec (blockNumber l)));
        (T "txHash", JStr (transactionHash l));
        (T "sender", JStr (sender args));
        (T "recipient", JStr (recipient args));
        (T "amount0", JStr (formatUnits (amount0 args) (POOL_decimals0 cfg)));
        (T "amount1", JStr (formatUnits (amount1 args) (POOL_decimals1 cfg)));
        (T "price", json_of_number price);
        (T "tick", JStr (JS.dec (tick args))) ].
Proof.
  unfold decodeLog. destruct (getBlock w) as [[msg | block] w1]; [ done | ].
  destruct (parsed l) as [args | ]; [ | done ].
  destruct (sqrtPriceX96ToPrice _ _ _) as [price | ] eqn:Hprice; [ | done ].
  destruct block as [timestamp | ]; [ | done ].
  intros [= <- <-]. by exists args, price, timestamp.
Qed.

End Ingestor.

(** ** The price the correction computes *)

Lemma round_abs (s : bool) (m e : Z) (l : location) :
  SFabs (binary_round_aux prec emax s m e l)
  = binary_round_aux prec emax false m e l.
Proof.
  unfold binary_round_aux.
  destruct (shr_fexp prec emax m e l) as [mrs e'].
  destruct (shr_fexp prec emax _ e' loc_Exact) as [mrs' e''].
  destruct (shr_m mrs'); [ done | | done ].
  by destruct (e'' <=? emax - prec).
Qed.

(** The quotient of the absolute values is the absolute value of the
    quotient: the signs of the amounts play no part. *)
Lemma div_abs (x y : spec_float) : div (abs x) (abs y) = abs (div x y).
Proof.
  destruct x as [ sx | sx | | sx mx ex ], y as [ sy | sy | | sy my ey ];
    try done.
  unfold div, abs, SFdiv. cbn [SFabs].
  destruct (SFdiv_core_binary prec emax (Zpos mx) ex (Zpos my) ey)
    as [[mz ez] lz].
  by rewrite round_abs.
Qed.

Lemma abs_of_BigInt (n : Z) : abs (of_BigInt n) = of_BigInt (Z.abs n).
Proof.
  unfold of_BigInt. rewrite Z.abs_idemp.
  destruct (Z.eqb_spec n 0) as [-> | Hn]; [ done | ].
  rewrite (proj2 (Z.eqb_neq (Z.abs n) 0)) by lia.
  rewrite (proj2 (Z.ltb_ge (Z.abs n) 0)) by lia.
  cbv zeta. destruct (_ <=? 53); [ done | ].
  by destruct (emax - prec <? _).
Qed.

Lemma is_zero_of_BigInt (n : Z) : is_zero (of_BigInt n) = (n =? 0).
Proof.
  unfold of_BigInt. destruct (Z.eqb_spec n 0) as [-> | Hn]; [ done | ].
  cbv zeta. destruct (_ <=? 53); [ done | ].
  by destruct (emax - prec <? _).
Qed.

Lemma calculateExecutionPrice_null (amount0 amount1 : text)
    (decimals0 decimals1 : Z) :
  calculateExecutionPrice amount0 amount1 decimals0 decimals1 = None <->
  is_zero (parseFloat amount0) = true \/ is_zero (parseFloat amount1) = true.
Proof.
  unfold calculateExecutionPrice. rewrite !PriceSpec.strict_eq_abs_zero.
  destruct (is_zero (parseFloat amount0)), (is_zero (parseFloat amount1));
    simpl; split; (done || auto || by intros [ | ]).
Qed.

Lemma calculateExecutionPrice_number (amount0 amount1 : text)
    (decimals0 decimals1 : Z) (p : spec_float) :
  calculateExecutionPrice amount0 amount1 decimals0 decimals1 = Some p ->
  is_zero (parseFloat amount0) = false /\
  is_zero (parseFloat amount1) = false /\
  not_negative p = true /\
  p = abs (div (parseFloat amount1) (parseFloat amount0)).
Proof.
  unfold calculateExecutionPrice. rewrite !PriceSpec.strict_eq_abs_zero.
  destruct (is_zero (parseFloat amount0)); [ done | ].
  destruct (is_zero (parseFloat amount1)); [ done | ].
  intros [= <-]. split; [ done | ]. split; [ done | ].
  split; [ apply div_abs_not_negative | apply div_abs ].
Qed.

Lemma calculateExecutionPrice_whole (n0 n1 decimals0 decimals1 : Z) :
  Z.abs n0 < 2 ^ 53 -> Z.abs n1 < 2 ^ 53 ->
  calculateExecutionPrice (JS.dec n0) (JS.dec n1) decimals0 decimals1
  = if (n0 =? 0) || (n1 =? 0) then None
    else Some (div (of_BigInt (Z.abs n1)) (of_BigInt (Z.abs n0))).
Proof.
  intros H0 H1. unfold calculateExecutionPrice.
  rewrite !PriceSpec.strict_eq_abs_zero.
  rewrite !ParseFloatFacts.parseFloat_dec by done.
  by rewrite !is_zero_of_BigInt, !abs_of_BigInt.
Qed.

(** ** A record of the ingestor in the correction pass *)

Section Corrected.
Variable number_text : spec_float -> text.

(** The loop body of the correction on an object with the members of a
    record of the ingestor. *)
Lemma updateSwap_members (v1 v2 v4 v5 v6 v9 v10 : value) (b : spec_float)
    (a0 a1 : text) :
  Fix2.updateSwap number_text
    (VObj [ (T "timestamp", v1); (T "datetime", v2);
            (T "blockNumber", VNum b); (T "txHash", v4);
            (T "sender", v5); (T "recipient", v6);
            (T "amount0", VStr a0); (T "amount1", VStr a1);
            (T "price", v9); (T "tick", v10) ])
  = inr (VObj [ (T "timestamp", v1); (T "datetime", v2);
                (T "blockNumber", VNum b); (T "txHash", v4);
                (T "sender", v5); (T "recipient", v6);
                (T "amount0", VStr a0); (T "amount1", VStr a1);
                (T "tick", v10);
                (T "executionPrice", Fix2Extra.price_member a0 a1) ]).
Proof.
  unfold Fix2.updateSwap, Fix2Extra.price_member.
  change (get _ (T "amount0")) with (@inr string _ (Some (VStr a0))).
  change (get _ (T "amount1")) with (@inr string _ (Some (VStr a1))).
  cbn [Fix2.text_of to_text].
  destruct (calculateExecutionPrice a0 a1 8 6) as [p | ]; reflexivity.
Qed.

Lemma record_members (j1 j2 j3 j4 j5 j6 j7 j8 j9 j10 : json) :
  of_json (JObj [ (T "timestamp", j1); (T "datetime", j2);
                  (T "blockNumber", j3); (T "txHash", j4);
                  (T "sender", j5); (T "recipient", j6);
                  (T "amount0", j7); (T "amount1", j8);
                  (T "price", j9); (T "tick", j10) ])
  = VObj [ (T "timestamp", of_json j1); (T "datetime", of_json j2);
           (T "blockNumber", of_json j3); (T "txHash", of_json j4);
           (T "sender", of_json j5); (T "recipient", of_json j6);
           (T "amount0", of_json j7); (T "amount1", of_json j8);
           (T "price", of_json j9); (T "tick", of_json j10) ].
Proof.
  cbn [of_json map fst snd].
  generalize (of_json j1), (of_json j2), (of_json j3), (of_json j4),
    (of_json j5), (of_json j6), (of_json j7), (of_json j8), (of_json j9),
    (of_json j10).
  reflexivity.
Qed.

End Corrected.

(** ** Examples *)

Fixpoint drop_zeros (s : text) : text :=
  match s with
  | c :: r => if Ascii.eqb c "0" then drop_zeros r else s
  | [] => []
  end.

(** A formatter of fixed-point amounts for the examples, in the manner
    of [ethers.formatUnits]: the integer part, a point, and the fraction
    without its trailing zeros, one digit at least. *)
Definition fixed (value decimals : Z) : text :=
  let a := Z.abs value in
  let unit := 10 ^ decimals in
  let frac := JS.digits (a mod unit) in
  let padded :=
    repeat "0"%char (Z.to_nat decimals - length frac) ++ frac in
  let cut := rev (drop_zeros (rev padded)) in
  (if value <? 0 then [ "-"%char ] else [])
  ++ JS.digits (a / unit)
  ++ "."%char :: (if is_nil cut then [ "0"%char ] else cut).

(** A swap log with and without a first amount. *)
Definition swap_log (amount0 : Z) : Log :=
  {| blockNumber := 120;
     transactionHash := T "0xabc";
     parsed := Some {| sender := T "0x01"; recipient := T "0x02";
                       amount0 := amount0; amount1 := 30000000000;
                       sqrtPriceX96 := 250 * 2 ^ 96; tick := 110000 |} |}.

(** The replies to a run over the blocks 100 to 249 whose first chunk
    has the log [l]. *)
Definition serving (l : Log) : World :=
  {| clock := 0;
     network :=
       [ IngestSpec.quick (BlockNumber 21000000);
         IngestSpec.quick (Logs [ l ]);
         IngestSpec.quick (BlockNumber 21000000);
         IngestSpec.quick (Block (Some 1700000000));
         IngestSpec.quick (BlockNumber 21000000);
         IngestSpec.quick (Logs []);
         IngestSpec.quick (BlockNumber 21000000);
         IngestSpec.quick (Logs []) ];
     slept := [] |}.

(** The element [i] of the array in the output file of a disk. *)
Definition output_record (d : gmap string text) (i : nat)
  : option (list (text * json)) :=
  match d !! OUTPUT_FILE with
  | Some raw =>
      match parse raw with
      | Some (JArr records) =>
          match records !! i with
          | Some (JObj members) => Some members
          | _ => None
          end
      | _ => None
      end
  | None => None
  end.

(** A run of the ingestor over a swap whose first amount is zero. *)
Definition zero_amount_run : Exit * State :=
  Ingest.main fixed IngestExtra.stamp IngestSpec.scenario 10 ∅
    (serving (swap_log 0)).

(** The claim of C6 fails on the records that the ingestor writes.  From
    a swap whose first amount is zero [main] writes a record whose member
    amount0 reads as zero and whose derived price is the number 6250000,
    not null. *)
Lemma ingestor_price_of_zero_amount :
  exists members,
    zero_amount_run.1 = Finished /\
    output_record (disk zero_amount_run.2) 0 = Some members /\
    get_member (T "amount0") members = Some (JStr (T "0.0")) /\
    parseFloat (T "0.0") = zero /\
    get_member (T "price") members = Some (JNum (T "6250000")) /\
    get_member (T "price") members <> Some JNull.
Proof.
  eexists. split; [ vm_compute; reflexivity | ].
  split; [ vm_compute; reflexivity | ].
  split; [ vm_compute; reflexivity | ].
  split; [ vm_compute; reflexivity | ].
  split; [ vm_compute; reflexivity | ]. vm_compute. discriminate.
Qed.

(** ** C6 *)

(** C6, as the code has it.  The record that the ingestor builds from a
    swap carries the two amounts as [formatUnits] prints them and the
    member price, which is the whole number computed from
    [sqrtPriceX96], whatever the amounts: with an amount of zero too it
    is a number, not null.  The derived price of the claim is the member
    executionPrice that the correction pass gives a record.
    [calculateExecutionPrice] never throws; it returns null exactly when
    one of the amounts reads as a zero, of either sign, and no quotient
    by zero is ever formed; with both amounts not zero it returns a
    number, which is never negative and is the absolute value of the
    quotient of the second amount by the first: for whole amounts [n0]
    and [n1] the quotient of [|n1|] by [|n0|], and 60000 for the amounts
    0.5 and 30000, of either sign.  And the loop body of the correction,
    run on a record of the ingestor as [JSON.parse] returns it, does not
    throw: it removes the member price and sets executionPrice to what
    [calculateExecutionPrice] returns for the two amounts of the
    record. *)
Theorem swap_record_price :
  (forall formatUnits toISOString (cfg : Config) (l : Log) (url : string)
          (w w' : World) (rec : json),
      decodeLog formatUnits toISOString cfg l url w = (inr rec, w') ->
      exists args members,
        parsed l = Some args /\ rec = JObj members /\
        get_member (T "amount0") members
        = Some (JStr (formatUnits (amount0 args) (POOL_decimals0 cfg))) /\
        get_member (T "amount1") members
        = Some (JStr (formatUnits (amount1 args) (POOL_decimals1 cfg))) /\
        (0 <= sqrtPriceX96 args < 2 ^ 160 -> POOL_decimals0 cfg <= 255 ->
         let ratio :=
           (sqrtPriceX96 args * sqrtPriceX96 args * 10 ^ POOL_decimals0 cfg)
           / (2 ^ 96 * 2 ^ 96 * 10 ^ POOL_decimals1 cfg) in
         get_member (T "price") members
         = Some (JNum (JS.dec (to_Z (of_BigInt ratio)))))) /\
  (forall (amount0 amount1 : text) (decimals0 decimals1 : Z),
      calculateExecutionPrice amount0 amount1 decimals0 decimals1 = None <->
      is_zero (parseFloat amount0) = true \/
      is_zero (parseFloat amount1) = true) /\
  (forall (amount0 amount1 : text) (decimals0 decimals1 : Z)
          (p : spec_float),
      calculateExecutionPrice amount0 amount1 decimals0 decimals1 = Some p ->
      not_negative p = true /\
      p = abs (div (parseFloat amount1) (parseFloat amount0))) /\
  (forall n0 n1 decimals0 decimals1 : Z,
      Z.abs n0 < 2 ^ 53 -> Z.abs n1 < 2 ^ 53 ->
      calculateExecutionPrice (JS.dec n0) (JS.dec n1) decimals0 decimals1
      = if (n0 =? 0) || (n1 =? 0) then None
        else Some (div (of_BigInt (Z.abs n1)) (of_BigInt (Z.abs n0)))) /\
  calculateExecutionPrice (T "0.5") (T "30000") 8 6
    = Some (of_BigInt 60000) /\
  calculateExecutionPrice (T "-0.5") (T "30000.0") 8 6
    = Some (of_BigInt 60000) /\
  calculateExecutionPrice (T "0.0") (T "30000.0") 8 6 = None /\
  calculateExecutionPrice (T "-0.5") (T "-0.0") 8 6 = None /\
  (forall number_text formatUnits toISOString (cfg : Config) (l : Log)
          (url : string) (w w' : World) (rec : json),
      decodeLog formatUnits toISOString cfg l url w = (inr rec, w') ->
      exists args ms',
        parsed l = Some args /\
        Fix2.updateSwap number_text (of_json rec) = inr (VObj ms') /\
        get_own (T "price") ms' = None /\
        get_own (T "executionPrice") ms'
        = Some (match calculateExecutionPrice
                        (formatUnits (amount0 args) (POOL_decimals0 cfg))
                        (formatUnits (amount1 args) (POOL_decimals1 cfg))
                        8 6 with
                | Some p => VNum p
                | None => VNull
                end)).
Proof.
  split.
  { intros formatUnits toISOString cfg l url w w' rec Hdec.
    destruct (decodeLog_members _ _ _ _ _ _ _ _ Hdec)
      as (args & price & timestamp & Hargs & Hprice & ->).
    eexists args, _. split; [ done | ]. split; [ reflexivity | ].
    split; [ reflexivity | ]. split; [ reflexivity | ].
    intros Hsqrt Hd0 ratio.
    assert (Hdec0 : 0 <= POOL_decimals0 cfg /\ 0 <= POOL_decimals1 cfg).
    { revert Hprice. unfold sqrtPriceX96ToPrice.
      destruct (Z.ltb_spec (POOL_decimals0 cfg) 0); [ done | ].
      destruct (Z.ltb_spec (POOL_decimals1 cfg) 0); [ done | ]. done. }
    destruct (sqrtPriceX96ToPrice_number (sqrtPriceX96 args)
                (POOL_decimals0 cfg) (POOL_decimals1 cfg))
      as [Hcall Hnum]; [ done | lia | lia | ].
    fold ratio in Hcall, Hnum. rewrite Hcall in Hprice.
    injection Hprice as <-.
    change (get_member (T "price") _)
      with (Some (json_of_number (of_BigInt ratio))).
    by rewrite Hnum. }
  split; [ exact calculateExecutionPrice_null | ].
  split.
  { intros amount0 amount1 decimals0 decimals1 p Hp.
    by destruct (calculateExecutionPrice_number _ _ _ _ _ Hp)
      as (_ & _ & Hpos & Hval). }
  split; [ exact calculateExecutionPrice_whole | ].
  split; [ by vm_compute | ]. split; [ by vm_compute | ].
  split; [ by vm_compute | ]. split; [ by vm_compute | ].
  intros number_text formatUnits toISOString cfg l url w w' rec Hdec.
  destruct (decodeLog_members _ _ _ _ _ _ _ _ Hdec)
    as (args & price & timestamp & Hargs & Hprice & ->).
  exists args. eexists. split; [ done | ].
  rewrite record_members. cbn [of_json].
  rewrite updateSwap_members. split; [ reflexivity | ].
  split; reflexivity.
Qed.

(** The world in which the block of a log is asked for. *)
Definition block_reply : World :=
  {| clock := 0;
     network := [ IngestSpec.quick (Block (Some 1700000000)) ];
     slept := [] |}.

Lemma swap_record_price_witness :
  (exists rec w' args ms',
      decodeLog fixed IngestExtra.stamp IngestSpec.scenario
        (swap_log (-50000000)) EmptyString block_reply = (inr rec, w') /\
      parsed (swap_log (-50000000)) = Some args /\
      fixed (amount0 args) 8 = T "-0.5" /\
      fixed (amount1 args) 6 = T "30000.0" /\
      Fix2.updateSwap Fix2Extra.whole_text (of_json rec) = inr (VObj ms') /\
      get_own (T "price") ms' = None /\
      get_own (T "executionPrice") ms' = Some (VNum (of_BigInt 60000))) /\
  (exists rec w' members,
      decodeLog fixed IngestExtra.stamp IngestSpec.scenario
        (swap_log 0) EmptyString block_reply = (inr rec, w') /\
      rec = JObj members /\
      get_member (T "amount0") members = Some (JStr (T "0.0")) /\
      get_member (T "price") members = Some (JNum (T "6250000"))) /\
  calculateExecutionPrice (JS.dec (-2)) (JS.dec 7) 8 6
  = Some (div (of_BigInt 7) (of_BigInt 2)) /\
  calculateExecutionPrice (JS.dec 0) (JS.dec 7) 8 6 = None.
Proof.
  split; [ | split; [ | split ] ].
  - destruct (decodeLog fixed IngestExtra.stamp IngestSpec.scenario
                (swap_log (-50000000)) EmptyString block_reply)
      as [[msg | rec] w'] eqn:Hdec;
      [ vm_compute in Hdec; discriminate Hdec | ].
    destruct (proj2 (proj2 (proj2 (proj2 (proj2 (proj2 (proj2 (proj2
                swap_record_price)))))))
                Fix2Extra.whole_text fixed IngestExtra.stamp
                IngestSpec.scenario (swap_log (-50000000)) EmptyString
                _ w' rec Hdec)
      as (args & ms' & Hargs & Hrun & Hprice & Hexec).
    exists rec, w', args, ms'. split; [ reflexivity | ].
    split; [ exact Hargs | ].
    injection Hargs as <-.
    split; [ vm_compute; reflexivity | ].
    split; [ vm_compute; reflexivity | ].
    split; [ exact Hrun | ]. split; [ exact Hprice | ].
    rewrite Hexec. vm_compute. reflexivity.
  - destruct (decodeLog fixed IngestExtra.stamp IngestSpec.scenario
                (swap_log 0) EmptyString block_reply)
      as [[msg | rec] w'] eqn:Hdec;
      [ vm_compute in Hdec; discriminate Hdec | ].
    destruct (proj1 swap_record_price fixed IngestExtra.stamp
                IngestSpec.scenario (swap_log 0) EmptyString _ w' rec Hdec)
      as (args & members & Hargs & Hrec & Ha0 & _ & Hprice).
    exists rec, w', members. split; [ reflexivity | ].
    split; [ exact Hrec | ].
    injection Hargs as <-.
    split; [ rewrite Ha0; vm_compute; reflexivity | ].
    rewrite Hprice; [ vm_compute; reflexivity | | ].
    + split; [ by vm_compute | reflexivity ].
    + by vm_compute.
  - apply (proj1 (proj2 (proj2 (proj2 swap_record_price))) (-2) 7 8 6);
      reflexivity.
  - apply (proj1 (proj2 (proj2 (proj2 swap_record_price))) 0 7 8 6);
      reflexivity.
Defined.

End RecordPrice.
